(** * pgp-mfa: the challenge lifecycle of [main.go]

    A shallow embedding of the [challenge] command of pgp-mfa: length
    validation, secret generation over the challenge alphabet, delegation to
    the OpenPGP provider, the expiry instant and the verification loop.

    Go values are represented as follows.
    - [byte] is [ascii] (eight bits); a [[]byte] and the bytes of a Go
      [string] read from standard input are [list byte];
    - string literals, command-line arguments and messages are [string];
    - [int] is [Z] (the 64-bit range is written out where it matters);
    - a [time.Time] is a [Z], an instant counted in nanoseconds, and a
      [time.Duration] is a [Z] number of nanoseconds;
    - an [error] is a value of the inductive [error];
    - effects (standard input, the clock, the random source, the key
      repository, the OpenPGP provider, the file system, standard output) are
      threaded through the monad [M], which also records every effect in a
      trace. *)

From Stdlib Require Import ZArith NArith List String Ascii Bool Lia.
From Stdlib Require Import Permutation.
From Stdlib Require Import DecimalString.
Import ListNotations.

Local Open Scope Z_scope.

(** ** Bytes, errors and outcomes *)

Definition byte : Type := ascii.

Definition byte_to_Z (b : byte) : Z := Z.of_N (N_of_ascii b).

(** The conversion [byte(n)] of an [int]: the low eight bits. *)
Definition byte_of_Z (n : Z) : byte := ascii_of_N (Z.to_N (n mod 256)).

Definition bytes_of_string (s : string) : list byte := list_ascii_of_string s.

(** Go's [error] values met in [main.go].  The two sentinels of the challenge
    command are constructors of their own, since callers tell them apart by
    identity. *)
Inductive error : Type :=
| ErrChallengeLength
| ErrChallengePow
| errors_New (msg : string)
| fmt_Errorf (prefix : string) (cause : error)
| External (msg : string).

(** [err.Error()].  [fmt_Errorf p e] stands for [fmt.Errorf(p + "%v", e)]. *)
Fixpoint Error (e : error) : string :=
  match e with
  | ErrChallengeLength =>
      "challenge length must be a power of two between 1 and 512"%string
  | ErrChallengePow => "challenge length must be a power of two"%string
  | errors_New msg => msg
  | fmt_Errorf prefix cause => (prefix ++ Error cause)%string
  | External msg => msg
  end.

(** How a Go function call ends: it returns a value, returns a non-nil
    [error], or panics.  [OutOfFuel] is the answer of the bounded unrolling of
    the [for] loop when the bound is too small. *)
Inductive outcome (A : Type) : Type :=
| Ok (a : A)
| Err (e : error)
| Panic (msg : string)
| OutOfFuel.

Arguments Ok {A} a.
Arguments Err {A} e.
Arguments Panic {A} msg.
Arguments OutOfFuel {A}.

(** ** Constants of [main.go] *)

Definition dquote : ascii := "034"%char.

(** [challengeCharset]; the Go literal escapes the backslash and the double
    quote, each of which is one byte of the string. *)
Definition challengeCharset : string :=
  ("abcdefghijklmnopqrstuvwxyzABCDEFGHIJKLMNOPQRSTUVWXYZ0123456789-_+/\'"
   ++ String dquote "!@#$%^&*()[]{}<>?,.;:")%string.

Definition Nanosecond : Z := 1.
Definition Second : Z := 1000000000 * Nanosecond.
Definition Minute : Z := 60 * Second.

Definition ChallengeSolveTime : Z := Minute * 1.

(** ** Effects *)

(** What the command does, in program order: every interaction with the
    outside world, and the two tests of the verification loop ([EvBefore] for
    [exp.Before(time.Now())], [EvCompare] for the comparison of the trimmed
    input with the secret). *)
Inductive event : Type :=
| EvGetKey (fingerprint : string)
| EvRandRead (n : nat)
| EvPGPNew
| EvPGPEncrypt (plaintext : list byte)
| EvPGPArmor
| EvNow (t : Z)
| EvCreateTemp
| EvWrite (data : string)
| EvStdout (data : string)
| EvPrint (text : string)
| EvPrintExpiry (exp : Z)
| EvReadString (input : list byte)
| EvBefore (exp now : Z)
| EvCompare (x y : list byte)
| EvRemove (name : string)
| EvClose (name : string).

(** The part of the world that changes while the command runs: the bytes of
    standard input that no read of the program has returned yet (a buffered
    reader may hold some of them already), how many times the clock has been
    read, and the trace of effects so far. *)
Record State : Type := mkState {
  stdin : list byte;
  ticks : nat;
  trace : list event
}.

Definition M (A : Type) : Type := State -> outcome A * State.

Definition ret {A : Type} (a : A) : M A := fun s => (Ok a, s).

Definition bind {A B : Type} (m : M A) (k : A -> M B) : M B :=
  fun s =>
    match m s with
    | (Ok a, s') => k a s'
    | (Err e, s') => (Err e, s')
    | (Panic msg, s') => (Panic msg, s')
    | (OutOfFuel, s') => (OutOfFuel, s')
    end.

(** [return err] with a non-nil error. *)
Definition throw {A : Type} (e : error) : M A := fun s => (Err e, s).

Definition panic {A : Type} (msg : string) : M A := fun s => (Panic msg, s).

Definition emit (e : event) : M unit :=
  fun s => (Ok tt, mkState (stdin s) (ticks s) (trace s ++ [e])).

Declare Scope go_scope.
Delimit Scope go_scope with go.
Notation "x <- m ;; k" := (bind m (fun x => k))
  (at level 61, m at next level, right associativity) : go_scope.
Notation "m ;; k" := (bind m (fun _ => k))
  (at level 61, right associativity) : go_scope.
Local Open Scope go_scope.

(** [fmt.Print] and [fmt.Println] on standard output. *)
Definition Print (text : string) : M unit := emit (EvPrint text).

Definition newline : string := String "010"%char EmptyString.

Definition Println (text : string) : M unit :=
  emit (EvPrint (text ++ newline)%string).

(** ** Standard-library functions called by [main.go]

    These belong to Go's standard library, not to the repository; they are
    written here after their Go definitions, on the 64-bit [int]. *)

(** *** [strconv.Atoi] *)

Definition strconv_ErrSyntax : error := External "invalid syntax".
Definition strconv_ErrRange : error := External "value out of range".

Definition is_digit (c : byte) : bool :=
  (48 <=? byte_to_Z c) && (byte_to_Z c <=? 57).

(** The two errors that a [*strconv.NumError] wraps. *)
Inductive num_error : Type := ErrSyntax | ErrRange.

Definition NumError (e : num_error) : error :=
  match e with
  | ErrSyntax => strconv_ErrSyntax
  | ErrRange => strconv_ErrRange
  end.

Definition maxUint64 : Z := 2 ^ 64 - 1.

(** The conversion [int64(n)]. *)
Definition int64 (n : Z) : Z := (n + 2 ^ 63) mod 2 ^ 64 - 2 ^ 63.

(** The loop of [strconv.ParseUint] in base 10 on 64 bits, from the number
    [n] read so far.  A byte that is not a decimal digit is a syntax error
    with the value 0; a digit with which the number leaves the range is a
    range error with the value [maxUint64], returned at that digit, before
    the bytes after it are looked at. *)
Fixpoint ParseUint_digits (n : Z) (s : string) : Z * option num_error :=
  match s with
  | EmptyString => (n, None)
  | String c rest =>
      if is_digit c then
        let d := byte_to_Z c - 48 in
        if maxUint64 / 10 + 1 <=? n then (maxUint64, Some ErrRange)
        else
          let n10 := n * 10 in
          let n1 := (n10 + d) mod 2 ^ 64 in
          if (n1 <? n10) || (maxUint64 <? n1) then (maxUint64, Some ErrRange)
          else ParseUint_digits n1 rest
      else (0, Some ErrSyntax)
  end.

(** [strconv.ParseUint(s, 10, 0)]. *)
Definition ParseUint (s : string) : Z * option num_error :=
  match s with
  | EmptyString => (0, Some ErrSyntax)
  | String _ _ => ParseUint_digits 0 s
  end.

(** [1 << 63], the first magnitude that no longer fits a positive [int]. *)
Definition cutoff : Z := 2 ^ 63.

(** [strconv.ParseInt(s, 10, 0)]: the sign is picked off, the rest goes to
    [ParseUint], whose range error is kept while the value is replaced by
    the nearest bound. *)
Definition ParseInt (s : string) : Z * option num_error :=
  match s with
  | EmptyString => (0, Some ErrSyntax)
  | String c rest =>
      let neg := Ascii.eqb c "-" in
      let digits := if Ascii.eqb c "+" || neg then rest else s in
      let (un, err) := ParseUint digits in
      match err with
      | Some ErrSyntax => (0, Some ErrSyntax)
      | _ =>
          if negb neg && (cutoff <=? un) then (cutoff - 1, Some ErrRange)
          else if neg && (cutoff <? un) then (- cutoff, Some ErrRange)
          else
            let n := int64 un in
            (if neg then int64 (- n) else n, None)
      end
  end.

(** The loop of the fast path of [Atoi]: [ch -= '0'] on a byte, and a syntax
    error when [ch > 9]. *)
Fixpoint Atoi_digits (n : Z) (s : string) : option Z :=
  match s with
  | EmptyString => Some n
  | String c rest =>
      let ch := (byte_to_Z c - 48) mod 256 in
      if 9 <? ch then None else Atoi_digits (n * 10 + ch) rest
  end.

(** [strconv.Atoi(s)]: the value and the error.  A string of 1 to 18 bytes
    takes the fast path, any other string goes to [ParseInt]. *)
Definition Atoi (s : string) : Z * option error :=
  let sLen := Z.of_nat (String.length s) in
  if (0 <? sLen) && (sLen <? 19) then
    match s with
    | EmptyString => (0, Some strconv_ErrSyntax)
    | String c rest =>
        let signed := Ascii.eqb c "-" || Ascii.eqb c "+" in
        let digits := if signed then rest else s in
        if signed && (Z.of_nat (String.length digits) <? 1) then
          (0, Some strconv_ErrSyntax)
        else
          match Atoi_digits 0 digits with
          | None => (0, Some strconv_ErrSyntax)
          | Some n => (if Ascii.eqb c "-" then - n else n, None)
          end
    end
  else
    let (i64, err) := ParseInt s in
    (i64, option_map NumError err).

(** *** [unicode/utf8] and [unicode.IsSpace] *)

Definition RuneError : Z := 0xFFFD.
Definition RuneSelf : Z := 0x80.

(** [utf8.DecodeRune]: the code point at the front of [p] and its width in
    bytes; an invalid or truncated encoding is [(RuneError, 1)]. *)
Definition DecodeRune (p : list byte) : Z * nat :=
  match p with
  | [] => (RuneError, 0%nat)
  | c0 :: t0 =>
      let p0 := byte_to_Z c0 in
      if p0 <? RuneSelf then (p0, 1%nat)
      else if (p0 <? 0xC2) || (0xF4 <? p0) then (RuneError, 1%nat)
      else
        let lo := if p0 =? 0xE0 then 0xA0 else if p0 =? 0xF0 then 0x90 else 0x80 in
        let hi := if p0 =? 0xED then 0x9F else if p0 =? 0xF4 then 0x8F else 0xBF in
        match t0 with
        | [] => (RuneError, 1%nat)
        | c1 :: t1 =>
            let b1 := byte_to_Z c1 in
            if (b1 <? lo) || (hi <? b1) then (RuneError, 1%nat)
            else if p0 <? 0xE0 then
              (Z.lor (Z.shiftl (Z.land p0 0x1F) 6) (Z.land b1 0x3F), 2%nat)
            else
              match t1 with
              | [] => (RuneError, 1%nat)
              | c2 :: t2 =>
                  let b2 := byte_to_Z c2 in
                  if (b2 <? 0x80) || (0xBF <? b2) then (RuneError, 1%nat)
                  else if p0 <? 0xF0 then
                    (Z.lor (Z.shiftl (Z.land p0 0x0F) 12)
                       (Z.lor (Z.shiftl (Z.land b1 0x3F) 6) (Z.land b2 0x3F)),
                     3%nat)
                  else
                    match t2 with
                    | [] => (RuneError, 1%nat)
                    | c3 :: _ =>
                        let b3 := byte_to_Z c3 in
                        if (b3 <? 0x80) || (0xBF <? b3) then (RuneError, 1%nat)
                        else
                          (Z.lor (Z.shiftl (Z.land p0 0x07) 18)
                             (Z.lor (Z.shiftl (Z.land b1 0x3F) 12)
                                (Z.lor (Z.shiftl (Z.land b2 0x3F) 6)
                                   (Z.land b3 0x3F))),
                           4%nat)
                    end
              end
        end
  end.

(** [utf8.RuneStart]: the byte is not a continuation byte. *)
Definition RuneStart (b : byte) : bool :=
  negb (Z.land (byte_to_Z b) 0xC0 =? 0x80).

(** The backward scan of [utf8.DecodeLastRune]: from the bytes before the
    last one, nearest first, go back over at most [n] of them to a rune
    start; [seg] collects the bytes passed, in reading order. *)
Fixpoint lookback (n : nat) (before seg : list byte) : option (list byte) :=
  match n, before with
  | S n', b :: before' =>
      if RuneStart b then Some (b :: seg) else lookback n' before' (b :: seg)
  | _, _ => None
  end.

(** [utf8.DecodeLastRune], on the bytes of the string in reverse order: the
    code point at the end of the string and its width. *)
Definition DecodeLastRune_rev (r : list byte) : Z * nat :=
  match r with
  | [] => (RuneError, 0%nat)
  | c :: before =>
      if byte_to_Z c <? RuneSelf then (byte_to_Z c, 1%nat)
      else
        match lookback 3 before [c] with
        | None => (RuneError, 1%nat)
        | Some seg =>
            let (r, size) := DecodeRune seg in
            if (size =? List.length seg)%nat then (r, size)
            else (RuneError, 1%nat)
        end
  end.

(** [unicode.IsSpace]: the Latin-1 spaces, then the rest of the Unicode
    White_Space property. *)
Definition IsSpace (r : Z) : bool :=
  if (0 <=? r) && (r <=? 0xFF) then
    (r =? 9) || (r =? 10) || (r =? 11) || (r =? 12) || (r =? 13) || (r =? 32)
    || (r =? 0x85) || (r =? 0xA0)
  else
    (r =? 0x1680) || ((0x2000 <=? r) && (r <=? 0x200A)) || (r =? 0x2028)
    || (r =? 0x2029) || (r =? 0x202F) || (r =? 0x205F) || (r =? 0x3000).

(** *** [strings.TrimSpace] *)

(** Leading white space removed, one code point at a time. *)
Fixpoint TrimLeftSpace (s : list byte) : list byte :=
  match s with
  | [] => []
  | _ :: t1 =>
      let (r, size) := DecodeRune s in
      if IsSpace r then
        match size, t1 with
        | 1%nat, _ => TrimLeftSpace t1
        | 2%nat, _ :: t2 => TrimLeftSpace t2
        | 3%nat, _ :: _ :: t3 => TrimLeftSpace t3
        | _, _ => s
        end
      else s
  end.

(** Trailing white space removed, on the reversed string. *)
Fixpoint TrimRightSpace_rev (r : list byte) : list byte :=
  match r with
  | [] => []
  | _ :: t1 =>
      let (c, size) := DecodeLastRune_rev r in
      if IsSpace c then
        match size, t1 with
        | 1%nat, _ => TrimRightSpace_rev t1
        | 2%nat, _ :: t2 => TrimRightSpace_rev t2
        | 3%nat, _ :: _ :: t3 => TrimRightSpace_rev t3
        | _, _ => r
        end
      else r
  end.

Definition TrimRightSpace (s : list byte) : list byte :=
  rev (TrimRightSpace_rev (rev s)).

(** [strings.TrimSpace(s)]: [s] without its leading and trailing white
    space, as defined by Unicode. *)
Definition TrimSpace (s : list byte) : list byte :=
  TrimRightSpace (TrimLeftSpace s).

(** *** [crypto/subtle] *)

(** [subtle.ConstantTimeByteEq(x, y)]: [int((uint32(x^y) - 1) >> 31)]. *)
Definition ConstantTimeByteEq (x y : byte) : Z :=
  Z.shiftr ((Z.lxor (byte_to_Z x) (byte_to_Z y) - 1) mod 2 ^ 32) 31.

(** The accumulation [v |= x[i] ^ y[i]] over two slices of equal length. *)
Fixpoint xor_accumulate (v : byte) (x y : list byte) : byte :=
  match x, y with
  | a :: x', b :: y' =>
      xor_accumulate
        (byte_of_Z (Z.lor (byte_to_Z v) (Z.lxor (byte_to_Z a) (byte_to_Z b))))
        x' y'
  | _, _ => v
  end.

(** [subtle.ConstantTimeCompare(x, y)]: 1 when the slices have equal
    contents, 0 otherwise, and 0 at once when the lengths differ. *)
Definition ConstantTimeCompare (x y : list byte) : Z :=
  if negb (List.length x =? List.length y)%nat then 0
  else ConstantTimeByteEq (xor_accumulate zero x y) zero.

(** *** [bufio.Reader.ReadString] *)

(** The bytes up to and including the first [delim], and what follows. *)
Fixpoint split_at_delim (delim : byte) (data : list byte)
  : option (list byte * list byte) :=
  match data with
  | [] => None
  | b :: rest =>
      if Ascii.eqb b delim then Some ([b], rest)
      else
        match split_at_delim delim rest with
        | Some (line, rest') => Some (b :: line, rest')
        | None => None
        end
  end.

(** ** The random source and [generateChallenge] *)

Section Program.

(** The collaborators of the command.  [Key], [PGPContext] and [PGPMessage]
    are the provider's opaque types. *)
Variables Key PGPContext PGPMessage : Type.

Record World : Type := mkWorld {
  (** [crypto/rand]: the bytes it delivers, or the error it reports. *)
  rand_bytes : nat -> byte;
  rand_err : option error;
  (** The key repository behind [getKey]: the key or the error for a
      fingerprint, and what it leaves on standard input (the interactive
      selection reads a choice from it); and the texts that the lookup
      prints, the lines and the prompt of the interactive selection. *)
  key_lookup : string -> list byte -> (Key + error) * list byte;
  key_prints : string -> list byte -> list string;
  (** gopenpgp: building the encryption handle, encrypting, armoring. *)
  pgp_New : Key -> PGPContext + error;
  pgp_Encrypt : PGPContext -> list byte -> PGPMessage + error;
  pgp_Armor : PGPMessage -> string + error;
  pgp_Bytes : PGPMessage -> list byte;
  (** The wall clock: the instant returned by the n-th call of [time.Now]. *)
  clock : nat -> Z;
  (** [os.CreateTemp]: the name of the file, or an error. *)
  create_temp : string + error;
  (** Whether writing the armored text to the temporary file fails, and
      whether writing it to standard output does. *)
  write_err : option error;
  stdout_err : option error;
  (** What a read reports once standard input is exhausted ([io.EOF], or a
      read error). *)
  stdin_err : error
}.

Variable w : World.

(** [maxAlloc], the largest size the runtime allocates: [1 << 48] bytes on
    64-bit Linux. *)
Definition maxAlloc : Z := 2 ^ 48.

(** [make([]byte, length)]: a zeroed buffer.  [makeslice] panics on a
    negative length and on a length beyond [maxAlloc].  An allocation within
    the limit is taken to succeed: the runtime stops a program whose memory
    is exhausted with a fatal error, which is not a panic and which no
    function of the program sees. *)
Definition make_bytes (length : Z) : M (list byte) :=
  if (length <? 0) || (maxAlloc <? length) then
    panic "makeslice: len out of range"
  else ret (repeat zero (Z.to_nat length)).

(** [rand.Read(buffer)]: fills the whole buffer, or reports an error. *)
Definition rand_Read (buffer : list byte) : M (list byte + error) :=
  emit (EvRandRead (List.length buffer)) ;;
  match rand_err w with
  | Some err => ret (inr err)
  | None => ret (inl (map (rand_bytes w) (seq 0 (List.length buffer))))
  end.

(** [s[i]] on a Go string; an index out of range panics. *)
Definition string_index (s : string) (i : Z) : M byte :=
  if (i <? 0) || (Z.of_nat (String.length s) <=? i) then
    panic "index out of range"
  else
    match String.get (Z.to_nat i) s with
    | Some c => ret c
    | None => panic "index out of range"
    end.

(** [a % b] on bytes; a zero divisor panics. *)
Definition byte_rem (a b : byte) : M byte :=
  if byte_to_Z b =? 0 then panic "integer divide by zero"
  else ret (byte_of_Z (Z.rem (byte_to_Z a) (byte_to_Z b))).

(** The body of the [for] loop of [generateChallenge], over the buffer:
    [buffer[i] = challengeCharset[buffer[i] % byte(len(challengeCharset))]]. *)
Fixpoint substitute (buffer : list byte) : M (list byte) :=
  match buffer with
  | [] => ret []
  | b :: rest =>
      r <- byte_rem b (byte_of_Z (Z.of_nat (String.length challengeCharset))) ;;
      c <- string_index challengeCharset (byte_to_Z r) ;;
      rest' <- substitute rest ;;
      ret (c :: rest')
  end.

Definition generateChallenge (length : Z) : M (list byte) :=
  buffer <- make_bytes length ;;
  res <- rand_Read buffer ;;
  match res with
  | inr err => throw (fmt_Errorf "failed to generate challenge: " err)
  | inl buffer => substitute buffer
  end.

(** ** The key repository and [encryptChallenge] *)

(** [getKey(fingerprint)], as [challenge] calls it: the key or the error,
    what it leaves of standard input and what it prints.  The lookup itself
    is [Repository.getKey] below, which works on the table of the database;
    [Repository.with_repository] makes it the collaborator of a world. *)
Definition getKey (fingerprint : string) : M Key :=
  fun s =>
    let (res, rest) := key_lookup w fingerprint (stdin s) in
    let s' :=
      mkState rest (ticks s)
        (trace s
         ++ EvGetKey fingerprint
            :: map EvPrint (key_prints w fingerprint (stdin s))) in
    match res with
    | inl key => (Ok key, s')
    | inr err => (Err err, s')
    end.

(** On success the raw bytes of the encrypted message and its armored
    text. *)
Definition encryptChallenge (key : Key) (challenge : list byte)
  : M (list byte * string) :=
  emit EvPGPNew ;;
  match pgp_New w key with
  | inr err => throw (fmt_Errorf "failed to create pgp context: " err)
  | inl pgpCtx =>
      emit (EvPGPEncrypt challenge) ;;
      match pgp_Encrypt w pgpCtx challenge with
      | inr err => throw (fmt_Errorf "failed to encrypt challenge: " err)
      | inl encrypted =>
          emit EvPGPArmor ;;
          match pgp_Armor w encrypted with
          | inr err => throw (fmt_Errorf "failed to armor challenge: " err)
          | inl armored => ret (pgp_Bytes w encrypted, armored)
          end
      end
  end.

(** ** The clock, the temporary file and standard input *)

(** [time.Now()]. *)
Definition time_Now : M Z :=
  fun s =>
    let t := clock w (ticks s) in
    (Ok t, mkState (stdin s) (S (ticks s)) (trace s ++ [EvNow t])).

(** [exp.Before(now)]. *)
Definition Before (exp now : Z) : bool := exp <? now.

(** [os.CreateTemp]: the name of the new file, or the error. *)
Definition os_CreateTemp : M (string + error) :=
  emit EvCreateTemp ;; ret (create_temp w).

(** [writer.Write] of [io.MultiWriter(tempFile, os.Stdout)]: the data goes
    to the file, then to standard output, and the first write that fails
    ends the call with its error.  [EvWrite] is the write to the file,
    [EvStdout] the write to standard output. *)
Definition Write (data : string) : M (option error) :=
  emit (EvWrite data) ;;
  match write_err w with
  | Some err => ret (Some err)
  | None => emit (EvStdout data) ;; ret (stdout_err w)
  end.

(** [defer cleanup]: [cleanup] runs when the rest of the function is left,
    whichever way, and the function's result stands. *)
Definition defer {A : Type} (cleanup : M unit) (body : M A) : M A :=
  fun s =>
    let (r, s') := body s in
    let (_, s'') := cleanup s' in
    (r, s'').

(** [reader.ReadString(delim)] on the buffered reader of standard input:
    the bytes up to and including the delimiter; when the input ends first,
    what was read and the error.  What is left in [stdin] is what the reader
    has not returned, whether it has taken it into its buffer or not. *)
Definition ReadString (delim : byte) : M (list byte * option error) :=
  fun s =>
    match split_at_delim delim (stdin s) with
    | Some (line, rest) =>
        (Ok (line, None),
         mkState rest (ticks s) (trace s ++ [EvReadString line]))
    | None =>
        (Ok (stdin s, Some (stdin_err w)),
         mkState [] (ticks s) (trace s ++ [EvReadString (stdin s)]))
    end.

(** ** The verification loop *)

(** How one pass through the body of a [for] loop ends, when it does not
    return: [continue] (or the end of the body), or [break]. *)
Inductive control : Type := Continue | Break.

(** [for { body }], unrolled at most [fuel] times. *)
Fixpoint for_loop (fuel : nat) (body : M control) : M unit :=
  match fuel with
  | O => fun s => (OutOfFuel, s)
  | S fuel' =>
      c <- body ;;
      match c with
      | Break => ret tt
      | Continue => for_loop fuel' body
      end
  end.

(** The body of the loop of [challenge]. *)
Definition loop_body (exp : Z) (challengeBytes : list byte) : M control :=
  Print "enter your solution: " ;;
  r <- ReadString "010"%char ;;
  let (input, err) := r in
  match err with
  | Some err => throw (fmt_Errorf "failed to read input: " err)
  | None =>
      if (List.length input =? 0)%nat then ret Continue
      else
        now <- time_Now ;;
        emit (EvBefore exp now) ;;
        if Before exp now then throw (errors_New "challenge has expired")
        else
          emit (EvCompare (TrimSpace input) challengeBytes) ;;
          if ConstantTimeCompare (TrimSpace input) challengeBytes =? 1 then
            Println "challenge solved!" ;;
            ret Break
          else
            Println "incorrect!" ;;
            ret Continue
  end.

(** The loop of [challenge].  Every pass that does not leave the loop
    consumes a line of standard input, so one more pass than there are bytes
    left is enough. *)
Definition verification_loop (exp : Z) (challengeBytes : list byte) : M unit :=
  fun s =>
    for_loop (S (List.length (stdin s))) (loop_body exp challengeBytes) s.

(** ** The [challenge] command *)

Definition challenge (args : list string) : M unit :=
  match args with
  | [] => throw (errors_New "usage: pgp-mfa challenge <length> [key-id]")
  | arg0 :: more =>
      let length := fst (Atoi arg0) in
      if (length <=? 0) || (512 <? length) then throw ErrChallengeLength
      else if negb (Z.land length (length - 1) =? 0) then throw ErrChallengePow
      else
        let fingerprint :=
          match more with
          | [] => EmptyString
          | arg1 :: _ => arg1
          end in
        selectedKey <- getKey fingerprint ;;
        challengeBytes <- generateChallenge length ;;
        enc <- encryptChallenge selectedKey challengeBytes ;;
        let armored := snd enc in
        t <- time_Now ;;
        let exp := t + ChallengeSolveTime in
        created <- os_CreateTemp ;;
        match created with
        | inr err => throw (fmt_Errorf "failed to create temp file: " err)
        | inl tempFile =>
            defer (emit (EvClose tempFile))
              (werr <- Write (armored ++ newline) ;;
               match werr with
               | None => Println ("solve with: gpg -dq --batch < " ++ tempFile)
               | Some _ => ret tt
               end ;;
               emit (EvPrintExpiry exp) ;;
               defer (emit (EvRemove tempFile))
                 (verification_loop exp challengeBytes))
        end
  end.

End Program.

Arguments rand_bytes {Key PGPContext PGPMessage} w _.
Arguments rand_err {Key PGPContext PGPMessage} w.
Arguments key_lookup {Key PGPContext PGPMessage} w _ _.
Arguments key_prints {Key PGPContext PGPMessage} w _ _.
Arguments pgp_New {Key PGPContext PGPMessage} w _.
Arguments pgp_Encrypt {Key PGPContext PGPMessage} w _ _.
Arguments pgp_Armor {Key PGPContext PGPMessage} w _.
Arguments pgp_Bytes {Key PGPContext PGPMessage} w _.
Arguments clock {Key PGPContext PGPMessage} w _.
Arguments create_temp {Key PGPContext PGPMessage} w.
Arguments write_err {Key PGPContext PGPMessage} w.
Arguments stdout_err {Key PGPContext PGPMessage} w.
Arguments stdin_err {Key PGPContext PGPMessage} w.
Arguments rand_Read {Key PGPContext PGPMessage} w buffer _.
Arguments generateChallenge {Key PGPContext PGPMessage} w length _.
Arguments getKey {Key PGPContext PGPMessage} w fingerprint _.
Arguments encryptChallenge {Key PGPContext PGPMessage} w key challenge _.
Arguments time_Now {Key PGPContext PGPMessage} w _.
Arguments os_CreateTemp {Key PGPContext PGPMessage} w _.
Arguments Write {Key PGPContext PGPMessage} w data _.
Arguments ReadString {Key PGPContext PGPMessage} w delim _.
Arguments loop_body {Key PGPContext PGPMessage} w exp challengeBytes _.
Arguments verification_loop {Key PGPContext PGPMessage} w exp challengeBytes _.
Arguments challenge {Key PGPContext PGPMessage} w args _.

(** ** Vocabulary of the properties *)

(** The call ends the way a Go function returns: with a value or with an
    error. *)
Definition returns {A : Type} (r : outcome A * State) : Prop :=
  match fst r with
  | Ok _ | Err _ => True
  | Panic _ | OutOfFuel => False
  end.

(** *** The alphabet *)

(** The character of the alphabet at an index. *)
Definition charset_at (i : nat) : byte :=
  nth i (bytes_of_string challengeCharset) zero.

Definition in_charset (c : byte) : Prop :=
  In c (bytes_of_string challengeCharset).

(** *** Lengths *)

Definition power_of_two (n : Z) : Prop := exists k : nat, n = 2 ^ Z.of_nat k.

(** The powers of two from 1 to 512. *)
Definition valid_lengths : list Z := [1; 2; 4; 8; 16; 32; 64; 128; 256; 512].




(** *** Candidates and answers *)

(** The three ways a candidate is answered.  [Expired] is the error the
    command returns; the other two are the lines it prints. *)
Definition Expired : error := errors_New "challenge has expired".
Definition Matched : event := EvPrint ("challenge solved!" ++ newline).
Definition Mismatched : event := EvPrint ("incorrect!" ++ newline).
Definition Prompt : event := EvPrint "enter your solution: ".

Definition LF : byte := "010"%char.

(** A candidate as it is typed: its bytes, then a line feed. *)
Definition typed (candidate : list byte) : list byte := candidate ++ [LF].

(** What a run of refused candidates leaves in the trace, the first of them
    being answered at the clock's [t]-th reading. *)
Fixpoint refusals (now : nat -> Z) (exp : Z) (secret : list byte) (t : nat)
  (candidates : list (list byte)) : list event :=
  match candidates with
  | [] => []
  | c :: rest =>
      [Prompt; EvReadString (typed c); EvNow (now t); EvBefore exp (now t);
       EvCompare (TrimSpace (typed c)) secret; Mismatched]
      ++ refusals now exp secret (S t) rest
  end.

(** What the command printed: the texts of the trace's prints, in order. *)
Fixpoint printed (tr : list event) : list string :=
  match tr with
  | [] => []
  | EvPrint text :: rest => text :: printed rest
  | _ :: rest => printed rest
  end.

(** *** Traces *)

(** In a trace, every comparison comes right after a test of the expiry
    instant [exp] that found the clock not past it. *)
Definition compare_guarded (exp : Z) (tr : list event) : Prop :=
  forall pre x y post,
    tr = pre ++ EvCompare x y :: post ->
    exists pre' now, pre = pre' ++ [EvBefore exp now] /\ now <= exp.

(** The event uses the expiry instant [exp], if it uses one at all. *)
Definition expiry_is (exp : Z) (e : event) : Prop :=
  match e with
  | EvBefore x _ => x = exp
  | EvPrintExpiry x => x = exp
  | _ => True
  end.

(** The events that come before the session: the key lookup with what it
    prints, the read of the random source and the calls of the provider. *)
Definition setup_event (e : event) : Prop :=
  match e with
  | EvGetKey _ | EvPrint _ | EvRandRead _ | EvPGPNew | EvPGPEncrypt _
  | EvPGPArmor => True
  | _ => False
  end.

(** *** White space *)

(** The code points with the White_Space property. *)
Definition space_runes : list Z :=
  [0x09; 0x0A; 0x0B; 0x0C; 0x0D; 0x20; 0x85; 0xA0; 0x1680;
   0x2000; 0x2001; 0x2002; 0x2003; 0x2004; 0x2005; 0x2006; 0x2007; 0x2008;
   0x2009; 0x200A; 0x2028; 0x2029; 0x202F; 0x205F; 0x3000].

(** [utf8.AppendRune] for the code points below U+10000. *)
Definition EncodeRune (r : Z) : list byte :=
  if r <? 0x80 then [byte_of_Z r]
  else if r <? 0x800 then
    [byte_of_Z (Z.lor 0xC0 (Z.shiftr r 6));
     byte_of_Z (Z.lor 0x80 (Z.land r 0x3F))]
  else
    [byte_of_Z (Z.lor 0xE0 (Z.shiftr r 12));
     byte_of_Z (Z.lor 0x80 (Z.land (Z.shiftr r 6) 0x3F));
     byte_of_Z (Z.lor 0x80 (Z.land r 0x3F))].

(** The UTF-8 text of a sequence of white-space code points. *)
Definition white_space (s : list byte) : Prop :=
  exists rs : list Z,
    Forall (fun r => IsSpace r = true) rs /\ s = List.concat (map EncodeRune rs).

(** ** A concrete world

    Worlds to run the command in: a repository that finds a key for the
    fingerprint it is given and reads nothing from standard input, a provider
    whose message is the plaintext itself, a temporary file that can be
    created and written, and a standard input that ends with [io.EOF]. *)
Module Demo.

Definition io_EOF : error := External "EOF".

Definition provider_failure : error := External "provider failure".

(** The fingerprint passed as the key-id argument, so that [getKey] looks the
    key up without prompting. *)
Definition key_id : string := "5f2a9c0de1b34a7788c6d0e4a1b2c3d4e5f60718".

(** The world whose provider fails at the given stage: 1 for the encryption
    handle, 2 for the encryption, 3 for the armor; any other number for a
    provider that succeeds. *)
Definition world_failing (stage : nat) (bytes : nat -> byte) (now : nat -> Z)
  : World unit unit (list byte) :=
  {| rand_bytes := bytes;
     rand_err := None;
     key_lookup := fun _ input => (inl tt, input);
     key_prints := fun _ _ => [];
     pgp_New := fun _ =>
       if (stage =? 1)%nat then inr provider_failure else inl tt;
     pgp_Encrypt := fun _ plaintext =>
       if (stage =? 2)%nat then inr provider_failure else inl plaintext;
     pgp_Armor := fun message =>
       if (stage =? 3)%nat then inr provider_failure
       else inl (string_of_list_ascii message);
     pgp_Bytes := fun message => message;
     clock := now;
     create_temp := inl "/tmp/pgp-mfa-challenge-1"%string;
     write_err := None;
     stdout_err := None;
     stdin_err := io_EOF |}.

Definition world : (nat -> byte) -> (nat -> Z) -> World unit unit (list byte) :=
  world_failing 0.


(** The start of a run: the given bytes on standard input, the clock never
    read, nothing done yet. *)
Definition start (input : string) : State :=
  mkState (bytes_of_string input) 0 [].

(** Standard input as typed lines: each one followed by a line feed. *)
Fixpoint lines (ls : list string) : string :=
  match ls with
  | [] => EmptyString
  | l :: ls' => (l ++ newline ++ lines ls')%string
  end.

(** The random bytes of the scenarios: all 90, for which the alphabet gives
    its first character. *)
Definition bytes : nat -> byte := fun _ => "Z"%char.

(** A clock that stands at one second when the session opens, and at the
    given instant from then on. *)
Definition clock_then (later : Z) : nat -> Z :=
  fun n => match n with O => Second | S _ => later end.

(** What the user sees of a run: how it ended and what was printed. *)
Definition outcome_of (run : outcome unit * State)
  : outcome unit * list string :=
  (fst run, printed (trace (snd run))).

Definition prologue : string :=
  ("solve with: gpg -dq --batch < /tmp/pgp-mfa-challenge-1" ++ newline)%string.

End Demo.

(** ** Vocabulary of further properties of [challenge] *)

(** Every value of a byte, from 0 to 255. *)
Definition all_bytes : list byte :=
  map (fun n => byte_of_Z (Z.of_nat n)) (seq 0 256).

(** The character that the loop of [generateChallenge] puts in the place of
    a random byte. *)
Definition substituted (b : byte) : option byte :=
  match fst (substitute [b] (mkState [] 0 [])) with
  | Ok [c] => Some c
  | _ => None
  end.

(** The random bytes that become the character [c]. *)
Definition preimages (c : byte) : list byte :=
  filter
    (fun b =>
       match substituted b with
       | Some c' => Ascii.eqb c' c
       | None => false
       end)
    all_bytes.

(** The events on the temporary file. *)
Definition file_event (e : event) : Prop :=
  match e with
  | EvCreateTemp | EvRemove _ | EvClose _ => True
  | _ => False
  end.


(** The secret that [generateChallenge] makes of the random bytes of [w]. *)
Definition secret_of {Key PGPContext PGPMessage : Type}
  (w : World Key PGPContext PGPMessage) (length : Z) : list byte :=
  map (fun i => charset_at (Z.to_nat (byte_to_Z (rand_bytes w i) mod 90)))
    (seq 0 (Z.to_nat length)).

(** The key-id argument of [challenge], empty when there is none. *)
Definition key_id_of (more : list string) : string :=
  match more with
  | [] => EmptyString
  | arg1 :: _ => arg1
  end.

(** The hint that follows a successful write of the armored text. *)
Definition hint (name : string) : event :=
  EvPrint (("solve with: gpg -dq --batch < " ++ name) ++ newline).

(** The read of the random source and the calls of the provider. *)
Definition provider_event (e : event) : Prop :=
  match e with
  | EvRandRead _ | EvPGPNew | EvPGPEncrypt _ | EvPGPArmor => True
  | _ => False
  end.

(** What the key lookup leaves in the trace: the call, then what it
    prints. *)
Definition looked_up {Key PGPContext PGPMessage : Type}
  (w : World Key PGPContext PGPMessage) (fp : string) (input : list byte)
  : list event :=
  EvGetKey fp :: map EvPrint (key_prints w fp input).

(** What the write of [data] and the hint leave in the trace: the write to
    the file; if it succeeds, the write to standard output; if that succeeds
    too, the hint. *)
Definition written {Key PGPContext PGPMessage : Type}
  (w : World Key PGPContext PGPMessage) (data name : string) : list event :=
  EvWrite data
  :: match write_err w with
     | Some _ => []
     | None =>
         EvStdout data
         :: match stdout_err w with
            | Some _ => []
            | None => [hint name]
            end
     end.

(** The events of one pass through the loop that tests the expiry instant
    [exp]: the prompt and the read; when a line was read, the reading [now]
    of the clock and the test of that reading against [exp]; when the test
    found the clock not past [exp], the comparison and one of the two
    answers. *)
Definition pass_of (exp : Z) (events : list event) : Prop :=
  (exists input, events = [Prompt; EvReadString input])
  \/ (exists line now,
        exp < now
        /\ events = [Prompt; EvReadString line; EvNow now; EvBefore exp now])
  \/ (exists line now x y answer,
        now <= exp
        /\ (answer = Matched \/ answer = Mismatched)
        /\ events
           = [Prompt; EvReadString line; EvNow now; EvBefore exp now;
              EvCompare x y; answer]).

(** The events of a pass through the loop. *)
Definition loop_event (e : event) : Prop :=
  match e with
  | EvPrint text =>
      text = "enter your solution: "%string
      \/ text = ("challenge solved!" ++ newline)%string
      \/ text = ("incorrect!" ++ newline)%string
  | EvReadString _ | EvNow _ | EvBefore _ _ | EvCompare _ _ => True
  | _ => False
  end.

(** * The rest of [main.go]: the key repository and the entry point

    [importKey], [getKey], [help], [init] and [main].  They add to the world
    of [challenge] the table [keys] of the database, the lines that package
    [log] writes to the standard error, and the way a process ends when
    [os.Exit] is called.  Instants are counted from the Unix epoch. *)

Module Repository.

(** ** The table [keys]

    [CREATE TABLE IF NOT EXISTS keys (fingerprint VARCHAR(40) NOT NULL
    PRIMARY KEY, pub_key BLOB NOT NULL, created_at TIMESTAMP ...)]. *)
Record row : Type := mkRow {
  fingerprint : string;
  pub_key : list byte;
  created_at : Z
}.

Definition Table : Type := list row.

Definition sql_ErrUnique : error :=
  External "UNIQUE constraint failed: keys.fingerprint".

(** What [Rows.Scan] reports when [Rows.Next] found no row. *)
Definition sql_errRowsClosed : error := External "sql: Rows are closed".

Definition has_fingerprint (fp : string) (r : row) : bool :=
  String.eqb (fingerprint r) fp.

(** [INSERT INTO keys (fingerprint, pub_key, created_at) VALUES (?, ?, ?)]:
    the primary key admits one row per fingerprint. *)
Definition sql_insert (r : row) (t : Table) : Table + error :=
  if existsb (has_fingerprint (fingerprint r)) t then inr sql_ErrUnique
  else inl (t ++ [r]).

(** [SELECT pub_key FROM keys WHERE fingerprint = ?]. *)
Definition sql_select_pub_key (fp : string) (t : Table) : list (list byte) :=
  map pub_key (filter (has_fingerprint fp) t).

(** [ORDER BY created_at DESC], by insertion, on the instants at which the
    rows were inserted.  The driver stores a [time.Time] as the text of the
    local time with its offset from UTC, and SQLite orders that text; the two
    orders are the same while the offset of the local time zone does not
    change, which is what is modelled.  The properties below do not depend
    on it: they hold of the rows of the query in whatever order they come.
    The order of rows of equal [created_at] is left open by SQL. *)
Fixpoint insert_desc (r : row) (sorted : list row) : list row :=
  match sorted with
  | [] => [r]
  | r' :: rest =>
      if created_at r' <? created_at r then r :: sorted
      else r' :: insert_desc r rest
  end.

Fixpoint order_by_created_at_desc (t : Table) : list row :=
  match t with
  | [] => []
  | r :: rest => insert_desc r (order_by_created_at_desc rest)
  end.

(** [SELECT fingerprint, pub_key FROM keys ORDER BY created_at DESC]. *)
Definition sql_select_all (t : Table) : list (string * list byte) :=
  map (fun r => (fingerprint r, pub_key r)) (order_by_created_at_desc t).

(** ** Errors of [main.go] about keys *)

Definition ErrKeyPriv : error :=
  errors_New "key is private, only public keys are accepted".
Definition ErrKeyExp : error := errors_New "key has expired, cannot import".
Definition ErrFailedRead : error := errors_New "failed to read key".
Definition ErrPubKeyFail : error := errors_New "failed to get public key".
Definition ErrOpenFailed : error := errors_New "failed to open key file".
Definition ErrAlreadyImported : error := errors_New "key already imported".

(** ** The process *)

(** What a command works on: the console of [challenge] (standard input, the
    clock, the trace), the table, the lines logged with the instant of each,
    and whether the database handle has been closed. *)
Record Process : Type := mkProcess {
  io : State;
  keys : Table;
  logged : list (Z * string);
  db_closed : bool
}.

(** How a command ends: it comes to its end as a function does, or the
    process exits at once with a status, deferred calls left undone. *)
Inductive ending (A : Type) : Type :=
| Returned (o : outcome A)
| Exited (code : Z).

Arguments Returned {A} o.
Arguments Exited {A} code.

Definition P (A : Type) : Type := Process -> ending A * Process.

Definition retP {A : Type} (a : A) : P A := fun p => (Returned (Ok a), p).

Definition bindP {A B : Type} (m : P A) (k : A -> P B) : P B :=
  fun p =>
    match m p with
    | (Returned (Ok a), p') => k a p'
    | (Returned (Err e), p') => (Returned (Err e), p')
    | (Returned (Panic msg), p') => (Returned (Panic msg), p')
    | (Returned OutOfFuel, p') => (Returned OutOfFuel, p')
    | (Exited code, p') => (Exited code, p')
    end.

(** [return err]. *)
Definition failP {A : Type} (e : error) : P A :=
  fun p => (Returned (Err e), p).

(** [os.Exit(code)]. *)
Definition os_Exit {A : Type} (code : Z) : P A := fun p => (Exited code, p).

Definition set_io (s : State) (p : Process) : Process :=
  mkProcess s (keys p) (logged p) (db_closed p).

Definition set_keys (t : Table) (p : Process) : Process :=
  mkProcess (io p) t (logged p) (db_closed p).

Definition add_log (t : Z) (line : string) (p : Process) : Process :=
  mkProcess (io p) (keys p) (logged p ++ [(t, line)]) (db_closed p).

(** What is left on standard input becomes [rest]. *)
Definition set_stdin (rest : list byte) (p : Process) : Process :=
  set_io (mkState rest (ticks (io p)) (trace (io p))) p.

(** A computation on the console alone. *)
Definition liftM {A : Type} (m : M A) : P A :=
  fun p =>
    let (o, s') := m (io p) in
    (Returned o, set_io s' p).

Declare Scope proc_scope.
Delimit Scope proc_scope with proc.
Notation "x <- m ;; k" := (bindP m (fun x => k))
  (at level 61, m at next level, right associativity) : proc_scope.
Notation "m ;; k" := (bindP m (fun _ => k))
  (at level 61, right associativity) : proc_scope.

(** [defer cleanup] in a function that may exit: [cleanup] runs when the
    function returns or panics, not when the process exits. *)
Definition deferP {A : Type} (cleanup : Process -> Process) (body : P A)
  : P A :=
  fun p =>
    match body p with
    | (Returned o, p') => (Returned o, cleanup p')
    | (Exited code, p') => (Exited code, p')
    end.

(** [db.Close()]. *)
Definition db_Close (p : Process) : Process :=
  mkProcess (io p) (keys p) (logged p) true.

(** Package [log] ends a line that does not end with a line feed with
    one. *)
Fixpoint ends_with_LF (s : string) : bool :=
  match s with
  | EmptyString => false
  | String c EmptyString => Ascii.eqb c "010"
  | String _ rest => ends_with_LF rest
  end.

Definition log_line (text : string) : string :=
  if ends_with_LF text then text else (text ++ newline)%string.

(** ** ASCII letters *)

Definition is_upper (c : byte) : bool :=
  (65 <=? byte_to_Z c) && (byte_to_Z c <=? 90).

(** [c += 'a' - 'A'] on an upper-case letter. *)
Definition lower_byte (c : byte) : byte :=
  if is_upper c then byte_of_Z (byte_to_Z c + 32) else c.

Fixpoint all_ascii (s : string) : bool :=
  match s with
  | EmptyString => true
  | String c rest => (byte_to_Z c <? RuneSelf) && all_ascii rest
  end.

Fixpoint map_bytes (f : byte -> byte) (s : string) : string :=
  match s with
  | EmptyString => EmptyString
  | String c rest => String (f c) (map_bytes f rest)
  end.

(** [time.Time.Unix]: the seconds since the epoch, rounded down. *)
Definition Unix (t : Z) : Z := t / Second.

(** [strconv.Itoa] on a count, as ["%d"] prints it. *)
Definition Itoa (n : nat) : string := NilZero.string_of_uint (Nat.to_uint n).

Section Commands.

Variables Key PGPContext PGPMessage : Type.

(** The collaborators of [importKey] and [getKey]: gopenpgp's keys, the file
    system, [fmt.Scanf] and the failures of the database. *)
Record Keyring : Type := mkKeyring {
  (** [crypto.NewKeyFromReader] on the bytes a reader holds: the key or the
      error, and the bytes it leaves unread. *)
  NewKeyFromReader : list byte -> (Key + error) * list byte;
  GetPublicKey : Key -> list byte + error;
  IsPrivate : Key -> bool;
  (** [key.IsExpired(unixTime)]. *)
  IsExpired : Key -> Z -> bool;
  GetFingerprint : Key -> string;
  (** [os.Open]: the content of the file, or the error. *)
  os_Open : string -> list byte + error;
  (** [fmt.Scanf] with the format ["%d"] on standard input: the number or
      the error, and what is left of the input. *)
  Scanf_d : list byte -> (Z + error) * list byte;
  (** [strings.Map(unicode.ToLower, s)], for a string that is not ASCII. *)
  unicode_ToLower : string -> string;
  (** The failure, if any, of [sql.Open], of the [CREATE TABLE] statement,
      of a [db.Query] and of the [INSERT] statement before it reaches the
      table. *)
  open_err : option error;
  create_table_err : option error;
  query_err : option error;
  insert_err : option error
}.

Variable w : World Key PGPContext PGPMessage.
Variable kr : Keyring.

Local Open Scope proc_scope.

(** ** Logging *)

(** [log.Print] and the like with the standard flags: the clock is read for
    the time of the line. *)
Definition log_Print (text : string) : P unit :=
  t <- liftM (time_Now w) ;;
  fun p => (Returned (Ok tt), add_log t (log_line text) p).

(** [log.Fatalf]: the line is logged, then [os.Exit(1)]. *)
Definition log_Fatal {A : Type} (text : string) : P A :=
  log_Print text ;; os_Exit 1.

(** ** [openKey] and [importKey] *)

Inductive File : Type :=
| Stdin
| Opened (content : list byte).

Definition openKey (keyFile : string) : File + error :=
  if String.eqb keyFile "-" then inl Stdin
  else
    match os_Open kr keyFile with
    | inl content => inl (Opened content)
    | inr err => inr err
    end.

(** [crypto.NewKeyFromReader(keyFile)]: from standard input, which it
    consumes, or from the opened file. *)
Definition read_key (keyFile : File) : P (Key + error) :=
  fun p =>
    match keyFile with
    | Stdin =>
        let (parsed, rest) := NewKeyFromReader kr (stdin (io p)) in
        (Returned (Ok parsed), set_stdin rest p)
    | Opened content =>
        (Returned (Ok (fst (NewKeyFromReader kr content))), p)
    end.

(** [db.Exec] of the [INSERT] statement. *)
Definition db_Exec_insert (r : row) : P (option error) :=
  fun p =>
    match insert_err kr with
    | Some err => (Returned (Ok (Some err)), p)
    | None =>
        match sql_insert r (keys p) with
        | inr err => (Returned (Ok (Some err)), p)
        | inl t' => (Returned (Ok None), set_keys t' p)
        end
    end.

Definition importKey (args : list string) : P unit :=
  match args with
  | [arg0] =>
      match openKey arg0 with
      | inr _ => failP ErrOpenFailed
      | inl keyFile =>
          parsed <- read_key keyFile ;;
          match parsed with
          | inr _ => failP ErrFailedRead
          | inl key =>
              match GetPublicKey kr key with
              | inr _ => failP ErrPubKeyFail
              | inl bytes =>
                  if IsPrivate kr key then failP ErrKeyPriv
                  else
                    now <- liftM (time_Now w) ;;
                    if IsExpired kr key (Unix now) then failP ErrKeyExp
                    else
                      log_Print
                        ("importing key: " ++ GetFingerprint kr key
                         ++ newline) ;;
                      created <- liftM (time_Now w) ;;
                      res <- db_Exec_insert
                               (mkRow (GetFingerprint kr key) bytes created) ;;
                      match res with
                      | Some err =>
                          failP (fmt_Errorf "key import error: " err)
                      | None =>
                          log_Print "key imported successfully!" ;;
                          retP tt
                      end
              end
          end
      end
  | _ =>
      liftM (Println "usage: pgp-mfa import <key-file>") ;;
      os_Exit 1
  end.

(** ** [getKey] *)

(** [strings.ToLower]. *)
Definition ToLower (s : string) : string :=
  if all_ascii s then map_bytes lower_byte s else unicode_ToLower kr s.

(** The loop over the rows of the interactive mode: each key is parsed and
    its line printed. *)
Fixpoint list_keys (i : nat) (found : list Key)
  (rows : list (string * list byte)) : P (list Key) :=
  match rows with
  | [] => retP found
  | (fp, pubKey) :: rest =>
      match fst (NewKeyFromReader kr pubKey) with
      | inr err => failP (fmt_Errorf "failed to parse key: " err)
      | inl key =>
          liftM (Print ("[" ++ Itoa i ++ "]: " ++ fp ++ newline)) ;;
          list_keys (S i) (found ++ [key]) rest
      end
  end.

(** [fmt.Scanf("%d", &choice)]. *)
Definition Scanf_choice : P (Z + error) :=
  fun p =>
    let (scanned, rest) := Scanf_d kr (stdin (io p)) in
    (Returned (Ok scanned), set_stdin rest p).

Definition getKey (fingerprint : string) : P Key :=
  if (0 <? String.length fingerprint)%nat then
    match query_err kr with
    | Some err => failP (fmt_Errorf "failed to query key: " err)
    | None =>
        fun p =>
          match sql_select_pub_key (ToLower fingerprint) (keys p) with
          | [] =>
              (Returned
                 (Err (fmt_Errorf "failed to scan row: " sql_errRowsClosed)),
               p)
          | pubKey :: _ =>
              match fst (NewKeyFromReader kr pubKey) with
              | inl key => (Returned (Ok key), p)
              | inr err => (Returned (Err err), p)
              end
          end
    end
  else
    match query_err kr with
    | Some err => failP (fmt_Errorf "failed to query keys: " err)
    | None =>
        rows <- (fun p => (Returned (Ok (sql_select_all (keys p))), p)) ;;
        found <- list_keys 0 [] rows ;;
        liftM (Print "select a key: ") ;;
        scanned <- Scanf_choice ;;
        match scanned with
        | inr err => failP (fmt_Errorf "failed to read choice: " err)
        | inl choice =>
            if (choice <? 0) || (Z.of_nat (List.length found) <=? choice) then
              failP (errors_New "invalid choice")
            else
              match nth_error found (Z.to_nat choice) with
              | Some key => retP key
              | None => fun p => (Returned (Panic "index out of range"), p)
              end
        end
    end.

(** ** [help], [init] and [main] *)

Definition tab : string := String "009"%char EmptyString.

Definition help (args : list string) : P unit :=
  liftM
    (Println "usage: pgp-mfa <command> [args...]" ;;
     Println "commands:" ;;
     Println
       (tab ++ "import <key-file> # armored / binary format accepted, "
        ++ "- for stdin") ;;
     Println
       (tab ++ "challenge [key-id]    # if no key-id is provided, "
        ++ "you'll be prompted to select one"))%go.

(** ** [challenge] on the repository *)

(** [getKey] on the table [t] and the standard input [input], as a call of
    its own. *)
Definition lookup (t : Table) (fingerprint : string) (input : list byte)
  : ending Key * Process :=
  getKey fingerprint (mkProcess (mkState input 0 []) t [] false).

(** The world whose key lookup is [getKey] on the table [t]: the key or the
    error that it returns, what it leaves of standard input, and what it
    prints.  [getKey] always returns ([getKey_returns] below), so the last
    case of the result does not arise. *)
Definition with_repository (t : Table) : World Key PGPContext PGPMessage :=
  {| rand_bytes := rand_bytes w;
     rand_err := rand_err w;
     key_lookup := fun fingerprint input =>
       (match fst (lookup t fingerprint input) with
        | Returned (Ok key) => inl key
        | Returned (Err err) => inr err
        | _ => inr (errors_New "getKey did not return")
        end,
        stdin (io (snd (lookup t fingerprint input))));
     key_prints := fun fingerprint input =>
       printed (trace (io (snd (lookup t fingerprint input))));
     pgp_New := pgp_New w;
     pgp_Encrypt := pgp_Encrypt w;
     pgp_Armor := pgp_Armor w;
     pgp_Bytes := pgp_Bytes w;
     clock := clock w;
     create_temp := create_temp w;
     write_err := write_err w;
     stdout_err := stdout_err w;
     stdin_err := stdin_err w |}.

(** [challenge] as a command: its [getKey] works on the table of the
    process. *)
Definition challenge_command (args : list string) : P unit :=
  fun p => liftM (challenge (with_repository (keys p)) args) p.

(** The map [commands]. *)
Definition commands (cmd : string) : option (list string -> P unit) :=
  if String.eqb cmd "help" then Some help
  else if String.eqb cmd "import" then Some importKey
  else if String.eqb cmd "challenge" then Some challenge_command
  else None.

(** [init]: the database is opened and the table created if it is not
    there, which leaves an existing table as it is. *)
Definition init : P unit :=
  match open_err kr with
  | Some err =>
      log_Fatal ("failed to open database pgp-mfa.db: " ++ Error err)
  | None =>
      match create_table_err kr with
      | Some err => log_Fatal ("failed to create table: " ++ Error err)
      | None => retP tt
      end
  end.

Definition main (os_Args : list string) : P unit :=
  deferP db_Close
    match os_Args with
    | _ :: cmd :: args =>
        match commands cmd with
        | None =>
            liftM (Print ("unknown command '" ++ cmd ++ "'" ++ newline)) ;;
            help [] ;;
            os_Exit 1
        | Some fn =>
            fun p =>
              match fn args p with
              | (Returned (Err err), p') =>
                  log_Fatal ("error: " ++ Error err) p'
              | ended => ended
              end
        end
    | _ =>
        liftM
          (Println
             ("usage: pgp-mfa <command> [args...], "
              ++ "use 'pgp-mfa help' for more info")) ;;
        os_Exit 1
    end.

(** The program: [init] runs before [main]. *)
Definition program (os_Args : list string) : P unit :=
  init ;; main os_Args.

End Commands.

(** ** Vocabulary of the properties of the repository *)

(** The key that [importKey] reads from a file it opened, and what is left
    of standard input when the file is standard input. *)
Definition parsed_from {Key : Type} (kr : Keyring Key) (keyFile : File)
  (p : Process) : Key + error :=
  match keyFile with
  | Stdin => fst (NewKeyFromReader Key kr (stdin (io p)))
  | Opened content => fst (NewKeyFromReader Key kr content)
  end.

Definition input_after {Key : Type} (kr : Keyring Key) (keyFile : File)
  (p : Process) : list byte :=
  match keyFile with
  | Stdin => snd (NewKeyFromReader Key kr (stdin (io p)))
  | Opened _ => stdin (io p)
  end.

(** The process after [k] more readings of the clock. *)
Definition read_clock {Key PGPContext PGPMessage : Type}
  (w : World Key PGPContext PGPMessage) (k : nat) (p : Process) : Process :=
  set_io
    (mkState (stdin (io p)) (k + ticks (io p))
       (trace (io p)
        ++ map (fun i => EvNow (clock w (i + ticks (io p)))) (seq 0 k)))
    p.

(** The fingerprints of a table. *)
Definition fingerprints (t : Table) : list string := map fingerprint t.

(** The lines that the interactive mode prints for the rows, numbered from
    [i]. *)
Fixpoint listing (i : nat) (rows : list (string * list byte)) : list event :=
  match rows with
  | [] => []
  | (fp, _) :: rest =>
      EvPrint ("[" ++ Itoa i ++ "]: " ++ fp ++ newline) :: listing (S i) rest
  end.

(** The process after more events on its console. *)
Definition traced (events : list event) (p : Process) : Process :=
  set_io (mkState (stdin (io p)) (ticks (io p)) (trace (io p) ++ events)) p.

(** The stored keys of the rows all parse, into the keys [ks]. *)
Definition parse_as {Key : Type} (kr : Keyring Key)
  (rows : list (string * list byte)) (ks : list Key) : Prop :=
  map (fun r => fst (NewKeyFromReader Key kr (snd r))) rows = map inl ks.

(** What a run of the command [challenge] may show, on the terminal or in
    the temporary file: the lines and the prompt of the key selection over
    the table [t]; the armored text that the provider returned, followed by
    a line feed; the hint with the name of the temporary file; the expiry
    instant, which is the instant [opened] plus the solve window; the prompt
    of the loop and its two answers.  The other events show nothing. *)
Definition shown {Key PGPContext PGPMessage : Type}
  (w : World Key PGPContext PGPMessage) (t : Table) (opened : Z) (e : event)
  : Prop :=
  match e with
  | EvPrint text =>
      In (EvPrint text) (listing 0 (sql_select_all t))
      \/ text = "select a key: "%string
      \/ (exists name, create_temp w = inl name /\ EvPrint text = hint name)
      \/ EvPrint text = Prompt
      \/ EvPrint text = Matched
      \/ EvPrint text = Mismatched
  | EvWrite data | EvStdout data =>
      exists message armored,
        pgp_Armor w message = inl armored
        /\ data = (armored ++ newline)%string
  | EvPrintExpiry exp => exp = opened + ChallengeSolveTime
  | EvGetKey _ | EvRandRead _ | EvPGPNew | EvPGPEncrypt _ | EvPGPArmor
  | EvNow _ | EvCreateTemp | EvReadString _ | EvBefore _ _ | EvCompare _ _
  | EvRemove _ | EvClose _ => True
  end.

(** The four lines of [help]. *)
Definition help_text : list event :=
  [EvPrint ("usage: pgp-mfa <command> [args...]" ++ newline);
   EvPrint ("commands:" ++ newline);
   EvPrint
     ((tab ++ "import <key-file> # armored / binary format accepted, "
       ++ "- for stdin") ++ newline);
   EvPrint
     ((tab ++ "challenge [key-id]    # if no key-id is provided, "
       ++ "you'll be prompted to select one") ++ newline)].

(** The process after [log.Fatalf] of an error [err] that a command
    returned: the clock is read once, the line is logged, nothing else
    changes. *)
Definition fatal_error {Key PGPContext PGPMessage : Type}
  (w : World Key PGPContext PGPMessage) (err : error) (p : Process)
  : Process :=
  add_log (clock w (ticks (io p))) (log_line ("error: " ++ Error err))
    (read_clock w 1 p).

Arguments NewKeyFromReader {Key} k _.
Arguments GetPublicKey {Key} k _.
Arguments IsPrivate {Key} k _.
Arguments IsExpired {Key} k _ _.
Arguments GetFingerprint {Key} k _.
Arguments os_Open {Key} k _.
Arguments Scanf_d {Key} k _.
Arguments unicode_ToLower {Key} k _.
Arguments open_err {Key} k.
Arguments create_table_err {Key} k.
Arguments query_err {Key} k.
Arguments insert_err {Key} k.
Arguments log_Print {Key PGPContext PGPMessage} w text _.
Arguments log_Fatal {Key PGPContext PGPMessage} w {A} text _.
Arguments openKey {Key} kr keyFile.
Arguments read_key {Key} kr keyFile _.
Arguments db_Exec_insert {Key} kr r _.
Arguments importKey {Key PGPContext PGPMessage} w kr args _.
Arguments ToLower {Key} kr s.
Arguments list_keys {Key} kr i found rows _.
Arguments Scanf_choice {Key} kr _.
Arguments getKey {Key} kr fingerprint _.
Arguments lookup {Key} kr t fingerprint input.
Arguments with_repository {Key PGPContext PGPMessage} w kr t.
Arguments challenge_command {Key PGPContext PGPMessage} w kr args _.
Arguments commands {Key PGPContext PGPMessage} w kr cmd.
Arguments init {Key PGPContext PGPMessage} w kr _.
Arguments main {Key PGPContext PGPMessage} w kr os_Args _.
Arguments program {Key PGPContext PGPMessage} w kr os_Args _.

End Repository.

(** ** A concrete key repository

    Keys for running the repository's commands: a key is the content of its
    file, a letter [P] or [S] for a public or a secret key, a letter [x] when
    it has expired at the year 2001 (Unix time 10^9), then its fingerprint. *)
Module DemoRepo.

Import Repository.

Definition kind (key : list byte) : byte := nth 0 key zero.

Definition keyring : Keyring (list byte) :=
  {| NewKeyFromReader := fun content =>
       if Ascii.eqb (kind content) "P" || Ascii.eqb (kind content) "S" then
         (inl content, [])
       else (inr (External "openpgp: invalid data"), []);
     GetPublicKey := fun key => inl ("P"%char :: tl key);
     IsPrivate := fun key => Ascii.eqb (kind key) "S";
     IsExpired := fun key unix =>
       Ascii.eqb (nth 1 key zero) "x" && (1000000000 <=? unix);
     GetFingerprint := fun key => string_of_list_ascii (skipn 2 key);
     os_Open := fun path =>
       if String.eqb path "alice.asc" then inl (bytes_of_string "P-a1b2c3")
       else if String.eqb path "bob.asc" then inl (bytes_of_string "P-0d0e0f")
       else if String.eqb path "secret.asc" then
         inl (bytes_of_string "S-00ff00")
       else if String.eqb path "old.asc" then inl (bytes_of_string "Pxdead00")
       else inr (External "open: no such file or directory");
     Scanf_d := fun input =>
       match input with
       | c :: rest =>
           if is_digit c then (inl (byte_to_Z c - 48), tl rest)
           else (inr (External "expected integer"), rest)
       | [] => (inr (External "unexpected EOF"), [])
       end;
     unicode_ToLower := fun s => s;
     open_err := None;
     create_table_err := None;
     query_err := None;
     insert_err := None |}.

(** The same keys when the table cannot be created. *)
Definition keyring_without_table : Keyring (list byte) :=
  {| NewKeyFromReader := NewKeyFromReader keyring;
     GetPublicKey := GetPublicKey keyring;
     IsPrivate := IsPrivate keyring;
     IsExpired := IsExpired keyring;
     GetFingerprint := GetFingerprint keyring;
     os_Open := os_Open keyring;
     Scanf_d := Scanf_d keyring;
     unicode_ToLower := unicode_ToLower keyring;
     open_err := None;
     create_table_err := Some (External "attempt to write a readonly database");
     query_err := None;
     insert_err := None |}.

(** The world of the commands: only its clock matters to the repository. *)
Definition world (now : nat -> Z) : World (list byte) unit (list byte) :=
  {| rand_bytes := Demo.bytes;
     rand_err := None;
     key_lookup := fun _ input => (inl (bytes_of_string "P-a1b2c3"), input);
     key_prints := fun _ _ => [];
     pgp_New := fun _ => inl tt;
     pgp_Encrypt := fun _ plaintext => inl plaintext;
     pgp_Armor := fun message => inl (string_of_list_ascii message);
     pgp_Bytes := fun message => message;
     clock := now;
     create_temp := inl "/tmp/pgp-mfa-challenge-1"%string;
     write_err := None;
     stdout_err := None;
     stdin_err := Demo.io_EOF |}.

(** The year 2024, in nanoseconds, and a clock that advances by a second at
    each reading. *)
Definition year_2024 : Z := 1700000000 * Second.

Definition ticking : nat -> Z := fun n => year_2024 + Z.of_nat n * Second.

(** A process at its start: the given input and table, nothing logged. *)
Definition start (input : string) (t : Table) : Process :=
  mkProcess (Demo.start input) t [] false.

End DemoRepo.

(** * The benchmarks

    The benchmark file of package [main]: its package variables, the part of
    its [init] that prepares the plaintexts, and
    [benchmarkChallengeEncryption]. *)
Module Benchmarks.

(** A slice: the number of its backing array and its length.  Slices made
    from one another share the array. *)
Record slice : Type := mkSlice { array : nat; len : nat }.

(** The backing arrays, by number. *)
Definition Heap : Type := list (list byte).

Definition backing (h : Heap) (a : nat) : list byte := nth a h [].

(** The elements a slice shows. *)
Definition contents (h : Heap) (s : slice) : list byte :=
  firstn (len s) (backing h (array s)).

Fixpoint store (a : nat) (data : list byte) (h : Heap) : Heap :=
  match h, a with
  | [], _ => []
  | _ :: rest, O => data :: rest
  | x :: rest, S a' => x :: store a' data rest
  end.

(** [copy(dst, src)] copies as many elements as the shorter of the two
    holds, and returns their number. *)
Definition copy (dst : slice) (src : list byte) (h : Heap) : nat * Heap :=
  let n := Nat.min (len dst) (List.length src) in
  (n, store (array dst) (firstn n src ++ skipn n (backing h (array dst))) h).

(** [make([]byte, n)] on a new array. *)
Definition make (n : nat) (h : Heap) : slice * Heap :=
  (mkSlice (List.length h) n, h ++ [repeat zero n]).

(** The package variables [challenge16 = []byte{}] and the like: six slices
    of length zero, each on an array of its own. *)
Definition challenge16 : slice := mkSlice 0 0.
Definition challenge32 : slice := mkSlice 1 0.
Definition challenge64 : slice := mkSlice 2 0.
Definition challenge128 : slice := mkSlice 3 0.
Definition challenge256 : slice := mkSlice 4 0.
Definition challenge512 : slice := mkSlice 5 0.

Definition package_heap : Heap := repeat [] 6.

(** [chalMap[length]]: the slice of the key, or the nil slice. *)
Definition chalMap (length : Z) : option slice :=
  if length =? 16 then Some challenge16
  else if length =? 32 then Some challenge32
  else if length =? 64 then Some challenge64
  else if length =? 128 then Some challenge128
  else if length =? 256 then Some challenge256
  else if length =? 512 then Some challenge512
  else None.

Definition lookup (h : Heap) (length : Z) : list byte :=
  match chalMap length with
  | Some s => contents h s
  | None => []
  end.

(** [bytesPool[i] = byte(i)] for [i] below 512. *)
Definition bytesPool : list byte :=
  map (fun i => byte_of_Z (Z.of_nat i)) (seq 0 512).

(** The six calls of [copy] in [init]. *)
Definition prepare_challenges (h : Heap) : Heap :=
  let h := snd (copy challenge16 bytesPool h) in
  let h := snd (copy challenge32 bytesPool h) in
  let h := snd (copy challenge64 bytesPool h) in
  let h := snd (copy challenge128 bytesPool h) in
  let h := snd (copy challenge256 bytesPool h) in
  snd (copy challenge512 bytesPool h).

Section Bench.

Context {Key PGPContext PGPMessage : Type}.
Variable w : World Key PGPContext PGPMessage.

Local Open Scope go_scope.

(** One iteration: [b.Fail()] when [encryptChallenge] returns an error. *)
Definition iteration (key : Key) (byteRef : list byte) : M bool :=
  fun s =>
    match encryptChallenge w key byteRef s with
    | (Ok _, s') => (Ok false, s')
    | (Err _, s') => (Ok true, s')
    | (Panic msg, s') => (Panic msg, s')
    | (OutOfFuel, s') => (OutOfFuel, s')
    end.

(** [for i := 0; i < b.N; i++], with the mark of failure. *)
Fixpoint iterate (n : nat) (body : M bool) (failed : bool) : M bool :=
  match n with
  | O => ret failed
  | S n' => f <- body ;; iterate n' body (failed || f)
  end.

(** [benchmarkChallengeEncryption(b, length, key)] after [init]: whether
    the benchmark is marked as failed. *)
Definition benchmarkChallengeEncryption (N : Z) (length : Z) (key : Key)
  : M bool :=
  let byteRef := lookup (prepare_challenges package_heap) length in
  iterate (Z.to_nat N) (iteration key byteRef) false.

End Bench.

(** The event is not the encryption of a plaintext that holds a byte. *)
Definition encrypts_nothing (e : event) : Prop :=
  match e with
  | EvPGPEncrypt plaintext => plaintext = []
  | _ => True
  end.

End Benchmarks.

(** * Properties *)

(** ** Bytes *)

Lemma byte_to_Z_range (b : byte) : 0 <= byte_to_Z b < 256.
Proof.
  unfold byte_to_Z. pose proof (N_ascii_bounded b) as H. lia.
Qed.

Lemma byte_of_to_Z (b : byte) : byte_of_Z (byte_to_Z b) = b.
Proof.
  unfold byte_of_Z. pose proof (byte_to_Z_range b) as H.
  rewrite Z.mod_small by lia. unfold byte_to_Z.
  rewrite N2Z.id. apply ascii_N_embedding.
Qed.

Lemma byte_to_of_Z (n : Z) : byte_to_Z (byte_of_Z n) = n mod 256.
Proof.
  unfold byte_to_Z, byte_of_Z.
  pose proof (Z.mod_pos_bound n 256 ltac:(lia)) as H.
  rewrite N_ascii_embedding by lia. lia.
Qed.

Lemma byte_to_Z_inj (a b : byte) : byte_to_Z a = byte_to_Z b -> a = b.
Proof.
  intro H. rewrite <- (byte_of_to_Z a), <- (byte_of_to_Z b). now rewrite H.
Qed.

Lemma byte_to_Z_zero : byte_to_Z zero = 0.
Proof. reflexivity. Qed.

(** ** The alphabet and [generateChallenge] *)

Lemma charset_length : String.length challengeCharset = 90%nat.
Proof. reflexivity. Qed.

Lemma charset_bytes_length :
  List.length (bytes_of_string challengeCharset) = 90%nat.
Proof. reflexivity. Qed.

Lemma string_get_nth (s : string) (n : nat) :
  (n < String.length s)%nat ->
  String.get n s = Some (nth n (bytes_of_string s) zero).
Proof.
  revert n. induction s as [|c s IH]; intros n Hn; simpl in *.
  - lia.
  - destruct n as [|n]; [reflexivity|]. apply IH. lia.
Qed.

Lemma string_index_charset (i : Z) (s : State) :
  0 <= i < 90 ->
  string_index challengeCharset i s = (Ok (charset_at (Z.to_nat i)), s).
Proof.
  intros Hi. unfold string_index. rewrite charset_length.
  replace (i <? 0) with false by (symmetry; apply Z.ltb_ge; lia).
  replace (Z.of_nat 90 <=? i) with false by (symmetry; apply Z.leb_gt; lia).
  simpl orb. cbv iota.
  rewrite string_get_nth by (rewrite charset_length; lia).
  reflexivity.
Qed.

Lemma byte_rem_charset (b : byte) (s : State) :
  byte_rem b (byte_of_Z (Z.of_nat (String.length challengeCharset))) s
  = (Ok (byte_of_Z (byte_to_Z b mod 90)), s).
Proof.
  unfold byte_rem. rewrite charset_length, byte_to_of_Z.
  change (Z.of_nat 90 mod 256) with 90. simpl.
  rewrite Z.rem_mod_nonneg by (pose proof (byte_to_Z_range b); lia).
  reflexivity.
Qed.

(** The loop of [generateChallenge] never panics: it replaces every byte by
    the character of the alphabet at the byte's remainder modulo 90. *)
Lemma substitute_map (buffer : list byte) (s : State) :
  substitute buffer s
  = (Ok (map (fun b => charset_at (Z.to_nat (byte_to_Z b mod 90))) buffer), s).
Proof.
  induction buffer as [|b rest IH]; [reflexivity|].
  cbn [substitute]. unfold bind at 1. rewrite byte_rem_charset.
  assert (Hb : 0 <= byte_to_Z b mod 90 < 90) by (apply Z.mod_pos_bound; lia).
  unfold bind at 1. rewrite byte_to_of_Z, (Z.mod_small _ 256) by lia.
  rewrite string_index_charset by exact Hb.
  unfold bind at 1. rewrite IH. reflexivity.
Qed.

Lemma charset_at_in (i : nat) : (i < 90)%nat -> in_charset (charset_at i).
Proof.
  intro Hi. unfold in_charset, charset_at. apply nth_In.
  rewrite charset_bytes_length. exact Hi.
Qed.

Section GenerateChallenge.

Context {Key PGPContext PGPMessage : Type}.
Variable w : World Key PGPContext PGPMessage.

Lemma maxAlloc_512 : 512 <= maxAlloc.
Proof. discriminate. Qed.

Lemma make_bytes_allocates (length : Z) :
  0 <= length <= maxAlloc ->
  (length <? 0) || (maxAlloc <? length) = false.
Proof.
  intros H. apply Bool.orb_false_iff. split; apply Z.ltb_ge; lia.
Qed.

(** What [generateChallenge] does for any length that [make] accepts. *)
Lemma generateChallenge_run (length : Z) (s : State) :
  0 <= length <= maxAlloc ->
  rand_err w = None ->
  generateChallenge w length s
  = (Ok (map (fun i => charset_at (Z.to_nat (byte_to_Z (rand_bytes w i) mod 90)))
           (seq 0 (Z.to_nat length))),
     mkState (stdin s) (ticks s)
       (trace s ++ [EvRandRead (Z.to_nat length)])).
Proof.
  intros Hlen Hrand. unfold generateChallenge, make_bytes.
  rewrite (make_bytes_allocates length Hlen).
  unfold bind at 1. unfold ret at 1.
  unfold rand_Read. rewrite Hrand, repeat_length.
  unfold bind, emit, ret. cbn [stdin ticks trace].
  rewrite substitute_map, map_map. reflexivity.
Qed.

End GenerateChallenge.

(** C2 (amended).  For every valid length [L] (a power of two from 1 to 512),
    when the random source succeeds, [generateChallenge] returns exactly [L]
    bytes; the i-th one is the character of [challengeCharset] at the
    remainder of the i-th random byte modulo the size of the alphabet, hence a
    character of the alphabet; and the alphabet has 90 characters. *)
Theorem generateChallenge_alphabet
  {Key PGPContext PGPMessage : Type} (w : World Key PGPContext PGPMessage)
  (L : Z) (s : State) :
  1 <= L <= 512 ->
  power_of_two L ->
  rand_err w = None ->
  exists secret : list byte,
    fst (generateChallenge w L s) = Ok secret
    /\ Z.of_nat (List.length secret) = L
    /\ secret
       = map (fun i =>
                charset_at
                  (Z.to_nat (byte_to_Z (rand_bytes w i)
                             mod Z.of_nat (String.length challengeCharset))))
           (seq 0 (Z.to_nat L))
    /\ Forall in_charset secret
    /\ String.length challengeCharset = 90%nat.
Proof.
  intros HL _ Hrand. eexists. rewrite generateChallenge_run
    by (exact Hrand || (pose proof maxAlloc_512; lia)).
  cbn [fst]. split; [reflexivity|]. split; [|split; [|split]].
  - rewrite length_map, length_seq. lia.
  - rewrite charset_length. reflexivity.
  - apply Forall_forall. intros c Hc. apply in_map_iff in Hc.
    destruct Hc as [i [<- _]]. apply charset_at_in.
    pose proof (Z.mod_pos_bound (byte_to_Z (rand_bytes w i)) 90 ltac:(lia)). lia.
  - reflexivity.
Qed.

Lemma generateChallenge_alphabet_witness :
  exists secret : list byte,
    fst (generateChallenge (Demo.world (fun _ => "Z"%char) (fun _ => 0)) 16
           (Demo.start EmptyString)) = Ok secret
    /\ Z.of_nat (List.length secret) = 16
    /\ secret
       = map (fun i =>
                charset_at
                  (Z.to_nat (byte_to_Z "Z"%char
                             mod Z.of_nat (String.length challengeCharset))))
           (seq 0 (Z.to_nat 16))
    /\ Forall in_charset secret
    /\ String.length challengeCharset = 90%nat.
Proof.
  apply (generateChallenge_alphabet
           (Demo.world (fun _ => "Z"%char) (fun _ => 0)) 16
           (Demo.start EmptyString)).
  - lia.
  - exists 4%nat. reflexivity.
  - reflexivity.
Defined.

(** C2 as stated fails: the alphabet does not have 91 characters.  On the
    random byte 90 a reduction modulo 91 would select index 90, where the
    alphabet has no character; the code reduces modulo 90 and returns the
    first character. *)
Lemma alphabet_has_not_91_characters :
  String.length challengeCharset <> 91%nat
  /\ String.get (Z.to_nat (byte_to_Z "Z"%char mod 91)) challengeCharset = None
  /\ fst (generateChallenge (Demo.world (fun _ => "Z"%char) (fun _ => 0)) 1
            (Demo.start EmptyString)) = Ok ["a"%char].
Proof.
  split; [|split].
  - rewrite charset_length. discriminate.
  - reflexivity.
  - reflexivity.
Qed.

(** ** Validation of the length *)

Lemma land_table :
  forallb
    (fun L => Bool.eqb (Z.land L (L - 1) =? 0) (existsb (Z.eqb L) valid_lengths))
    (map Z.of_nat (seq 1 512))
  = true.
Proof. vm_compute. reflexivity. Qed.

(** From 1 to 512, [length & (length - 1)] is zero exactly on the listed
    lengths. *)
Lemma land_valid_lengths (L : Z) :
  1 <= L <= 512 ->
  (Z.land L (L - 1) =? 0) = existsb (Z.eqb L) valid_lengths.
Proof.
  intros HL. pose proof land_table as T. rewrite forallb_forall in T.
  apply eqb_prop. apply T. apply in_map_iff.
  exists (Z.to_nat L). split; [lia|]. apply in_seq. lia.
Qed.

Lemma existsb_valid_lengths (L : Z) :
  existsb (Z.eqb L) valid_lengths = true <-> In L valid_lengths.
Proof.
  rewrite existsb_exists. split.
  - intros [x [Hin Hx]]. apply Z.eqb_eq in Hx. now subst.
  - intros Hin. exists L. split; [exact Hin | apply Z.eqb_refl].
Qed.

Lemma valid_lengths_power_of_two (L : Z) :
  In L valid_lengths <-> 1 <= L <= 512 /\ power_of_two L.
Proof.
  split.
  - intros Hin. unfold valid_lengths in Hin. simpl in Hin.
    repeat (destruct Hin as [<- | Hin];
            [ split; [lia|];
              first [ now exists 0%nat | now exists 1%nat | now exists 2%nat
                    | now exists 3%nat | now exists 4%nat | now exists 5%nat
                    | now exists 6%nat | now exists 7%nat | now exists 8%nat
                    | now exists 9%nat ]
            | ]).
    contradiction.
  - intros [HL [k Hk]].
    assert (Hk9 : (k <= 9)%nat).
    { destruct (Nat.le_gt_cases k 9) as [H|H]; [exact H|exfalso].
      assert (2 ^ 10 <= 2 ^ Z.of_nat k) by (apply Z.pow_le_mono_r; lia).
      change (2 ^ 10) with 1024 in *. lia. }
    subst L. unfold valid_lengths.
    do 10 (destruct k as [|k]; [simpl; tauto|]). lia.
Qed.

(** The power-of-two test of [challenge] is exact on the lengths in range. *)
Lemma land_power_of_two (L : Z) :
  1 <= L <= 512 ->
  (Z.land L (L - 1) =? 0) = true <-> power_of_two L.
Proof.
  intros HL. rewrite land_valid_lengths by exact HL.
  rewrite existsb_valid_lengths, valid_lengths_power_of_two. tauto.
Qed.

Section Validation.

Context {Key PGPContext PGPMessage : Type}.
Variable w : World Key PGPContext PGPMessage.

(** A length out of range ends the command at the first test. *)
Lemma challenge_out_of_range (arg0 : string) (more : list string) (s : State) :
  fst (Atoi arg0) <= 0 \/ 512 < fst (Atoi arg0) ->
  challenge w (arg0 :: more) s = (Err ErrChallengeLength, s).
Proof.
  intros H. unfold challenge.
  assert (E : (fst (Atoi arg0) <=? 0) || (512 <? fst (Atoi arg0)) = true).
  { apply orb_true_iff. destruct H; [left; apply Z.leb_le | right; apply Z.ltb_lt]; lia. }
  rewrite E. reflexivity.
Qed.

(** A length in range that is not a power of two ends it at the second. *)
Lemma challenge_not_power_of_two (arg0 : string) (more : list string) (s : State) :
  1 <= fst (Atoi arg0) <= 512 ->
  ~ power_of_two (fst (Atoi arg0)) ->
  challenge w (arg0 :: more) s = (Err ErrChallengePow, s).
Proof.
  intros HL Hpow. unfold challenge.
  replace (fst (Atoi arg0) <=? 0) with false by (symmetry; apply Z.leb_gt; lia).
  replace (512 <? fst (Atoi arg0)) with false by (symmetry; apply Z.ltb_ge; lia).
  cbn [orb].
  destruct (Z.land (fst (Atoi arg0)) (fst (Atoi arg0) - 1) =? 0) eqn:E.
  - exfalso. apply Hpow. apply land_power_of_two; assumption.
  - reflexivity.
Qed.

(** The three operations that the validation precedes leave their mark in
    the trace whenever they run. *)
Lemma getKey_traced (fingerprint : string) (s : State) :
  trace (snd (getKey w fingerprint s))
  = trace s
    ++ EvGetKey fingerprint
       :: map EvPrint (key_prints w fingerprint (stdin s)).
Proof.
  unfold getKey. destruct (key_lookup w fingerprint (stdin s)) as [[key|err] rest];
    reflexivity.
Qed.

Lemma generateChallenge_traced (length : Z) (s : State) :
  0 <= length <= maxAlloc ->
  exists rest,
    trace (snd (generateChallenge w length s))
    = trace s ++ EvRandRead (Z.to_nat length) :: rest.
Proof.
  intros Hlen. unfold generateChallenge, make_bytes.
  rewrite (make_bytes_allocates length Hlen).
  unfold bind at 1. unfold ret at 1. unfold rand_Read.
  rewrite repeat_length. exists [].
  destruct (rand_err w) as [err|]; unfold bind, emit, ret, throw; cbn.
  - reflexivity.
  - rewrite substitute_map. reflexivity.
Qed.

Lemma encryptChallenge_traced (key : Key) (secret : list byte) (s : State) :
  exists rest,
    trace (snd (encryptChallenge w key secret s)) = trace s ++ EvPGPNew :: rest.
Proof.
  unfold encryptChallenge, bind, emit, throw, ret. cbn.
  destruct (pgp_New w key) as [ctx|err]; [|exists []; reflexivity].
  cbn. destruct (pgp_Encrypt w ctx secret) as [msg|err]; cbn.
  - destruct (pgp_Armor w msg) as [armored|err]; cbn;
      rewrite <- !app_assoc; eexists; reflexivity.
  - rewrite <- !app_assoc; eexists; reflexivity.
Qed.

End Validation.

(** C3.  An invalid length makes [challenge] fail at once with its own error:
    [ErrChallengeLength] for a length that is not positive or exceeds 512,
    [ErrChallengePow] for a length in range that is not a power of two.  In
    both cases the state is the one the command started from, so the trace has
    gained no key lookup, no read of the random source and no call of the
    provider: no secret exists and nothing was encrypted. *)
Theorem challenge_invalid_length_fails_fast
  {Key PGPContext PGPMessage : Type} (w : World Key PGPContext PGPMessage)
  (arg0 : string) (more : list string) (length : Z) (s : State) :
  fst (Atoi arg0) = length ->
  (length <= 0 \/ 512 < length ->
   challenge w (arg0 :: more) s = (Err ErrChallengeLength, s))
  /\ (1 <= length <= 512 -> ~ power_of_two length ->
      challenge w (arg0 :: more) s = (Err ErrChallengePow, s)).
Proof.
  intros <-. split.
  - apply challenge_out_of_range.
  - apply challenge_not_power_of_two.
Qed.

Lemma challenge_invalid_length_fails_fast_witness :
  let w := Demo.world (fun _ => "Z"%char) (fun _ => 0) in
  let s := Demo.start (Demo.lines ["anything"%string]) in
  challenge w ["0"%string] s = (Err ErrChallengeLength, s)
  /\ challenge w ["-4"%string] s = (Err ErrChallengeLength, s)
  /\ challenge w ["1024"%string] s = (Err ErrChallengeLength, s)
  /\ challenge w ["15"%string; "0123abcd"%string] s = (Err ErrChallengePow, s).
Proof.
  intros w s. split; [|split; [|split]].
  - apply (proj1 (challenge_invalid_length_fails_fast w "0" [] 0 s eq_refl)).
    left. lia.
  - apply (proj1 (challenge_invalid_length_fails_fast w "-4" [] (-4) s eq_refl)).
    left. lia.
  - apply (proj1 (challenge_invalid_length_fails_fast w "1024" [] 1024 s eq_refl)).
    right. lia.
  - apply (proj2 (challenge_invalid_length_fails_fast
                    w "15" ["0123abcd"%string] 15 s eq_refl)).
    + lia.
    + intro H. apply (land_power_of_two 15 ltac:(lia)) in H. discriminate H.
Defined.

(** ** The discarded error of [strconv.Atoi] *)










(** ** [encryptChallenge] *)

Lemma prefixes_differ (e1 e2 e3 : error) :
  Error (fmt_Errorf "failed to create pgp context: " e1)
  <> Error (fmt_Errorf "failed to encrypt challenge: " e2)
  /\ Error (fmt_Errorf "failed to create pgp context: " e1)
     <> Error (fmt_Errorf "failed to armor challenge: " e3)
  /\ Error (fmt_Errorf "failed to encrypt challenge: " e2)
     <> Error (fmt_Errorf "failed to armor challenge: " e3).
Proof.
  cbn [Error String.append]. repeat split; intro H; discriminate H.
Qed.

(** C8.  [encryptChallenge] can fail at three places and says which: when the
    encryption handle for the recipient cannot be built, when the encryption
    fails, and when the armoring fails, each time with the provider's error
    behind a prefix of its own, so that the three messages differ whatever the
    provider reported; a later stage is not attempted after a failure.  When
    the three stages succeed it returns the raw bytes of the encrypted message
    and the armored text.  There is no other way for it to end. *)
Theorem encryptChallenge_failure_points
  {Key PGPContext PGPMessage : Type} (w : World Key PGPContext PGPMessage)
  (key : Key) (secret : list byte) (s : State) :
  (forall err, pgp_New w key = inr err ->
     encryptChallenge w key secret s
     = (Err (fmt_Errorf "failed to create pgp context: " err),
        mkState (stdin s) (ticks s) (trace s ++ [EvPGPNew])))
  /\ (forall ctx err, pgp_New w key = inl ctx ->
        pgp_Encrypt w ctx secret = inr err ->
        encryptChallenge w key secret s
        = (Err (fmt_Errorf "failed to encrypt challenge: " err),
           mkState (stdin s) (ticks s)
             (trace s ++ [EvPGPNew; EvPGPEncrypt secret])))
  /\ (forall ctx encrypted err, pgp_New w key = inl ctx ->
        pgp_Encrypt w ctx secret = inl encrypted ->
        pgp_Armor w encrypted = inr err ->
        encryptChallenge w key secret s
        = (Err (fmt_Errorf "failed to armor challenge: " err),
           mkState (stdin s) (ticks s)
             (trace s ++ [EvPGPNew; EvPGPEncrypt secret; EvPGPArmor])))
  /\ (forall ctx encrypted armored, pgp_New w key = inl ctx ->
        pgp_Encrypt w ctx secret = inl encrypted ->
        pgp_Armor w encrypted = inl armored ->
        encryptChallenge w key secret s
        = (Ok (pgp_Bytes w encrypted, armored),
           mkState (stdin s) (ticks s)
             (trace s ++ [EvPGPNew; EvPGPEncrypt secret; EvPGPArmor])))
  /\ ((exists raw armored,
         fst (encryptChallenge w key secret s) = Ok (raw, armored))
      \/ (exists err,
            fst (encryptChallenge w key secret s)
            = Err (fmt_Errorf "failed to create pgp context: " err))
      \/ (exists err,
            fst (encryptChallenge w key secret s)
            = Err (fmt_Errorf "failed to encrypt challenge: " err))
      \/ (exists err,
            fst (encryptChallenge w key secret s)
            = Err (fmt_Errorf "failed to armor challenge: " err)))
  /\ (forall e1 e2 e3 : error,
        Error (fmt_Errorf "failed to create pgp context: " e1)
        <> Error (fmt_Errorf "failed to encrypt challenge: " e2)
        /\ Error (fmt_Errorf "failed to create pgp context: " e1)
           <> Error (fmt_Errorf "failed to armor challenge: " e3)
        /\ Error (fmt_Errorf "failed to encrypt challenge: " e2)
           <> Error (fmt_Errorf "failed to armor challenge: " e3)).
Proof.
  unfold encryptChallenge, bind, emit, throw, ret. cbn [stdin ticks trace].
  repeat match goal with |- _ /\ _ => split end.
  - intros err ->. reflexivity.
  - intros ctx err -> ->. cbn. now rewrite <- app_assoc.
  - intros ctx encrypted err -> -> ->. cbn. now rewrite <- !app_assoc.
  - intros ctx encrypted armored -> -> ->. cbn. now rewrite <- !app_assoc.
  - destruct (pgp_New w key) as [ctx|err]; cbn;
      [|right; left; now exists err].
    destruct (pgp_Encrypt w ctx secret) as [encrypted|err]; cbn;
      [|right; right; left; now exists err].
    destruct (pgp_Armor w encrypted) as [armored|err]; cbn;
      [left; now exists (pgp_Bytes w encrypted), armored
      |right; right; right; now exists err].
  - apply prefixes_differ.
Qed.

Lemma encryptChallenge_failure_points_witness :
  let s := Demo.start EmptyString in
  let secret := bytes_of_string "aaaa" in
  let zeros := fun _ : nat => zero in
  let noon := fun _ : nat => 0 in
  encryptChallenge (Demo.world_failing 1 zeros noon) tt secret s
  = (Err (fmt_Errorf "failed to create pgp context: " Demo.provider_failure),
     mkState [] 0 [EvPGPNew])
  /\ encryptChallenge (Demo.world_failing 2 zeros noon) tt secret s
     = (Err (fmt_Errorf "failed to encrypt challenge: " Demo.provider_failure),
        mkState [] 0 [EvPGPNew; EvPGPEncrypt secret])
  /\ encryptChallenge (Demo.world_failing 3 zeros noon) tt secret s
     = (Err (fmt_Errorf "failed to armor challenge: " Demo.provider_failure),
        mkState [] 0 [EvPGPNew; EvPGPEncrypt secret; EvPGPArmor])
  /\ encryptChallenge (Demo.world zeros noon) tt secret s
     = (Ok (secret, "aaaa"%string),
        mkState [] 0 [EvPGPNew; EvPGPEncrypt secret; EvPGPArmor]).
Proof.
  intros s secret zeros noon. split; [|split; [|split]].
  - apply (proj1 (encryptChallenge_failure_points
                    (Demo.world_failing 1 zeros noon) tt secret s)).
    reflexivity.
  - apply (proj1 (proj2 (encryptChallenge_failure_points
                           (Demo.world_failing 2 zeros noon) tt secret s))
             tt).
    + reflexivity.
    + reflexivity.
  - apply (proj1 (proj2 (proj2 (encryptChallenge_failure_points
                                  (Demo.world_failing 3 zeros noon) tt secret s)))
             tt secret).
    + reflexivity.
    + reflexivity.
    + reflexivity.
  - apply (proj1 (proj2 (proj2 (proj2 (encryptChallenge_failure_points
                                         (Demo.world zeros noon) tt secret s))))
             tt secret "aaaa"%string).
    + reflexivity.
    + reflexivity.
    + reflexivity.
Defined.

(** ** [subtle.ConstantTimeCompare] decides equality *)

Lemma log2_byte (a : Z) : 0 <= a < 256 -> Z.log2 a < 8.
Proof.
  intros H. destruct (Z.eq_dec a 0) as [->|Hne]; [reflexivity|].
  apply Z.log2_lt_pow2; lia.
Qed.

Lemma lor_byte (a b : Z) :
  0 <= a < 256 -> 0 <= b < 256 -> 0 <= Z.lor a b < 256.
Proof.
  intros Ha Hb.
  assert (H0 : 0 <= Z.lor a b) by (apply Z.lor_nonneg; lia).
  split; [exact H0|].
  destruct (Z.eq_dec (Z.lor a b) 0) as [->|Hne]; [lia|].
  apply (Z.log2_lt_pow2 _ 8); [lia|].
  rewrite Z.log2_lor by lia.
  pose proof (log2_byte a Ha). pose proof (log2_byte b Hb). lia.
Qed.

Lemma lxor_byte (a b : Z) :
  0 <= a < 256 -> 0 <= b < 256 -> 0 <= Z.lxor a b < 256.
Proof.
  intros Ha Hb.
  assert (H0 : 0 <= Z.lxor a b) by (apply Z.lxor_nonneg; lia).
  split; [exact H0|].
  destruct (Z.eq_dec (Z.lxor a b) 0) as [->|Hne]; [lia|].
  apply (Z.log2_lt_pow2 _ 8); [lia|].
  pose proof (Z.log2_lxor a b ltac:(lia) ltac:(lia)).
  pose proof (log2_byte a Ha). pose proof (log2_byte b Hb). lia.
Qed.

(** One step of the accumulation is zero exactly when the accumulator was
    zero and the two bytes are equal. *)
Lemma accumulate_zero (v a b : byte) :
  byte_of_Z (Z.lor (byte_to_Z v) (Z.lxor (byte_to_Z a) (byte_to_Z b))) = zero
  <-> v = zero /\ a = b.
Proof.
  pose proof (byte_to_Z_range v) as Hv.
  pose proof (byte_to_Z_range a) as Ha.
  pose proof (byte_to_Z_range b) as Hb.
  pose proof (lxor_byte _ _ Ha Hb) as Hx.
  pose proof (lor_byte _ _ Hv Hx) as Ho.
  split.
  - intros H. apply (f_equal byte_to_Z) in H.
    rewrite byte_to_of_Z, Z.mod_small, byte_to_Z_zero in H by exact Ho.
    apply Z.lor_eq_0_iff in H. destruct H as [H1 H2].
    apply Z.lxor_eq in H2. split.
    + apply byte_to_Z_inj. now rewrite byte_to_Z_zero.
    + now apply byte_to_Z_inj.
  - intros [-> ->]. rewrite byte_to_Z_zero, Z.lxor_nilpotent. reflexivity.
Qed.

Lemma xor_accumulate_zero (x y : list byte) (v : byte) :
  List.length x = List.length y ->
  xor_accumulate v x y = zero <-> v = zero /\ x = y.
Proof.
  revert y v. induction x as [|a x IH]; intros [|b y] v Hlen;
    simpl in Hlen; try discriminate; cbn [xor_accumulate].
  - tauto.
  - rewrite IH by lia. rewrite accumulate_zero. split.
    + intros [[-> ->] ->]. tauto.
    + intros [-> E]. injection E as -> ->. tauto.
Qed.

Lemma ConstantTimeByteEq_zero (v : byte) :
  ConstantTimeByteEq v zero = 1 <-> v = zero.
Proof.
  unfold ConstantTimeByteEq. rewrite byte_to_Z_zero, Z.lxor_0_r.
  pose proof (byte_to_Z_range v) as Hv. split.
  - intros H. apply byte_to_Z_inj. rewrite byte_to_Z_zero.
    destruct (Z.eq_dec (byte_to_Z v) 0) as [E|Hne]; [exact E|exfalso].
    rewrite Z.mod_small in H by (change (2 ^ 32) with 4294967296; lia).
    rewrite Z.shiftr_div_pow2, Z.div_small in H
      by (change (2 ^ 31) with 2147483648; lia).
    discriminate H.
  - intros ->. reflexivity.
Qed.

(** The comparison answers 1 exactly on equal slices. *)
Lemma ConstantTimeCompare_eq (x y : list byte) :
  ConstantTimeCompare x y = 1 <-> x = y.
Proof.
  unfold ConstantTimeCompare.
  destruct (List.length x =? List.length y)%nat eqn:E; cbn [negb].
  - apply Nat.eqb_eq in E.
    rewrite ConstantTimeByteEq_zero, xor_accumulate_zero by exact E. tauto.
  - apply Nat.eqb_neq in E. split; [discriminate|].
    intros ->. now contradiction E.
Qed.

Lemma ConstantTimeCompare_eqb (x y : list byte) :
  (ConstantTimeCompare x y =? 1) = true <-> x = y.
Proof. rewrite Z.eqb_eq. apply ConstantTimeCompare_eq. Qed.

(** ** Reading a line *)

Lemma split_at_delim_typed (c rest : list byte) :
  ~ In LF c -> split_at_delim LF (typed c ++ rest) = Some (typed c, rest).
Proof.
  unfold typed. induction c as [|b c IH]; intros Hc.
  - reflexivity.
  - cbn [app split_at_delim].
    destruct (Ascii.eqb_spec b LF) as [->|Hb].
    + exfalso. apply Hc. now left.
    + rewrite IH; [reflexivity|]. intro H. apply Hc. now right.
Qed.

Lemma split_at_delim_none (data : list byte) :
  ~ In LF data -> split_at_delim LF data = None.
Proof.
  induction data as [|b data IH]; intros Hd; [reflexivity|].
  cbn [split_at_delim]. destruct (Ascii.eqb_spec b LF) as [->|Hb].
  - exfalso. apply Hd. now left.
  - rewrite IH; [reflexivity|]. intro H. apply Hd. now right.
Qed.

(** A line that was read is a candidate followed by the line feed, and the
    rest of the input is what followed it. *)
Lemma split_at_delim_some (data line rest : list byte) :
  split_at_delim LF data = Some (line, rest) ->
  data = line ++ rest /\ exists c, line = typed c /\ ~ In LF c.
Proof.
  revert line. induction data as [|b data IH]; intros line H; [discriminate|].
  cbn [split_at_delim] in H. destruct (Ascii.eqb_spec b LF) as [->|Hb].
  - injection H as <- <-. split; [reflexivity|]. exists []. split; [reflexivity|].
    intros [].
  - destruct (split_at_delim LF data) as [[line' rest']|] eqn:E; [|discriminate].
    injection H as <- <-. destruct (IH line' eq_refl) as [-> [c [-> Hc]]].
    split; [reflexivity|]. exists (b :: c). split; [reflexivity|].
    intros [H|H]; [now apply Hb | now apply Hc].
Qed.

Lemma typed_length (c : list byte) : List.length (typed c) = S (List.length c).
Proof. unfold typed. rewrite length_app. simpl. lia. Qed.

(** ** One pass through the loop *)

Section Loop.

Context {Key PGPContext PGPMessage : Type}.
Variable w : World Key PGPContext PGPMessage.
Variable exp : Z.
Variable challengeBytes : list byte.

(** The pass that meets the end of the input, or a read error. *)
Lemma loop_body_read_error (s : State) :
  split_at_delim LF (stdin s) = None ->
  loop_body w exp challengeBytes s
  = (Err (fmt_Errorf "failed to read input: " (stdin_err w)),
     mkState [] (ticks s) (trace s ++ [Prompt; EvReadString (stdin s)])).
Proof.
  intros H. unfold loop_body, Print, ReadString, bind, emit, throw.
  cbn [stdin ticks trace]. fold LF. rewrite H. cbn.
  rewrite <- app_assoc. reflexivity.
Qed.

(** The pass that reads a line: the clock is read and compared with the
    expiry; only then is the trimmed line compared with the secret. *)
Lemma loop_body_line (s : State) (line rest : list byte) :
  split_at_delim LF (stdin s) = Some (line, rest) ->
  loop_body w exp challengeBytes s
  = let now := clock w (ticks s) in
    let checked :=
      trace s ++ [Prompt; EvReadString line; EvNow now; EvBefore exp now] in
    if exp <? now then (Err Expired, mkState rest (S (ticks s)) checked)
    else if ConstantTimeCompare (TrimSpace line) challengeBytes =? 1 then
      (Ok Break,
       mkState rest (S (ticks s))
         (checked ++ [EvCompare (TrimSpace line) challengeBytes; Matched]))
    else
      (Ok Continue,
       mkState rest (S (ticks s))
         (checked ++ [EvCompare (TrimSpace line) challengeBytes; Mismatched])).
Proof.
  intros H. destruct (split_at_delim_some _ _ _ H) as [_ [c [Hline _]]].
  unfold loop_body, Print, Println, ReadString, time_Now, Before, bind, emit,
    throw, ret.
  cbn [stdin ticks trace]. fold LF. rewrite H. cbn [stdin ticks trace].
  replace (List.length line =? 0)%nat with false
    by (subst line; rewrite typed_length; reflexivity).
  cbv zeta. cbn [stdin ticks trace]. destruct (exp <? clock w (ticks s)).
  - rewrite <- !app_assoc. reflexivity.
  - destruct (ConstantTimeCompare (TrimSpace line) challengeBytes =? 1);
      cbn [stdin ticks trace]; rewrite <- !app_assoc; reflexivity.
Qed.

(** A pass that goes round again has consumed input. *)
Lemma loop_body_continue (s s' : State) :
  loop_body w exp challengeBytes s = (Ok Continue, s') ->
  (List.length (stdin s') < List.length (stdin s))%nat.
Proof.
  destruct (split_at_delim LF (stdin s)) as [[line rest]|] eqn:E.
  - rewrite (loop_body_line _ _ _ E). cbv zeta.
    destruct (split_at_delim_some _ _ _ E) as [Hd [c [Hline _]]].
    assert (Hlen : (List.length rest < List.length (stdin s))%nat).
    { rewrite Hd, length_app, Hline, typed_length. lia. }
    destruct (exp <? clock w (ticks s)); [discriminate|].
    destruct (ConstantTimeCompare (TrimSpace line) challengeBytes =? 1);
      [discriminate|].
    intros H. injection H as <-. exact Hlen.
  - rewrite (loop_body_read_error _ E). discriminate.
Qed.

(** The loop does not depend on the bound of its unrolling, once the bound
    exceeds the number of bytes left to read. *)
Lemma for_loop_fuel (f1 f2 : nat) (s : State) :
  (List.length (stdin s) < f1)%nat ->
  (List.length (stdin s) < f2)%nat ->
  for_loop f1 (loop_body w exp challengeBytes) s
  = for_loop f2 (loop_body w exp challengeBytes) s.
Proof.
  revert f2 s. induction f1 as [|f1 IH]; intros f2 s H1 H2; [lia|].
  destruct f2 as [|f2]; [lia|]. cbn [for_loop]. unfold bind.
  destruct (loop_body w exp challengeBytes s) as [[[|]|e|msg|] s'] eqn:E;
    try reflexivity.
  apply loop_body_continue in E. apply IH; lia.
Qed.

(** The loop, one pass at a time. *)
Lemma verification_loop_step (s : State) :
  verification_loop w exp challengeBytes s
  = match loop_body w exp challengeBytes s with
    | (Ok Continue, s') => verification_loop w exp challengeBytes s'
    | (Ok Break, s') => (Ok tt, s')
    | (Err e, s') => (Err e, s')
    | (Panic msg, s') => (Panic msg, s')
    | (OutOfFuel, s') => (OutOfFuel, s')
    end.
Proof.
  unfold verification_loop at 1. cbn [for_loop]. unfold bind.
  destruct (loop_body w exp challengeBytes s) as [[[|]|e|msg|] s'] eqn:E;
    try reflexivity.
  apply loop_body_continue in E. unfold verification_loop.
  apply for_loop_fuel; lia.
Qed.

(** The loop always comes to an end with a result of the program: the bound
    is never reached and nothing panics. *)
Lemma verification_loop_total (s : State) :
  exists s', verification_loop w exp challengeBytes s = (Ok tt, s')
             \/ exists e, verification_loop w exp challengeBytes s = (Err e, s').
Proof.
  remember (List.length (stdin s)) as n eqn:Hn.
  revert s Hn. induction n as [n IH] using lt_wf_ind. intros s Hn.
  rewrite verification_loop_step.
  destruct (split_at_delim LF (stdin s)) as [[line rest]|] eqn:E.
  - pose proof (loop_body_continue s) as Hc.
    rewrite (loop_body_line _ _ _ E) in *. cbv zeta in *.
    destruct (exp <? clock w (ticks s)); [eexists; right; eexists; reflexivity|].
    destruct (ConstantTimeCompare (TrimSpace line) challengeBytes =? 1);
      [eexists; left; reflexivity|].
    specialize (Hc _ eq_refl). eapply IH; [|reflexivity]. lia.
  - rewrite (loop_body_read_error _ E). eexists; right; eexists; reflexivity.
Qed.

End Loop.

(** ** Read errors *)

(** C9.  When reading a candidate fails, which includes the end of the input
    before a line feed, the pass returns the error behind the prefix "failed
    to read input: " and the loop ends with it at once: after the read
    nothing more is done, in particular the clock is not read and nothing is
    compared. *)
Theorem read_error_ends_the_loop
  {Key PGPContext PGPMessage : Type} (w : World Key PGPContext PGPMessage)
  (exp : Z) (secret : list byte) (s : State) :
  ~ In LF (stdin s) ->
  let failure := fmt_Errorf "failed to read input: " (stdin_err w) in
  let after := mkState [] (ticks s) (trace s ++ [Prompt; EvReadString (stdin s)]) in
  loop_body w exp secret s = (Err failure, after)
  /\ verification_loop w exp secret s = (Err failure, after).
Proof.
  intros Hs failure after. apply split_at_delim_none in Hs.
  rewrite verification_loop_step, (loop_body_read_error w exp secret s Hs).
  split; reflexivity.
Qed.

Lemma read_error_ends_the_loop_witness :
  let w := Demo.world (fun _ => "Z"%char) (fun _ => 0) in
  let s := mkState (bytes_of_string "aa") 1 [EvNow 0] in
  let failure := fmt_Errorf "failed to read input: " Demo.io_EOF in
  let after :=
    mkState [] 1 [EvNow 0; Prompt; EvReadString (bytes_of_string "aa")] in
  loop_body w 60000000000 (bytes_of_string "aa") s = (Err failure, after)
  /\ verification_loop w 60000000000 (bytes_of_string "aa") s
     = (Err failure, after).
Proof.
  intros w s failure after.
  apply (read_error_ends_the_loop w 60000000000 (bytes_of_string "aa") s).
  cbv. intros [H|[H|[]]]; discriminate H.
Defined.

(** ** What the loop adds to the trace *)

(** A property of event lists that holds of nothing, is kept by
    concatenation and holds of what each pass adds, holds of what the whole
    loop adds. *)
Lemma for_loop_trace (P : list event -> Prop) (body : M control) :
  P [] ->
  (forall a b, P a -> P b -> P (a ++ b)) ->
  (forall s, exists new, trace (snd (body s)) = trace s ++ new /\ P new) ->
  forall fuel s,
    exists new, trace (snd (for_loop fuel body s)) = trace s ++ new /\ P new.
Proof.
  intros Hnil Happ Hbody fuel.
  induction fuel as [|fuel IH]; intros s; cbn [for_loop].
  - exists []. now rewrite app_nil_r.
  - unfold bind. destruct (Hbody s) as [new [Hnew HP]].
    destruct (body s) as [[[|]|e|msg|] s']; cbn [snd] in *;
      try (exists new; now split).
    destruct (IH s') as [new' [Hnew' HP']].
    exists (new ++ new'). split; [|now apply Happ].
    now rewrite Hnew', Hnew, app_assoc.
Qed.

Lemma compare_guarded_nil (exp : Z) : compare_guarded exp [].
Proof. intros [|e pre] x y post H; discriminate H. Qed.

Lemma compare_guarded_app (exp : Z) (a b : list event) :
  compare_guarded exp a -> compare_guarded exp b -> compare_guarded exp (a ++ b).
Proof.
  intros Ha Hb pre x y post H.
  apply app_eq_app in H. destruct H as [l [[H1 H2]|[H1 H2]]].
  - destruct l as [|e l].
    + cbn in H2. rewrite app_nil_r in H1. subst.
      destruct (Hb [] x y post eq_refl) as [pre' [now [H _]]].
      destruct pre'; discriminate H.
    + injection H2 as <- ->. apply (Ha pre x y l). exact H1.
  - destruct (Hb l x y post H2) as [pre' [now [-> Hnow]]].
    exists (a ++ pre'), now. split; [|exact Hnow].
    now rewrite H1, app_assoc.
Qed.

(** A list without comparison is guarded. *)
Lemma compare_guarded_none (exp : Z) (tr : list event) :
  (forall x y, ~ In (EvCompare x y) tr) -> compare_guarded exp tr.
Proof.
  intros H pre x y post E. exfalso. apply (H x y). rewrite E.
  apply in_or_app. right. now left.
Qed.

Section LoopTrace.

Context {Key PGPContext PGPMessage : Type}.
Variable w : World Key PGPContext PGPMessage.
Variable exp : Z.
Variable challengeBytes : list byte.

(** The events of one pass, in the four ways it can go. *)
Lemma loop_body_events (s : State) :
  exists new,
    trace (snd (loop_body w exp challengeBytes s)) = trace s ++ new
    /\ (new = [Prompt; EvReadString (stdin s)]
        \/ exists line now,
             new = [Prompt; EvReadString line; EvNow now; EvBefore exp now]
             \/ now <= exp
                /\ exists answer,
                     new = [Prompt; EvReadString line; EvNow now;
                            EvBefore exp now;
                            EvCompare (TrimSpace line) challengeBytes; answer]
                     /\ (answer = Matched \/ answer = Mismatched)).
Proof.
  destruct (split_at_delim LF (stdin s)) as [[line rest]|] eqn:E.
  - rewrite (loop_body_line _ _ _ _ _ _ E). cbv zeta.
    destruct (exp <? clock w (ticks s)) eqn:Hexp.
    + eexists. split; [reflexivity|]. right. do 2 eexists. left. reflexivity.
    + apply Z.ltb_ge in Hexp.
      destruct (ConstantTimeCompare (TrimSpace line) challengeBytes =? 1);
        cbn [snd trace]; rewrite <- app_assoc;
        (eexists; split; [reflexivity|]); right; do 2 eexists; right;
        (split; [exact Hexp|]); eexists; (split; [reflexivity|]);
        [left | right]; reflexivity.
  - rewrite (loop_body_read_error _ _ _ _ E).
    eexists. split; [reflexivity|]. now left.
Qed.

Lemma loop_body_guarded (s : State) :
  exists new,
    trace (snd (loop_body w exp challengeBytes s)) = trace s ++ new
    /\ compare_guarded exp new.
Proof.
  destruct (loop_body_events s) as [new [Hnew Hcases]].
  exists new. split; [exact Hnew|].
  destruct Hcases as [->|[line [now [->|[Hnow [answer [-> Hans]]]]]]].
  - apply compare_guarded_none. intros x y [H|[H|[]]]; discriminate H.
  - apply compare_guarded_none. intros x y [H|[H|[H|[H|[]]]]]; discriminate H.
  - intros pre x y post H.
    do 4 (destruct pre as [|? pre]; [discriminate H | injection H as <- H]).
    destruct pre as [|? pre].
    + exists [Prompt; EvReadString line; EvNow now], now. now split.
    + injection H as <- H. destruct pre as [|? pre].
      * destruct Hans as [->| ->]; discriminate H.
      * injection H as <- H. destruct pre; discriminate H.
Qed.

Lemma verification_loop_guarded (s : State) :
  exists new,
    trace (snd (verification_loop w exp challengeBytes s)) = trace s ++ new
    /\ compare_guarded exp new.
Proof.
  unfold verification_loop. apply for_loop_trace.
  - apply compare_guarded_nil.
  - apply compare_guarded_app.
  - apply loop_body_guarded.
Qed.

Lemma loop_body_expiry (s : State) :
  exists new,
    trace (snd (loop_body w exp challengeBytes s)) = trace s ++ new
    /\ Forall (expiry_is exp) new.
Proof.
  destruct (loop_body_events s) as [new [Hnew Hcases]].
  exists new. split; [exact Hnew|].
  destruct Hcases as [->|[line [now [->|[Hnow [answer [-> [->| ->]]]]]]]];
    repeat constructor.
Qed.

Lemma verification_loop_expiry (s : State) :
  exists new,
    trace (snd (verification_loop w exp challengeBytes s)) = trace s ++ new
    /\ Forall (expiry_is exp) new.
Proof.
  unfold verification_loop. apply for_loop_trace.
  - constructor.
  - intros a b Ha Hb. apply Forall_app. now split.
  - apply loop_body_expiry.
Qed.

End LoopTrace.

(** ** Expiry *)

(** C1 (amended).  The expiry is tested before the candidate is compared: for
    every candidate read at a clock reading strictly after the expiry
    instant, the loop returns the error "challenge has expired" without
    comparing, whether or not the candidate equals the secret; and in every
    run of the loop each comparison comes right after a test of the expiry
    that found the clock not past it. *)
Theorem expiry_checked_before_comparison
  {Key PGPContext PGPMessage : Type} (w : World Key PGPContext PGPMessage)
  (exp : Z) (secret candidate rest : list byte) (s : State) :
  stdin s = typed candidate ++ rest ->
  ~ In LF candidate ->
  exp < clock w (ticks s) ->
  verification_loop w exp secret s
  = (Err Expired,
     mkState rest (S (ticks s))
       (trace s ++ [Prompt; EvReadString (typed candidate);
                    EvNow (clock w (ticks s));
                    EvBefore exp (clock w (ticks s))]))
  /\ forall s0 : State,
       exists new,
         trace (snd (verification_loop w exp secret s0)) = trace s0 ++ new
         /\ compare_guarded exp new.
Proof.
  intros Hin Hc Hexp. split; [|apply verification_loop_guarded].
  rewrite verification_loop_step.
  rewrite (loop_body_line w exp secret s (typed candidate) rest)
    by (rewrite Hin; now apply split_at_delim_typed).
  cbv zeta. apply Z.ltb_lt in Hexp. rewrite Hexp. reflexivity.
Qed.

Lemma expiry_checked_before_comparison_witness :
  let w := Demo.world (fun _ => "Z"%char) (fun n => 60000000001) in
  let secret := bytes_of_string "aa" in
  let s := mkState (typed secret) 1 [] in
  verification_loop w 60000000000 secret s
  = (Err Expired,
     mkState [] 2
       [Prompt; EvReadString (typed secret); EvNow 60000000001;
        EvBefore 60000000000 60000000001])
  /\ forall s0 : State,
       exists new,
         trace (snd (verification_loop w 60000000000 secret s0))
         = trace s0 ++ new
         /\ compare_guarded 60000000000 new.
Proof.
  intros w secret s.
  apply (expiry_checked_before_comparison
           w 60000000000 secret secret [] s).
  - reflexivity.
  - cbv. intros [H|[H|[]]]; discriminate H.
  - cbv. reflexivity.
Defined.

(** C1 as stated fails at the expiry instant itself: a run of [challenge]
    whose clock reads exactly the expiry instant when the right answer
    arrives accepts the answer. *)
Lemma answer_at_the_expiry_instant_is_accepted :
  let w :=
    Demo.world (fun _ => "Z"%char)
      (fun n => match n with O => 0 | S _ => 60000000000 end) in
  let run :=
    challenge w ["2"; Demo.key_id]%string
      (Demo.start (Demo.lines ["aa"%string])) in
  fst run = Ok tt
  /\ fst run <> Err Expired
  /\ In (EvBefore 60000000000 60000000000) (trace (snd run))
  /\ In (EvCompare (bytes_of_string "aa") (bytes_of_string "aa"))
       (trace (snd run))
  /\ In Matched (trace (snd run)).
Proof.
  vm_compute. repeat split; try discriminate; tauto.
Qed.

(** ** Retries *)

(** C4.  Candidates that do not match, each answered before the expiry, leave
    the loop where it was: it goes on with the same expiry instant and the
    same secret on the rest of the input, however many they are; each is
    answered with "incorrect!".  The first candidate that matches, if it comes
    before the expiry, is answered with "challenge solved!" and the loop ends
    without error. *)
Theorem mismatches_retry_until_match
  {Key PGPContext PGPMessage : Type} (w : World Key PGPContext PGPMessage)
  (exp : Z) (secret : list byte) (candidates : list (list byte))
  (rest : list byte) (s : State) :
  stdin s = List.concat (map typed candidates) ++ rest ->
  Forall (fun c => ~ In LF c /\ TrimSpace (typed c) <> secret) candidates ->
  (forall i, (i < List.length candidates)%nat ->
             clock w (ticks s + i) <= exp) ->
  let n := List.length candidates in
  let pending :=
    mkState rest (ticks s + n)
      (trace s ++ refusals (clock w) exp secret (ticks s) candidates) in
  verification_loop w exp secret s = verification_loop w exp secret pending
  /\ forall good rest',
       rest = typed good ++ rest' ->
       ~ In LF good ->
       TrimSpace (typed good) = secret ->
       clock w (ticks s + n) <= exp ->
       verification_loop w exp secret s
       = (Ok tt,
          mkState rest' (S (ticks s + n))
            (trace pending
             ++ [Prompt; EvReadString (typed good);
                 EvNow (clock w (ticks s + n));
                 EvBefore exp (clock w (ticks s + n));
                 EvCompare secret secret; Matched])).
Proof.
  intros Hin Hcs Hclock n pending.
  assert (Hloop :
    verification_loop w exp secret s = verification_loop w exp secret pending).
  { subst n pending. revert s Hin Hclock.
    induction Hcs as [|c cs [Hc Hne] Hcs IH]; intros s Hin Hclock.
    - cbn [List.length refusals]. rewrite Nat.add_0_r, app_nil_r.
      cbn in Hin. rewrite <- Hin. now destruct s.
    - rewrite verification_loop_step.
      cbn [map List.concat] in Hin. rewrite <- app_assoc in Hin.
      rewrite (loop_body_line w exp secret s (typed c)
                 (List.concat (map typed cs) ++ rest))
        by (rewrite Hin; now apply split_at_delim_typed).
      cbv zeta.
      pose proof (Hclock 0%nat ltac:(cbn; lia)) as H0.
      rewrite Nat.add_0_r in H0.
      replace (exp <? clock w (ticks s)) with false
        by (symmetry; apply Z.ltb_ge; lia).
      destruct (ConstantTimeCompare (TrimSpace (typed c)) secret =? 1) eqn:E.
      { apply ConstantTimeCompare_eqb in E. contradiction. }
      rewrite IH.
      + cbn [stdin ticks trace List.length refusals].
        rewrite <- !app_assoc. cbn [app].
        replace (S (ticks s) + List.length cs)%nat
          with (ticks s + S (List.length cs))%nat by lia.
        reflexivity.
      + reflexivity.
      + intros i Hi. cbn [ticks].
        replace (S (ticks s) + i)%nat with (ticks s + S i)%nat by lia.
        apply Hclock. cbn. lia. }
  split; [exact Hloop|].
  intros good rest' Hrest Hgood Hmatch Hnow. rewrite Hloop.
  rewrite verification_loop_step.
  rewrite (loop_body_line w exp secret pending (typed good) rest')
    by (subst pending; cbn [stdin]; rewrite Hrest;
        now apply split_at_delim_typed).
  cbv zeta. subst pending. cbn [stdin ticks trace].
  replace (exp <? clock w (ticks s + n)) with false
    by (symmetry; apply Z.ltb_ge; lia).
  rewrite Hmatch.
  replace (ConstantTimeCompare secret secret =? 1) with true
    by (symmetry; now apply ConstantTimeCompare_eqb).
  rewrite <- !app_assoc. reflexivity.
Qed.

Lemma mismatches_retry_until_match_witness :
  let w := Demo.world (fun _ => "Z"%char) (fun _ => 0) in
  let exp := 60000000000 in
  let secret := bytes_of_string "aa" in
  let candidates :=
    [bytes_of_string "x"; bytes_of_string "ab"; bytes_of_string " a a"] in
  let good := bytes_of_string "  aa " in
  let s := mkState (List.concat (map typed candidates) ++ typed good) 1 [] in
  verification_loop w exp secret s
  = (Ok tt,
     mkState [] 5
       (refusals (fun _ => 0) exp secret 1 candidates
        ++ [Prompt; EvReadString (typed good); EvNow 0; EvBefore exp 0;
            EvCompare secret secret; Matched])).
Proof.
  intros w exp secret candidates good s.
  apply (proj2 (mismatches_retry_until_match
                  w exp secret candidates (typed good ++ []) s
                  eq_refl
                  ltac:(repeat constructor;
                        solve [ cbv; intuition discriminate
                              | intro H; vm_compute in H; discriminate H ])
                  ltac:(intros i _; cbv; discriminate))
          good []).
  - reflexivity.
  - cbv. intuition discriminate.
  - vm_compute. reflexivity.
  - cbv. discriminate.
Defined.

(** Three refused candidates and then the right one, through the whole
    command: what the user sees. *)
Example three_mismatches_then_match :
  let w := Demo.world (fun _ => "Z"%char) (fun _ => 0) in
  let run :=
    challenge w ["2"; Demo.key_id]%string
      (Demo.start (Demo.lines ["x"; "ab"; " a a"; "  aa "]%string)) in
  fst run = Ok tt
  /\ printed (trace (snd run))
     = ["solve with: gpg -dq --batch < /tmp/pgp-mfa-challenge-1" ++ newline;
        "enter your solution: "; "incorrect!" ++ newline;
        "enter your solution: "; "incorrect!" ++ newline;
        "enter your solution: "; "incorrect!" ++ newline;
        "enter your solution: "; "challenge solved!" ++ newline]%string.
Proof. vm_compute. split; reflexivity. Qed.

(** ** [strings.TrimSpace] around a secret *)

Lemma IsSpace_space_runes (r : Z) : IsSpace r = true -> In r space_runes.
Proof.
  unfold IsSpace, space_runes. cbn [In].
  destruct ((0 <=? r) && (r <=? 255)); intros H;
    repeat (apply orb_true_iff in H; destruct H as [H|H]);
    try (apply andb_true_iff in H; destruct H as [H1 H2]);
    rewrite ?Z.eqb_eq, ?Z.leb_le in *; lia.
Qed.

Lemma TrimLeftSpace_space (r : Z) (s : list byte) :
  IsSpace r = true -> TrimLeftSpace (EncodeRune r ++ s) = TrimLeftSpace s.
Proof.
  intros H. apply IsSpace_space_runes in H. unfold space_runes in H.
  cbn [In] in H.
  repeat (destruct H as [<-|H]; [reflexivity|]). contradiction.
Qed.

Lemma TrimRightSpace_rev_space (r : Z) (t : list byte) :
  IsSpace r = true ->
  TrimRightSpace_rev (rev (EncodeRune r) ++ t) = TrimRightSpace_rev t.
Proof.
  intros H. apply IsSpace_space_runes in H. unfold space_runes in H.
  cbn [In] in H.
  repeat (destruct H as [<-|H]; [reflexivity|]). contradiction.
Qed.

(** A character of the alphabet is no white space, at either end. *)
Lemma TrimLeftSpace_charset (c : byte) (s : list byte) :
  in_charset c -> TrimLeftSpace (c :: s) = c :: s.
Proof.
  unfold in_charset. cbn. intros H.
  repeat (destruct H as [<-|H]; [reflexivity|]). contradiction.
Qed.

Lemma TrimRightSpace_rev_charset (c : byte) (t : list byte) :
  in_charset c -> TrimRightSpace_rev (c :: t) = c :: t.
Proof.
  unfold in_charset. cbn. intros H.
  repeat (destruct H as [<-|H]; [reflexivity|]). contradiction.
Qed.

Lemma TrimLeftSpace_white_space (ws s : list byte) :
  white_space ws -> TrimLeftSpace (ws ++ s) = TrimLeftSpace s.
Proof.
  intros [rs [Hrs ->]]. induction Hrs as [|r rs Hr Hrs IH]; [reflexivity|].
  cbn [map List.concat]. rewrite <- app_assoc.
  now rewrite TrimLeftSpace_space.
Qed.

Lemma TrimRightSpace_white_space (s ws : list byte) :
  white_space ws -> TrimRightSpace (s ++ ws) = TrimRightSpace s.
Proof.
  intros [rs [Hrs ->]]. unfold TrimRightSpace. f_equal.
  induction rs as [|r rs IH] using rev_ind.
  - cbn. now rewrite app_nil_r.
  - apply Forall_app in Hrs. destruct Hrs as [Hrs Hr].
    rewrite map_app, concat_app. cbn [map List.concat].
    rewrite app_nil_r, app_assoc, rev_app_distr.
    rewrite TrimRightSpace_rev_space by (now inversion Hr).
    now apply IH.
Qed.

Lemma white_space_app (a b : list byte) :
  white_space a -> white_space b -> white_space (a ++ b).
Proof.
  intros [ra [Ha ->]] [rb [Hb ->]]. exists (ra ++ rb). split.
  - apply Forall_app. now split.
  - now rewrite map_app, concat_app.
Qed.

Lemma white_space_LF : white_space [LF].
Proof. exists [10]. split; [repeat constructor | reflexivity]. Qed.

(** White space around a text over the alphabet is trimmed away, and nothing
    else. *)
Lemma TrimSpace_padded (ws1 core ws2 : list byte) :
  white_space ws1 -> white_space ws2 ->
  core <> [] -> Forall in_charset core ->
  TrimSpace (ws1 ++ core ++ ws2) = core.
Proof.
  intros H1 H2 Hne Hcore. unfold TrimSpace.
  rewrite TrimLeftSpace_white_space by exact H1.
  destruct core as [|c core]; [contradiction|].
  cbn [app]. rewrite TrimLeftSpace_charset by (now inversion Hcore).
  change (c :: core ++ ws2) with ((c :: core) ++ ws2).
  rewrite TrimRightSpace_white_space by exact H2.
  unfold TrimRightSpace.
  destruct (exists_last Hne) as [front [l Hl]]. rewrite Hl in *.
  rewrite rev_app_distr. cbn [rev app].
  rewrite TrimRightSpace_rev_charset.
  - change (l :: rev front) with ([l] ++ rev front).
    now rewrite rev_app_distr, rev_involutive.
  - apply Forall_app in Hcore. destruct Hcore as [_ Hl']. now inversion Hl'.
Qed.

(** ** The answer to a candidate *)

(** C5.  A candidate read while the clock is not past the expiry is answered
    with "challenge solved!", and ends the loop, exactly when the line read,
    trimmed of its surrounding white space, equals the secret byte for byte;
    otherwise it is answered with "incorrect!" and the loop goes on.  In
    particular a candidate that is the secret between white space is
    accepted. *)
Theorem candidate_matched_iff_trimmed_equal
  {Key PGPContext PGPMessage : Type} (w : World Key PGPContext PGPMessage)
  (exp : Z) (secret candidate rest : list byte) (s : State) :
  stdin s = typed candidate ++ rest ->
  ~ In LF candidate ->
  clock w (ticks s) <= exp ->
  let now := clock w (ticks s) in
  let compared :=
    trace s ++ [Prompt; EvReadString (typed candidate); EvNow now;
                EvBefore exp now;
                EvCompare (TrimSpace (typed candidate)) secret] in
  let matched := (Ok Break, mkState rest (S (ticks s)) (compared ++ [Matched])) in
  let mismatched :=
    (Ok Continue, mkState rest (S (ticks s)) (compared ++ [Mismatched])) in
  (TrimSpace (typed candidate) = secret <-> loop_body w exp secret s = matched)
  /\ (TrimSpace (typed candidate) <> secret
      <-> loop_body w exp secret s = mismatched)
  /\ (forall ws1 ws2,
        white_space ws1 -> white_space ws2 ->
        secret <> [] -> Forall in_charset secret ->
        candidate = ws1 ++ secret ++ ws2 ->
        loop_body w exp secret s = matched).
Proof.
  intros Hin Hc Hnow now compared matched mismatched.
  assert (Hbody :
    loop_body w exp secret s
    = if ConstantTimeCompare (TrimSpace (typed candidate)) secret =? 1
      then matched else mismatched).
  { rewrite (loop_body_line w exp secret s (typed candidate) rest)
      by (rewrite Hin; now apply split_at_delim_typed).
    cbv zeta. fold now.
    replace (exp <? now) with false by (symmetry; apply Z.ltb_ge; exact Hnow).
    subst matched mismatched compared.
    destruct (ConstantTimeCompare (TrimSpace (typed candidate)) secret =? 1);
      rewrite <- !app_assoc; reflexivity. }
  assert (Hiff :
    TrimSpace (typed candidate) = secret <-> loop_body w exp secret s = matched).
  { rewrite Hbody.
    destruct (ConstantTimeCompare (TrimSpace (typed candidate)) secret =? 1)
      eqn:E.
    - apply ConstantTimeCompare_eqb in E. tauto.
    - split; [|discriminate]. intros H. apply ConstantTimeCompare_eqb in H.
      rewrite H in E. discriminate E. }
  split; [exact Hiff|]. split.
  - rewrite Hbody.
    destruct (ConstantTimeCompare (TrimSpace (typed candidate)) secret =? 1)
      eqn:E.
    + apply ConstantTimeCompare_eqb in E. split; [contradiction|discriminate].
    + split; [reflexivity|]. intros _ H. apply ConstantTimeCompare_eqb in H.
      rewrite H in E. discriminate E.
  - intros ws1 ws2 H1 H2 Hne Hcs ->. apply Hiff. unfold typed.
    rewrite <- !app_assoc. apply TrimSpace_padded; try assumption.
    apply white_space_app; [exact H2 | exact white_space_LF].
Qed.

Lemma candidate_matched_iff_trimmed_equal_witness :
  let w := Demo.world (fun _ => "Z"%char) (fun _ => 7) in
  let exp := 60000000000 in
  let secret := bytes_of_string "aa" in
  let candidate := bytes_of_string "  aa " in
  let s := mkState (typed candidate) 1 [] in
  let compared :=
    [Prompt; EvReadString (typed candidate); EvNow 7; EvBefore exp 7;
     EvCompare (TrimSpace (typed candidate)) secret] in
  let matched := (Ok Break, mkState [] 2 (compared ++ [Matched])) in
  (TrimSpace (typed candidate) = secret <-> loop_body w exp secret s = matched)
  /\ loop_body w exp secret s = matched.
Proof.
  intros w exp secret candidate s compared matched.
  pose proof (candidate_matched_iff_trimmed_equal
                w exp secret candidate [] s eq_refl
                ltac:(cbv; intuition discriminate)
                ltac:(cbv; discriminate)) as [Hiff [_ Hpadded]].
  split; [exact Hiff|].
  apply (Hpadded (bytes_of_string "  ") (bytes_of_string " ")).
  - exists [32; 32]. split; [repeat constructor | reflexivity].
  - exists [32]. split; [repeat constructor | reflexivity].
  - discriminate.
  - repeat constructor; cbv; tauto.
  - reflexivity.
Defined.

(** White space is Unicode's: a no-break space and an em space before the
    secret, an ideographic space and a carriage return after it, are trimmed
    like the line feed that ends the line. *)
Example unicode_white_space_is_trimmed :
  let nbsp := EncodeRune 0xA0 in
  let em_space := EncodeRune 0x2003 in
  let ideographic := EncodeRune 0x3000 in
  let cr := EncodeRune 0x0D in
  TrimSpace (typed (nbsp ++ em_space ++ bytes_of_string "a b"
                    ++ ideographic ++ cr))
  = bytes_of_string "a b".
Proof. vm_compute. reflexivity. Qed.

(** ** [generateChallenge] by cases *)

Section Setup.

Context {Key PGPContext PGPMessage : Type}.
Variable w : World Key PGPContext PGPMessage.

(** [generateChallenge] in each of its three ways. *)
Lemma generateChallenge_cases (length : Z) (s : State) :
  generateChallenge w length s
  = if (length <? 0) || (maxAlloc <? length) then
      (Panic "makeslice: len out of range", s)
    else
      let s' :=
        mkState (stdin s) (ticks s)
          (trace s ++ [EvRandRead (Z.to_nat length)]) in
      match rand_err w with
      | Some err => (Err (fmt_Errorf "failed to generate challenge: " err), s')
      | None =>
          (Ok (map (fun i =>
                      charset_at
                        (Z.to_nat (byte_to_Z (rand_bytes w i) mod 90)))
                 (seq 0 (Z.to_nat length))),
           s')
      end.
Proof.
  destruct ((length <? 0) || (maxAlloc <? length)) eqn:Hlen.
  - unfold generateChallenge, make_bytes. rewrite Hlen. reflexivity.
  - assert (Hin : 0 <= length <= maxAlloc).
    { apply Bool.orb_false_iff in Hlen. destruct Hlen as [H1 H2].
      apply Z.ltb_ge in H1, H2. lia. }
    destruct (rand_err w) as [err|] eqn:Hrand.
    + unfold generateChallenge, make_bytes. rewrite Hlen.
      unfold bind at 1. unfold ret at 1. unfold rand_Read.
      rewrite Hrand, repeat_length. reflexivity.
    + now apply generateChallenge_run.
Qed.

End Setup.

(** ** The command returns *)

Section Returns.

Context {Key PGPContext PGPMessage : Type}.
Variable w : World Key PGPContext PGPMessage.

Lemma verification_loop_returns (exp : Z) (secret : list byte) (s : State) :
  returns (verification_loop w exp secret s).
Proof.
  destruct (verification_loop_total w exp secret s) as [s' [H|[e H]]];
    rewrite H; exact I.
Qed.

(** Whatever the arguments, the input and the collaborators, [challenge]
    returns, with or without an error: it does not panic, and the bound of
    the loop's unrolling is never met. *)
Lemma challenge_returns (args : list string) (s : State) :
  returns (challenge w args s).
Proof.
  unfold challenge. destruct args as [|arg0 more]; [exact I|].
  destruct ((fst (Atoi arg0) <=? 0) || (512 <? fst (Atoi arg0))) eqn:Hrange;
    [exact I|].
  destruct (negb (Z.land (fst (Atoi arg0)) (fst (Atoi arg0) - 1) =? 0));
    [exact I|].
  apply orb_false_iff in Hrange. destruct Hrange as [Hpos Hmax].
  apply Z.leb_gt in Hpos. apply Z.ltb_ge in Hmax.
  unfold bind at 1. unfold getKey.
  destruct (key_lookup w _ (stdin s)) as [[key|err] rest]; [|exact I].
  unfold bind at 1. rewrite generateChallenge_cases.
  rewrite make_bytes_allocates by (pose proof maxAlloc_512; lia).
  cbv zeta. destruct (rand_err w) as [err|]; [exact I|].
  unfold encryptChallenge, time_Now, os_CreateTemp, Write, Println, defer,
    bind, emit, throw, ret.
  cbn [stdin ticks trace].
  destruct (pgp_New w key) as [ctx|err]; [|exact I].
  destruct (pgp_Encrypt w ctx _) as [msg|err]; [|exact I].
  destruct (pgp_Armor w msg) as [armored|err]; [|exact I].
  cbn [stdin ticks trace snd].
  destruct (create_temp w) as [tempFile|err]; [|exact I].
  destruct (write_err w) as [err|]; [|destruct (stdout_err w) as [err|]];
    cbn [stdin ticks trace];
    match goal with
    | |- context [verification_loop w ?exp ?secret ?st] =>
        pose proof (verification_loop_returns exp secret st) as Hr;
        destruct (verification_loop w exp secret st) as [r s5]
    end;
    exact Hr.
Qed.

End Returns.

(** ** The scenarios of the specification, run *)

(** The exact secret before the expiry. *)
Example exact_secret_in_time :
  Demo.outcome_of
    (challenge (Demo.world Demo.bytes (Demo.clock_then (30 * Second)))
       ["16"; Demo.key_id]%string
       (Demo.start (Demo.lines ["aaaaaaaaaaaaaaaa"%string])))
  = (Ok tt,
     [Demo.prologue; "enter your solution: ";
      "challenge solved!" ++ newline]%string).
Proof. vm_compute. reflexivity. Qed.

(** The exact secret after the expiry. *)
Example exact_secret_too_late :
  Demo.outcome_of
    (challenge (Demo.world Demo.bytes (Demo.clock_then (62 * Second)))
       ["16"; Demo.key_id]%string
       (Demo.start (Demo.lines ["aaaaaaaaaaaaaaaa"%string])))
  = (Err Expired, [Demo.prologue; "enter your solution: "]%string).
Proof. vm_compute. reflexivity. Qed.

(** A wrong candidate of the right length, and then the end of the input. *)
Example wrong_candidate :
  Demo.outcome_of
    (challenge (Demo.world Demo.bytes (Demo.clock_then (30 * Second)))
       ["16"; Demo.key_id]%string
       (Demo.start (Demo.lines ["aaaaaaaaaaaaaaab"%string])))
  = (Err (fmt_Errorf "failed to read input: " Demo.io_EOF),
     [Demo.prologue; "enter your solution: "; "incorrect!" ++ newline;
      "enter your solution: "]%string).
Proof. vm_compute. reflexivity. Qed.

(** A length that is not a power of two. *)
Example length_fifteen :
  challenge (Demo.world Demo.bytes (Demo.clock_then (30 * Second)))
    ["15"; Demo.key_id]%string
    (Demo.start (Demo.lines ["aaaaaaaaaaaaaaa"%string]))
  = (Err ErrChallengePow, Demo.start (Demo.lines ["aaaaaaaaaaaaaaa"%string])).
Proof. vm_compute. reflexivity. Qed.

(** * Further properties *)

(** ** The alphabet and the bias of the reduction *)

Lemma all_bytes_complete (b : byte) : In b all_bytes.
Proof.
  unfold all_bytes. apply in_map_iff.
  exists (Z.to_nat (byte_to_Z b)). pose proof (byte_to_Z_range b) as H. split.
  - rewrite Z2Nat.id by lia. apply byte_of_to_Z.
  - apply in_seq. lia.
Qed.

Lemma charset_NoDup : NoDup (bytes_of_string challengeCharset).
Proof.
  replace (bytes_of_string challengeCharset)
    with (nodup ascii_dec (bytes_of_string challengeCharset))
    by (vm_compute; reflexivity).
  apply NoDup_nodup.
Qed.

(** X1.  The ninety characters of the alphabet are pairwise distinct, and the
    reduction of a random byte modulo 90 does not treat them alike: of the 256
    values of a byte, three become each of the first 76 characters and two
    become each of the other 14. *)
Theorem modulo_bias (i : nat) :
  (i < 90)%nat ->
  NoDup (bytes_of_string challengeCharset)
  /\ (forall b, In b all_bytes)
  /\ List.length (preimages (charset_at i))
     = if (i <? 76)%nat then 3%nat else 2%nat.
Proof.
  intros Hi. split; [exact charset_NoDup|]. split; [exact all_bytes_complete|].
  do 90 (destruct i as [|i]; [vm_compute; reflexivity|]). lia.
Qed.

Lemma modulo_bias_witness :
  NoDup (bytes_of_string challengeCharset)
  /\ (forall b, In b all_bytes)
  /\ List.length (preimages (charset_at 89)) = 2%nat.
Proof. apply (modulo_bias 89). lia. Defined.

(** ** [generateChallenge] on its own *)

Lemma secret_of_length {Key PGPContext PGPMessage : Type}
  (w : World Key PGPContext PGPMessage) (L : Z) :
  0 <= L -> Z.of_nat (List.length (secret_of w L)) = L.
Proof.
  intros HL. unfold secret_of. rewrite length_map, length_seq. lia.
Qed.

Lemma secret_of_charset {Key PGPContext PGPMessage : Type}
  (w : World Key PGPContext PGPMessage) (L : Z) :
  Forall in_charset (secret_of w L).
Proof.
  apply Forall_forall. intros c Hc. apply in_map_iff in Hc.
  destruct Hc as [i [<- _]]. apply charset_at_in.
  pose proof (Z.mod_pos_bound (byte_to_Z (rand_bytes w i)) 90 ltac:(lia)).
  lia.
Qed.

(** X2.  [generateChallenge] checks nothing about its length: the bounds 1
    and 512 and the power of two are the business of [challenge] alone.  For
    a length from 0 to 2^20, in the range of [challenge] or not, a power of
    two or not, it reads the random source once and returns that many
    characters of the alphabet (none for the length 0), or the error of the
    random source behind the prefix "failed to generate challenge: ".  A
    negative length and a length beyond [maxAlloc], the largest size that
    [make] accepts, make it panic in [make], before the random source is
    read.  (Between 2^20 and [maxAlloc] the result depends on the memory
    that the machine has, about which nothing is said.) *)
Theorem generateChallenge_any_length
  {Key PGPContext PGPMessage : Type} (w : World Key PGPContext PGPMessage)
  (L : Z) (s : State) :
  let drawn :=
    mkState (stdin s) (ticks s) (trace s ++ [EvRandRead (Z.to_nat L)]) in
  (0 <= L <= 2 ^ 20 -> rand_err w = None ->
   generateChallenge w L s = (Ok (secret_of w L), drawn)
   /\ Z.of_nat (List.length (secret_of w L)) = L
   /\ Forall in_charset (secret_of w L))
  /\ (forall err, 0 <= L <= 2 ^ 20 -> rand_err w = Some err ->
        generateChallenge w L s
        = (Err (fmt_Errorf "failed to generate challenge: " err), drawn))
  /\ (L < 0 \/ maxAlloc < L ->
      generateChallenge w L s = (Panic "makeslice: len out of range", s)).
Proof.
  intros drawn. rewrite generateChallenge_cases. cbv zeta. fold drawn.
  assert (Hmax : 2 ^ 20 <= maxAlloc) by discriminate.
  split; [|split].
  - intros HL Hrand. rewrite (make_bytes_allocates L) by lia.
    rewrite Hrand. split; [reflexivity|].
    split; [apply secret_of_length; lia | apply secret_of_charset].
  - intros err HL Hrand. rewrite (make_bytes_allocates L) by lia.
    now rewrite Hrand.
  - intros HL.
    replace ((L <? 0) || (maxAlloc <? L)) with true; [reflexivity|].
    symmetry. apply Bool.orb_true_iff.
    destruct HL as [HL|HL]; [left | right]; now apply Z.ltb_lt.
Qed.

Lemma generateChallenge_any_length_witness :
  let w := Demo.world Demo.bytes (fun _ => 0) in
  let s := Demo.start EmptyString in
  (generateChallenge w 15 s
   = (Ok (secret_of w 15), mkState [] 0 [EvRandRead 15])
   /\ Z.of_nat (List.length (secret_of w 15)) = 15
   /\ Forall in_charset (secret_of w 15))
  /\ generateChallenge w 0 s = (Ok [], mkState [] 0 [EvRandRead 0])
  /\ generateChallenge w 1000 s
     = (Ok (secret_of w 1000), mkState [] 0 [EvRandRead 1000])
  /\ generateChallenge w (-1) s = (Panic "makeslice: len out of range", s)
  /\ generateChallenge w (2 ^ 62) s
     = (Panic "makeslice: len out of range", s).
Proof.
  intros w s. split; [|split; [|split; [|split]]].
  - apply (proj1 (generateChallenge_any_length w 15 s)).
    + split; [lia | discriminate].
    + reflexivity.
  - apply (proj1 (generateChallenge_any_length w 0 s)).
    + split; [lia | discriminate].
    + reflexivity.
  - apply (proj1 (generateChallenge_any_length w 1000 s)).
    + split; [lia | discriminate].
    + reflexivity.
  - apply (proj2 (proj2 (generateChallenge_any_length w (-1) s))). left. lia.
  - apply (proj2 (proj2 (generateChallenge_any_length w (2 ^ 62) s))).
    right. reflexivity.
Defined.

(** ** The pass that goes round again *)

Lemma TrimSpace_blank_line : TrimSpace [LF] = [].
Proof. reflexivity. Qed.

(** X3.  The loop never goes round in silence.  The test for an empty input
    in its body cannot succeed, since a line that was read holds at least its
    line feed: whenever a pass ends in another pass, the line was compared
    with the secret, after the test of the expiry, and answered with
    "incorrect!".  A blank line is such a refused candidate. *)
Theorem every_retry_is_answered
  {Key PGPContext PGPMessage : Type} (w : World Key PGPContext PGPMessage)
  (exp : Z) (secret : list byte) (s s' : State) :
  loop_body w exp secret s = (Ok Continue, s') ->
  exists line rest,
    stdin s = line ++ rest
    /\ line <> []
    /\ TrimSpace line <> secret
    /\ clock w (ticks s) <= exp
    /\ s' = mkState rest (S (ticks s))
              (trace s
               ++ [Prompt; EvReadString line; EvNow (clock w (ticks s));
                   EvBefore exp (clock w (ticks s));
                   EvCompare (TrimSpace line) secret; Mismatched]).
Proof.
  destruct (split_at_delim LF (stdin s)) as [[line rest]|] eqn:E.
  - rewrite (loop_body_line w exp secret s line rest E). cbv zeta.
    destruct (split_at_delim_some _ _ _ E) as [Hd [c [Hline _]]].
    destruct (exp <? clock w (ticks s)) eqn:Hexp; [discriminate|].
    apply Z.ltb_ge in Hexp.
    destruct (ConstantTimeCompare (TrimSpace line) secret =? 1) eqn:Hcmp;
      [discriminate|].
    intros H. injection H as <-. exists line, rest.
    split; [exact Hd|]. split.
    { subst line. unfold typed. now destruct c. }
    split.
    { intros Heq. apply ConstantTimeCompare_eqb in Heq.
      rewrite Heq in Hcmp. discriminate Hcmp. }
    split; [exact Hexp|]. now rewrite <- app_assoc.
  - rewrite (loop_body_read_error w exp secret s E). discriminate.
Qed.

Lemma every_retry_is_answered_witness :
  let w := Demo.world Demo.bytes (fun _ => 5) in
  let secret := bytes_of_string "aa" in
  let s := mkState (LF :: typed secret) 1 [] in
  exists line rest,
    stdin s = line ++ rest
    /\ line <> []
    /\ TrimSpace line <> secret
    /\ 5 <= 60000000000
    /\ mkState (typed secret) 2
         [Prompt; EvReadString [LF]; EvNow 5; EvBefore 60000000000 5;
          EvCompare [] secret; Mismatched]
       = mkState rest 2
           ([Prompt; EvReadString line; EvNow 5; EvBefore 60000000000 5;
             EvCompare (TrimSpace line) secret; Mismatched]).
Proof.
  intros w secret s.
  apply (every_retry_is_answered w 60000000000 secret s
           (mkState (typed secret) 2
              [Prompt; EvReadString [LF]; EvNow 5; EvBefore 60000000000 5;
               EvCompare [] secret; Mismatched])).
  vm_compute. reflexivity.
Defined.

(** ** [challenge], case by case *)

Section Cases.

Context {Key PGPContext PGPMessage : Type}.
Variable w : World Key PGPContext PGPMessage.

(** [encryptChallenge] in each of its four ways. *)
Lemma encryptChallenge_cases (key : Key) (secret : list byte) (s : State) :
  encryptChallenge w key secret s
  = let at_ := fun events => mkState (stdin s) (ticks s) (trace s ++ events) in
    match pgp_New w key with
    | inr err =>
        (Err (fmt_Errorf "failed to create pgp context: " err), at_ [EvPGPNew])
    | inl ctx =>
        match pgp_Encrypt w ctx secret with
        | inr err =>
            (Err (fmt_Errorf "failed to encrypt challenge: " err),
             at_ [EvPGPNew; EvPGPEncrypt secret])
        | inl encrypted =>
            match pgp_Armor w encrypted with
            | inr err =>
                (Err (fmt_Errorf "failed to armor challenge: " err),
                 at_ [EvPGPNew; EvPGPEncrypt secret; EvPGPArmor])
            | inl armored =>
                (Ok (pgp_Bytes w encrypted, armored),
                 at_ [EvPGPNew; EvPGPEncrypt secret; EvPGPArmor])
            end
        end
    end.
Proof.
  unfold encryptChallenge, bind, emit, throw, ret. cbn [stdin ticks trace].
  destruct (pgp_New w key) as [ctx|err]; [|reflexivity].
  cbn [stdin ticks trace].
  destruct (pgp_Encrypt w ctx secret) as [encrypted|err];
    cbn [stdin ticks trace]; [|now rewrite <- app_assoc].
  destruct (pgp_Armor w encrypted) as [armored|err];
    cbn [stdin ticks trace]; now rewrite <- !app_assoc.
Qed.

(** The whole command, by the answers of its collaborators. *)
Lemma challenge_cases (arg0 : string) (more : list string) (s : State) :
  challenge w (arg0 :: more) s
  = let L := fst (Atoi arg0) in
    if (L <=? 0) || (512 <? L) then (Err ErrChallengeLength, s)
    else if negb (Z.land L (L - 1) =? 0) then (Err ErrChallengePow, s)
    else
      let fp := key_id_of more in
      let (found, input) := key_lookup w fp (stdin s) in
      let at_ := fun n events => mkState input n (trace s ++ events) in
      let drawn := looked_up w fp (stdin s) ++ [EvRandRead (Z.to_nat L)] in
      let secret := secret_of w L in
      match found with
      | inr err => (Err err, at_ (ticks s) (looked_up w fp (stdin s)))
      | inl key =>
          match rand_err w with
          | Some err =>
              (Err (fmt_Errorf "failed to generate challenge: " err),
               at_ (ticks s) drawn)
          | None =>
              match pgp_New w key with
              | inr err =>
                  (Err (fmt_Errorf "failed to create pgp context: " err),
                   at_ (ticks s) (drawn ++ [EvPGPNew]))
              | inl ctx =>
                  match pgp_Encrypt w ctx secret with
                  | inr err =>
                      (Err (fmt_Errorf "failed to encrypt challenge: " err),
                       at_ (ticks s)
                         (drawn ++ [EvPGPNew; EvPGPEncrypt secret]))
                  | inl encrypted =>
                      let encrypted_ :=
                        drawn ++ [EvPGPNew; EvPGPEncrypt secret; EvPGPArmor] in
                      match pgp_Armor w encrypted with
                      | inr err =>
                          (Err (fmt_Errorf "failed to armor challenge: " err),
                           at_ (ticks s) encrypted_)
                      | inl armored =>
                          let t := clock w (ticks s) in
                          let exp := t + ChallengeSolveTime in
                          match create_temp w with
                          | inr err =>
                              (Err (fmt_Errorf "failed to create temp file: "
                                      err),
                               at_ (S (ticks s))
                                 (encrypted_ ++ [EvNow t; EvCreateTemp]))
                          | inl name =>
                              let opened :=
                                at_ (S (ticks s))
                                  (encrypted_
                                   ++ [EvNow t; EvCreateTemp]
                                   ++ written w (armored ++ newline) name
                                   ++ [EvPrintExpiry exp]) in
                              let (r, s') :=
                                verification_loop w exp secret opened in
                              (r,
                               mkState (stdin s') (ticks s')
                                 (trace s' ++ [EvRemove name; EvClose name]))
                          end
                      end
                  end
              end
          end
      end.
Proof.
  unfold challenge. cbv zeta.
  destruct ((fst (Atoi arg0) <=? 0) || (512 <? fst (Atoi arg0))) eqn:Hrange;
    [reflexivity|].
  destruct (negb (Z.land (fst (Atoi arg0)) (fst (Atoi arg0) - 1) =? 0));
    [reflexivity|].
  apply orb_false_iff in Hrange. destruct Hrange as [Hpos Hmax].
  apply Z.leb_gt in Hpos. apply Z.ltb_ge in Hmax. fold (key_id_of more).
  unfold bind at 1. unfold getKey.
  fold (looked_up w (key_id_of more) (stdin s)).
  destruct (key_lookup w (key_id_of more) (stdin s)) as [[key|err] input];
    [|reflexivity].
  set (found := looked_up w (key_id_of more) (stdin s)).
  unfold bind at 1. rewrite generateChallenge_cases.
  rewrite make_bytes_allocates by (pose proof maxAlloc_512; lia).
  cbv zeta. cbn [stdin ticks trace]. fold (secret_of w (fst (Atoi arg0))).
  destruct (rand_err w) as [err|]; [now rewrite <- app_assoc|].
  unfold bind at 1. rewrite encryptChallenge_cases. cbv zeta.
  cbn [stdin ticks trace].
  destruct (pgp_New w key) as [ctx|err]; [|now rewrite <- !app_assoc].
  destruct (pgp_Encrypt w ctx _) as [encrypted|err];
    [|now rewrite <- !app_assoc].
  destruct (pgp_Armor w encrypted) as [armored|err];
    [|now rewrite <- !app_assoc].
  unfold time_Now, os_CreateTemp, Write, Println, defer, bind, emit, throw, ret.
  cbn [stdin ticks trace snd].
  destruct (create_temp w) as [name|err]; [|now rewrite <- !app_assoc].
  unfold written, hint.
  destruct (write_err w) as [err|]; [|destruct (stdout_err w) as [err|]];
    cbn [stdin ticks trace app];
    rewrite <- !app_assoc; cbn [app];
    match goal with
    | |- context [verification_loop w ?exp ?secret ?st] =>
        destruct (verification_loop w exp secret st) as [r s']
    end;
    cbn [stdin ticks trace]; now rewrite <- !app_assoc.
Qed.

End Cases.

(** ** What every run leaves in the trace *)

Section Shape.

Context {Key PGPContext PGPMessage : Type}.
Variable w : World Key PGPContext PGPMessage.

Lemma verification_loop_events (exp : Z) (secret : list byte) (s : State) :
  exists new,
    trace (snd (verification_loop w exp secret s)) = trace s ++ new
    /\ Forall loop_event new.
Proof.
  unfold verification_loop. apply for_loop_trace.
  - constructor.
  - intros a b Ha Hb. apply Forall_app. now split.
  - intros s0. destruct (loop_body_events w exp secret s0) as [new [Hnew Hc]].
    exists new. split; [exact Hnew|].
    destruct Hc as [->|[line [now [->|[_ [answer [-> [->| ->]]]]]]]];
      repeat (first [apply Forall_nil | apply Forall_cons]);
      cbn; auto.
Qed.

(** One pass through the body of the loop leaves the events of a pass. *)
Lemma loop_body_pass (exp : Z) (secret : list byte) (s : State) :
  exists new,
    trace (snd (loop_body w exp secret s)) = trace s ++ new
    /\ pass_of exp new.
Proof.
  destruct (split_at_delim LF (stdin s)) as [[line rest]|] eqn:E.
  - rewrite (loop_body_line w exp secret s line rest E). cbv zeta.
    destruct (exp <? clock w (ticks s)) eqn:Hexp.
    + apply Z.ltb_lt in Hexp. eexists. split; [reflexivity|].
      right. left. exists line, (clock w (ticks s)). now split.
    + apply Z.ltb_ge in Hexp.
      destruct (ConstantTimeCompare (TrimSpace line) secret =? 1);
        cbn [snd trace]; rewrite <- app_assoc;
        (eexists; split; [reflexivity|]); right; right;
        [exists line, (clock w (ticks s)), (TrimSpace line), secret, Matched
        |exists line, (clock w (ticks s)), (TrimSpace line), secret,
           Mismatched];
        (split; [exact Hexp|]); (split; [|reflexivity]); auto.
  - rewrite (loop_body_read_error w exp secret s E).
    eexists. split; [reflexivity|]. left. now exists (stdin s).
Qed.

(** The loop leaves a sequence of passes, one at least, which all test the
    same expiry instant. *)
Lemma verification_loop_passes (exp : Z) (secret : list byte) (s : State) :
  exists passes,
    passes <> []
    /\ Forall (pass_of exp) passes
    /\ trace (snd (verification_loop w exp secret s))
       = trace s ++ List.concat passes.
Proof.
  assert (Hweak : forall s0,
    exists new,
      trace (snd (verification_loop w exp secret s0)) = trace s0 ++ new
      /\ exists passes, new = List.concat passes /\ Forall (pass_of exp) passes).
  { intros s0. unfold verification_loop. apply for_loop_trace.
    - exists []. split; [reflexivity | constructor].
    - intros a b [pa [-> Ha]] [pb [-> Hb]]. exists (pa ++ pb).
      split; [now rewrite concat_app | now apply Forall_app].
    - intros s1. destruct (loop_body_pass exp secret s1) as [new [Hnew Hp]].
      exists new. split; [exact Hnew|]. exists [new].
      split; [cbn; now rewrite app_nil_r | now constructor]. }
  rewrite verification_loop_step.
  destruct (loop_body_pass exp secret s) as [new [Hnew Hp]].
  destruct (loop_body w exp secret s) as [[[|]|e|msg|] s'] eqn:E;
    cbn [snd] in *;
    try (exists [new]; split; [discriminate|]; split; [now constructor|];
         cbn [List.concat]; now rewrite app_nil_r).
  destruct (Hweak s') as [more [Hmore [passes [-> Hpasses]]]].
  exists (new :: passes). split; [discriminate|].
  split; [now constructor|].
  cbn [List.concat]. now rewrite Hmore, Hnew, app_assoc.
Qed.

(** The shape of the trace of any run of [challenge]: nothing at all; or
    the key lookup and calls of the provider; or these and the failure to
    create the temporary file; or these, the file, the armored text, the
    expiry instant, the passes of the loop, and the file removed and
    closed. *)
Lemma challenge_shape (args : list string) (s : State) :
  let fp := key_id_of (tl args) in
  let t := clock w (ticks s) in
  let exp := t + ChallengeSolveTime in
  exists new,
    trace (snd (challenge w args s)) = trace s ++ new
    /\ (new = []
        \/ (exists provider,
              new = looked_up w fp (stdin s) ++ provider
              /\ Forall provider_event provider)
        \/ (exists provider err,
              create_temp w = inr err
              /\ new
                 = looked_up w fp (stdin s) ++ provider
                   ++ [EvNow t; EvCreateTemp]
              /\ Forall provider_event provider
              /\ fst (challenge w args s)
                 = Err (fmt_Errorf "failed to create temp file: " err))
        \/ (exists provider name message armored passes,
              create_temp w = inl name
              /\ pgp_Armor w message = inl armored
              /\ new
                 = looked_up w fp (stdin s) ++ provider
                   ++ [EvNow t; EvCreateTemp]
                   ++ written w (armored ++ newline) name
                   ++ [EvPrintExpiry exp]
                   ++ List.concat passes ++ [EvRemove name; EvClose name]
              /\ Forall provider_event provider
              /\ passes <> []
              /\ Forall (pass_of exp) passes)).
Proof.
  intros fp t exp. subst fp t exp.
  destruct args as [|arg0 more].
  { exists []. cbn. rewrite app_nil_r. split; [reflexivity|]. now left. }
  cbn [tl]. rewrite challenge_cases. cbv zeta.
  destruct ((fst (Atoi arg0) <=? 0) || (512 <? fst (Atoi arg0))).
  { exists []. cbn. rewrite app_nil_r. split; [reflexivity|]. now left. }
  destruct (negb (Z.land (fst (Atoi arg0)) (fst (Atoi arg0) - 1) =? 0)).
  { exists []. cbn. rewrite app_nil_r. split; [reflexivity|]. now left. }
  set (found := looked_up w (key_id_of more) (stdin s)).
  destruct (key_lookup w (key_id_of more) (stdin s)) as [[key|err] input].
  2:{ exists found. split; [reflexivity|]. right. left. exists [].
      split; [now rewrite app_nil_r | constructor]. }
  destruct (rand_err w) as [err|].
  { eexists. split; [reflexivity|]. right. left. eexists.
    split; [reflexivity|]. repeat constructor. }
  destruct (pgp_New w key) as [ctx|err].
  2:{ eexists. split; [reflexivity|]. right. left. eexists.
      split; [now rewrite <- app_assoc|]. repeat constructor. }
  destruct (pgp_Encrypt w ctx _) as [encrypted|err].
  2:{ eexists. split; [reflexivity|]. right. left. eexists.
      split; [now rewrite <- app_assoc|]. repeat constructor. }
  destruct (pgp_Armor w encrypted) as [armored|err] eqn:Harmor.
  2:{ eexists. split; [reflexivity|]. right. left. eexists.
      split; [now rewrite <- app_assoc|]. repeat constructor. }
  set (L := fst (Atoi arg0)).
  set (provider :=
         [EvRandRead (Z.to_nat L); EvPGPNew; EvPGPEncrypt (secret_of w L);
          EvPGPArmor]).
  assert (Fprovider : Forall provider_event provider) by (repeat constructor).
  destruct (create_temp w) as [name|err] eqn:Htemp.
  - match goal with
    | |- context [verification_loop w ?exp ?secret ?st] =>
        destruct (verification_loop_passes exp secret st)
          as [passes [Hne [Hpasses Tl]]];
        destruct (verification_loop w exp secret st) as [r s']
    end.
    cbn [snd fst stdin ticks trace] in *.
    exists (found ++ provider
            ++ [EvNow (clock w (ticks s)); EvCreateTemp]
            ++ written w (armored ++ newline) name
            ++ [EvPrintExpiry (clock w (ticks s) + ChallengeSolveTime)]
            ++ List.concat passes ++ [EvRemove name; EvClose name]).
    split.
    + rewrite Tl. subst provider. cbn [app]. rewrite <- !app_assoc.
      cbn [app]. rewrite <- !app_assoc. reflexivity.
    + right. right. right.
      exists provider, name, encrypted, armored, passes.
      repeat split; assumption.
  - exists (found ++ provider ++ [EvNow (clock w (ticks s)); EvCreateTemp]).
    split.
    + subst provider. cbn [snd trace app]. rewrite <- !app_assoc.
      reflexivity.
    + right. right. left. exists provider, err. repeat split; assumption.
Qed.

Lemma looked_up_setup (fp : string) (input : list byte) :
  Forall setup_event (looked_up w fp input).
Proof.
  unfold looked_up. apply Forall_cons; [exact I|].
  apply Forall_forall. intros e He. apply in_map_iff in He.
  now destruct He as [text [<- _]].
Qed.

Lemma written_not_file (data name : string) :
  Forall (fun e => ~ file_event e) (written w data name).
Proof.
  unfold written, hint.
  destruct (write_err w); [|destruct (stdout_err w)];
    repeat (first [apply Forall_nil | apply Forall_cons]); cbn; tauto.
Qed.

End Shape.

Lemma loop_event_not_file (e : event) : loop_event e -> ~ file_event e.
Proof. destruct e; cbn; tauto. Qed.

Lemma setup_event_not_file (e : event) : setup_event e -> ~ file_event e.
Proof. destruct e; cbn; tauto. Qed.

Lemma provider_event_setup (e : event) : provider_event e -> setup_event e.
Proof. destruct e; cbn; tauto. Qed.

(** What holds of each event of a pass holds of the events of the loop. *)
Lemma passes_Forall (P : event -> Prop) (exp : Z) (passes : list (list event)) :
  P Prompt -> P Matched -> P Mismatched ->
  (forall input, P (EvReadString input)) ->
  (forall now, P (EvNow now)) ->
  (forall now, P (EvBefore exp now)) ->
  (forall x y, P (EvCompare x y)) ->
  Forall (pass_of exp) passes ->
  Forall P (List.concat passes).
Proof.
  intros Hprompt Hmatched Hmismatched Hread Hnow Hbefore Hcompare Hpasses.
  apply Forall_concat. eapply Forall_impl; [|exact Hpasses].
  intros pass
    [[input ->]
    |[[line [now [_ ->]]]
     |[line [now [x [y [answer [_ [Hanswer ->]]]]]]]]];
    repeat (first [apply Forall_nil | apply Forall_cons]); auto.
  now destruct Hanswer as [-> | ->].
Qed.

Lemma passes_not_file (exp : Z) (passes : list (list event)) :
  Forall (pass_of exp) passes ->
  Forall (fun e => ~ file_event e) (List.concat passes).
Proof. apply passes_Forall; cbn; tauto. Qed.

(** X4.  The temporary file never outlives the command.  In every run of
    [challenge], whatever the arguments, the input and the collaborators:
    either no temporary file is touched at all; or its creation fails, and
    that is the last thing the run does; or it is created once, and the run
    ends by removing and then closing that very file, whether the challenge
    was solved, has expired or the input ended. *)
Theorem temporary_file_is_always_removed
  {Key PGPContext PGPMessage : Type} (w : World Key PGPContext PGPMessage)
  (args : list string) (s : State) :
  exists new,
    trace (snd (challenge w args s)) = trace s ++ new
    /\ (Forall (fun e => ~ file_event e) new
        \/ (exists before err,
              create_temp w = inr err
              /\ new = before ++ [EvCreateTemp]
              /\ Forall (fun e => ~ file_event e) before
              /\ fst (challenge w args s)
                 = Err (fmt_Errorf "failed to create temp file: " err))
        \/ (exists name before during,
              create_temp w = inl name
              /\ new
                 = before ++ [EvCreateTemp] ++ during
                   ++ [EvRemove name; EvClose name]
              /\ Forall (fun e => ~ file_event e) before
              /\ Forall (fun e => ~ file_event e) during)).
Proof.
  destruct (challenge_shape w args s) as [new [Hnew Hshape]].
  exists new. split; [exact Hnew|].
  assert (Hbefore : forall provider t,
    Forall provider_event provider ->
    Forall (fun e => ~ file_event e)
      (looked_up w (key_id_of (tl args)) (stdin s) ++ provider ++ [EvNow t])).
  { intros provider t Hp. apply Forall_app. split.
    - eapply Forall_impl; [apply setup_event_not_file|].
      apply looked_up_setup.
    - apply Forall_app. split.
      + eapply Forall_impl; [|exact Hp].
        intros e He. now apply setup_event_not_file, provider_event_setup.
      + repeat constructor. cbn. tauto. }
  destruct Hshape
    as [->
       |[[provider [-> Hp]]
        |[[provider [err [Htemp [-> [Hp Hres]]]]]
         |[provider [name [message [armored [passes
             [Htemp [_ [-> [Hp [_ Hpasses]]]]]]]]]]]]].
  - left. constructor.
  - left. specialize (Hbefore provider 0 Hp).
    rewrite app_assoc in Hbefore. apply Forall_app in Hbefore.
    exact (proj1 Hbefore).
  - right. left.
    exists (looked_up w (key_id_of (tl args)) (stdin s) ++ provider
            ++ [EvNow (clock w (ticks s))]), err.
    split; [exact Htemp|]. split; [now rewrite <- !app_assoc|].
    split; [now apply Hbefore | exact Hres].
  - right. right.
    exists name,
      (looked_up w (key_id_of (tl args)) (stdin s) ++ provider
       ++ [EvNow (clock w (ticks s))]),
      (written w (armored ++ newline) name
       ++ [EvPrintExpiry (clock w (ticks s) + ChallengeSolveTime)]
       ++ List.concat passes).
    split; [exact Htemp|]. split.
    { rewrite <- !app_assoc. cbn [app]. reflexivity. }
    split; [now apply Hbefore|].
    apply Forall_app. split; [apply written_not_file|].
    apply Forall_cons; [cbn; tauto|].
    now apply (passes_not_file (clock w (ticks s) + ChallengeSolveTime)).
Qed.

(** ** The expiry instant *)

Lemma valid_lengths_accepted (L : Z) :
  In L valid_lengths ->
  (L <=? 0) || (512 <? L) = false /\ negb (Z.land L (L - 1) =? 0) = false.
Proof.
  intros H. cbn in H.
  repeat (destruct H as [<-|H]; [now split|]). contradiction.
Qed.

Lemma passes_expiry_is (exp : Z) (passes : list (list event)) :
  Forall (pass_of exp) passes -> Forall (expiry_is exp) (List.concat passes).
Proof. apply passes_Forall; cbn; auto. Qed.

(** C7.  The solve window is one minute, and the expiry instant is made once,
    of the clock's reading when the session opens.  In every run of
    [challenge] the events fall in two parts: the first, before the session,
    reads no clock; the second, if the run gets that far, starts with the
    reading [t] of the clock, and every event of it that uses an expiry
    instant uses [t] plus the solve window.  When the run gets to the
    session (a valid length, the key found, the secret generated and
    encrypted, the temporary file created), that is what it does: it reads
    the clock once, shows [t] plus the solve window as the expiry instant,
    and goes through one pass of the loop or more, each of which, when it
    has read a line, reads the clock and tests that reading against the
    same instant [t] plus the solve window. *)
Theorem expiry_fixed_at_construction
  {Key PGPContext PGPMessage : Type} (w : World Key PGPContext PGPMessage)
  (args : list string) (s : State) :
  let t := clock w (ticks s) in
  let exp := t + ChallengeSolveTime in
  ChallengeSolveTime = 60 * 1000000000
  /\ (exists setup session,
        trace (snd (challenge w args s)) = trace s ++ setup ++ session
        /\ Forall setup_event setup
        /\ (session = [] \/ exists rest, session = EvNow t :: rest)
        /\ Forall (expiry_is exp) session)
  /\ (forall arg0 more key input ctx message armored name,
        args = arg0 :: more ->
        In (fst (Atoi arg0)) valid_lengths ->
        key_lookup w (key_id_of more) (stdin s) = (inl key, input) ->
        rand_err w = None ->
        pgp_New w key = inl ctx ->
        pgp_Encrypt w ctx (secret_of w (fst (Atoi arg0))) = inl message ->
        pgp_Armor w message = inl armored ->
        create_temp w = inl name ->
        exists passes,
          passes <> []
          /\ Forall (pass_of exp) passes
          /\ trace (snd (challenge w args s))
             = trace s
               ++ looked_up w (key_id_of more) (stdin s)
               ++ [EvRandRead (Z.to_nat (fst (Atoi arg0))); EvPGPNew;
                   EvPGPEncrypt (secret_of w (fst (Atoi arg0))); EvPGPArmor;
                   EvNow t; EvCreateTemp]
               ++ written w (armored ++ newline) name
               ++ [EvPrintExpiry exp]
               ++ List.concat passes
               ++ [EvRemove name; EvClose name]).
Proof.
  intros t exp. split; [reflexivity|]. split.
  - destruct (challenge_shape w args s) as [new [Hnew Hshape]].
    fold t exp in Hshape.
    assert (Hsetup : forall provider,
      Forall provider_event provider ->
      Forall setup_event
        (looked_up w (key_id_of (tl args)) (stdin s) ++ provider)).
    { intros provider Hp. apply Forall_app. split; [apply looked_up_setup|].
      eapply Forall_impl; [apply provider_event_setup | exact Hp]. }
    destruct Hshape
      as [->
         |[[provider [-> Hp]]
          |[[provider [err [Htemp [-> [Hp Hres]]]]]
           |[provider [name [message [armored [passes
               [Htemp [_ [-> [Hp [_ Hpasses]]]]]]]]]]]]].
    + exists [], []. now repeat split; try constructor; try left.
    + eexists _, []. rewrite app_nil_r.
      split; [exact Hnew|]. split; [now apply Hsetup|].
      split; [now left | constructor].
    + exists (looked_up w (key_id_of (tl args)) (stdin s) ++ provider),
        [EvNow t; EvCreateTemp].
      split; [now rewrite Hnew, <- !app_assoc|].
      split; [now apply Hsetup|].
      split; [right; eexists; reflexivity | repeat constructor].
    + exists (looked_up w (key_id_of (tl args)) (stdin s) ++ provider),
        ([EvNow t; EvCreateTemp]
         ++ written w (armored ++ newline) name
         ++ [EvPrintExpiry exp]
         ++ List.concat passes ++ [EvRemove name; EvClose name]).
      split; [now rewrite Hnew, <- !app_assoc|].
      split; [now apply Hsetup|].
      split; [right; eexists; reflexivity|].
      apply Forall_cons; [exact I|]. apply Forall_cons; [exact I|].
      apply Forall_app. split.
      { unfold written, hint.
        destruct (write_err w); [|destruct (stdout_err w)];
          repeat constructor. }
      apply Forall_cons; [reflexivity|].
      apply Forall_app. split; [now apply passes_expiry_is|].
      repeat constructor.
  - intros arg0 more key input ctx message armored name
      -> HL Hkey Hrand Hnew Henc Harmor Htemp.
    destruct (valid_lengths_accepted _ HL) as [Hrange Hpow].
    rewrite challenge_cases. cbv zeta.
    rewrite Hrange, Hpow, Hkey, Hrand, Hnew, Henc, Harmor, Htemp.
    fold t exp.
    match goal with
    | |- context [verification_loop w exp ?secret ?st] =>
        destruct (verification_loop_passes w exp secret st)
          as [passes [Hne [Hpasses Tl]]];
        destruct (verification_loop w exp secret st) as [r s']
    end.
    cbn [snd fst stdin ticks trace] in *.
    exists passes. split; [exact Hne|]. split; [exact Hpasses|].
    rewrite Tl. cbn [app]. rewrite <- !app_assoc. cbn [app].
    rewrite <- !app_assoc. reflexivity.
Qed.

Lemma expiry_fixed_at_construction_witness :
  let w := Demo.world Demo.bytes (Demo.clock_then (30 * Second)) in
  let s := Demo.start (Demo.lines ["wrong"; "aaaaaaaaaaaaaaaa"]%string) in
  let exp := Second + ChallengeSolveTime in
  exists passes,
    passes <> []
    /\ Forall (pass_of exp) passes
    /\ trace (snd (challenge w ["16"; Demo.key_id]%string s))
       = trace s
         ++ looked_up w Demo.key_id (stdin s)
         ++ [EvRandRead 16; EvPGPNew; EvPGPEncrypt (secret_of w 16);
             EvPGPArmor; EvNow Second; EvCreateTemp]
         ++ written w ("aaaaaaaaaaaaaaaa" ++ newline)
              "/tmp/pgp-mfa-challenge-1"
         ++ [EvPrintExpiry exp]
         ++ List.concat passes
         ++ [EvRemove "/tmp/pgp-mfa-challenge-1";
             EvClose "/tmp/pgp-mfa-challenge-1"].
Proof.
  intros w s exp.
  apply (proj2 (proj2 (expiry_fixed_at_construction
                         w ["16"; Demo.key_id]%string s))
           "16"%string [Demo.key_id] tt (stdin s) tt (secret_of w 16)
           "aaaaaaaaaaaaaaaa"%string "/tmp/pgp-mfa-challenge-1"%string).
  - reflexivity.
  - cbn. tauto.
  - reflexivity.
  - reflexivity.
  - reflexivity.
  - reflexivity.
  - reflexivity.
  - reflexivity.
Defined.

(** ** From the secret to the answer *)

Lemma LF_not_in_charset : ~ in_charset LF.
Proof.
  unfold in_charset. cbn. intros H.
  repeat (destruct H as [H|H]; [discriminate H|]). contradiction.
Qed.

Lemma charset_text_no_LF (text : list byte) :
  Forall in_charset text -> ~ In LF text.
Proof.
  intros Htext Hin. rewrite Forall_forall in Htext.
  apply LF_not_in_charset. now apply Htext.
Qed.

(** A text over the alphabet, typed and followed by a line feed, is read
    back as itself. *)
Lemma TrimSpace_typed_charset (text : list byte) :
  text <> [] -> Forall in_charset text -> TrimSpace (typed text) = text.
Proof.
  intros Hne Htext. unfold typed.
  apply (TrimSpace_padded [] text [LF]); try assumption.
  - exists []. split; [constructor | reflexivity].
  - exact white_space_LF.
Qed.

(** X6.  Generation, encryption and verification fit together.  For every
    valid length, when the key is found, the random source and the provider
    succeed and the temporary file is created, a first line that is the
    secret that was generated, followed by a line feed, read while the clock
    is not past the session's opening plus the solve window, makes
    [challenge] return without error.  The run is one pass of the loop: after
    the setup it prompts once, reads that line, tests the expiry, compares,
    answers "challenge solved!", and removes and closes the file.  Whether
    the armored text could be written does not matter. *)
Theorem typing_the_secret_in_time_solves_the_challenge
  {Key PGPContext PGPMessage : Type} (w : World Key PGPContext PGPMessage)
  (arg0 : string) (more : list string) (s : State)
  (key : Key) (ctx : PGPContext) (message : PGPMessage) (armored name : string)
  (rest : list byte) :
  let L := fst (Atoi arg0) in
  let secret := secret_of w L in
  let t := clock w (ticks s) in
  let exp := t + ChallengeSolveTime in
  let answered := clock w (S (ticks s)) in
  1 <= L <= 512 ->
  power_of_two L ->
  key_lookup w (key_id_of more) (stdin s) = (inl key, typed secret ++ rest) ->
  rand_err w = None ->
  pgp_New w key = inl ctx ->
  pgp_Encrypt w ctx secret = inl message ->
  pgp_Armor w message = inl armored ->
  create_temp w = inl name ->
  answered <= exp ->
  fst (challenge w (arg0 :: more) s) = Ok tt
  /\ ticks (snd (challenge w (arg0 :: more) s)) = S (S (ticks s))
  /\ trace (snd (challenge w (arg0 :: more) s))
     = trace s
       ++ looked_up w (key_id_of more) (stdin s)
       ++ [EvRandRead (Z.to_nat L); EvPGPNew; EvPGPEncrypt secret;
           EvPGPArmor; EvNow t; EvCreateTemp]
       ++ written w (armored ++ newline) name
       ++ [EvPrintExpiry exp;
           Prompt; EvReadString (typed secret); EvNow answered;
           EvBefore exp answered; EvCompare secret secret; Matched;
           EvRemove name; EvClose name].
Proof.
  intros L secret t exp answered
    HL Hpow Hkey Hrand Hnew Henc Harmor Htemp Hclock.
  assert (Hlen : Z.of_nat (List.length secret) = L)
    by (apply secret_of_length; lia).
  assert (Hne : secret <> []).
  { intros E. rewrite E in Hlen. cbn in Hlen. lia. }
  pose proof (secret_of_charset w L) as Hcs. fold secret in Hcs.
  rewrite challenge_cases. cbv zeta. fold L.
  replace (L <=? 0) with false by (symmetry; apply Z.leb_gt; lia).
  replace (512 <? L) with false by (symmetry; apply Z.ltb_ge; lia).
  cbn [orb].
  replace (Z.land L (L - 1) =? 0) with true
    by (symmetry; now apply land_power_of_two).
  cbn [negb]. rewrite Hkey, Hrand, Hnew. fold secret.
  rewrite Henc, Harmor, Htemp. fold t exp.
  rewrite verification_loop_step.
  match goal with
  | |- context [loop_body w exp secret ?st] =>
      rewrite (loop_body_line w exp secret st (typed secret) rest)
        by (cbn [stdin]; apply split_at_delim_typed;
            now apply charset_text_no_LF)
  end.
  cbv zeta. cbn [stdin ticks trace]. fold answered.
  replace (exp <? answered) with false by (symmetry; apply Z.ltb_ge; lia).
  rewrite (TrimSpace_typed_charset secret Hne Hcs).
  replace (ConstantTimeCompare secret secret =? 1) with true
    by (symmetry; now apply ConstantTimeCompare_eqb).
  cbn [fst snd stdin ticks trace].
  split; [reflexivity|]. split; [reflexivity|].
  cbn [app]. rewrite <- !app_assoc. cbn [app]. rewrite <- !app_assoc.
  reflexivity.
Qed.

Lemma typing_the_secret_in_time_solves_the_challenge_witness :
  let w := Demo.world Demo.bytes (Demo.clock_then (30 * Second)) in
  let s := Demo.start (Demo.lines ["aaaaaaaaaaaaaaaa"; "ignored"]%string) in
  let secret := secret_of w 16 in
  let exp := Second + ChallengeSolveTime in
  fst (challenge w ["16"; Demo.key_id]%string s) = Ok tt
  /\ ticks (snd (challenge w ["16"; Demo.key_id]%string s)) = 2%nat
  /\ trace (snd (challenge w ["16"; Demo.key_id]%string s))
     = trace s
       ++ looked_up w Demo.key_id (stdin s)
       ++ [EvRandRead 16; EvPGPNew; EvPGPEncrypt secret;
           EvPGPArmor; EvNow Second; EvCreateTemp]
       ++ written w ("aaaaaaaaaaaaaaaa" ++ newline) "/tmp/pgp-mfa-challenge-1"
       ++ [EvPrintExpiry exp;
           Prompt; EvReadString (typed secret); EvNow (30 * Second);
           EvBefore exp (30 * Second); EvCompare secret secret; Matched;
           EvRemove "/tmp/pgp-mfa-challenge-1";
           EvClose "/tmp/pgp-mfa-challenge-1"].
Proof.
  intros w s secret exp.
  apply (typing_the_secret_in_time_solves_the_challenge
           w "16" [Demo.key_id] s
           tt tt secret "aaaaaaaaaaaaaaaa" "/tmp/pgp-mfa-challenge-1"
           (bytes_of_string (Demo.lines ["ignored"%string]))).
  - cbv. split; discriminate.
  - exists 4%nat. reflexivity.
  - reflexivity.
  - reflexivity.
  - reflexivity.
  - reflexivity.
  - reflexivity.
  - reflexivity.
  - cbv. discriminate.
Defined.

(** ** A failed write of the armored text *)

Section WriteFailure.

Context {Key PGPContext PGPMessage : Type}.
Variable w1 w2 : World Key PGPContext PGPMessage.


End WriteFailure.



(** * The key repository *)

Import Repository.

Lemma ends_with_LF_append (a s : string) :
  ends_with_LF s = true -> ends_with_LF (a ++ s) = true.
Proof.
  intros Hs. induction a as [|c a IH]; [exact Hs|].
  cbn [String.append ends_with_LF]. rewrite IH.
  destruct (a ++ s)%string eqn:E; [|reflexivity].
  discriminate IH.
Qed.

(** A message that ends with a line feed is logged as it is. *)
Lemma log_line_newline (a s : string) :
  log_line (a ++ s ++ newline) = (a ++ s ++ newline)%string.
Proof.
  unfold log_line. rewrite ends_with_LF_append; [reflexivity|].
  apply ends_with_LF_append. reflexivity.
Qed.

Section ImportCases.

Context {Key PGPContext PGPMessage : Type}.
Variable w : World Key PGPContext PGPMessage.
Variable kr : Keyring Key.

(** [importKey] on one argument, by the answers of its collaborators. *)
Lemma importKey_cases (arg0 : string) (p : Process) :
  importKey w kr [arg0] p
  = match openKey kr arg0 with
    | inr _ => (Returned (Err ErrOpenFailed), p)
    | inl keyFile =>
        let p1 := set_stdin (input_after kr keyFile p) p in
        let now := fun i => clock w (i + ticks (io p)) in
        match parsed_from kr keyFile p with
        | inr _ => (Returned (Err ErrFailedRead), p1)
        | inl key =>
            match GetPublicKey kr key with
            | inr _ => (Returned (Err ErrPubKeyFail), p1)
            | inl bytes =>
                if IsPrivate kr key then (Returned (Err ErrKeyPriv), p1)
                else if IsExpired kr key (Unix (now 0%nat)) then
                  (Returned (Err ErrKeyExp), read_clock w 1 p1)
                else
                  let fp := GetFingerprint kr key in
                  let announced :=
                    add_log (now 1%nat) ("importing key: " ++ fp ++ newline)
                      (read_clock w 3 p1) in
                  let inserted :=
                    match insert_err kr with
                    | Some err => inr err
                    | None => sql_insert (mkRow fp bytes (now 2%nat)) (keys p)
                    end in
                  match inserted with
                  | inr err =>
                      (Returned (Err (fmt_Errorf "key import error: " err)),
                       announced)
                  | inl t' =>
                      (Returned (Ok tt),
                       add_log (now 3%nat)
                         ("key imported successfully!" ++ newline)
                         (add_log (now 1%nat)
                            ("importing key: " ++ fp ++ newline)
                            (set_keys t' (read_clock w 4 p1))))
                  end
            end
        end
    end.
Proof.
  unfold importKey. destruct (openKey kr arg0) as [keyFile|err]; [|reflexivity].
  cbv zeta. unfold bindP at 1.
  assert (Hread : read_key kr keyFile p
                  = (Returned (Ok (parsed_from kr keyFile p)),
                     set_stdin (input_after kr keyFile p) p)).
  { unfold read_key, parsed_from, input_after. destruct keyFile as [|content].
    - now destruct (NewKeyFromReader kr (stdin (io p))).
    - unfold set_stdin, set_io. now destruct p as [[i n tr] t l c]. }
  rewrite Hread. clear Hread.
  destruct (parsed_from kr keyFile p) as [key|err]; [|reflexivity].
  destruct (GetPublicKey kr key) as [bytes|err]; [|reflexivity].
  destruct (IsPrivate kr key); [reflexivity|].
  set (input := input_after kr keyFile p).
  destruct p as [[i n tr] t l c].
  unfold log_Print, bindP, liftM, db_Exec_insert, time_Now, failP, retP,
    read_clock, add_log, set_keys, set_stdin, set_io.
  cbn [io keys logged db_closed stdin ticks trace seq map Nat.add].
  destruct (IsExpired kr key (Unix (clock w n))); [reflexivity|].
  cbn [io keys logged db_closed stdin ticks trace].
  rewrite log_line_newline.
  destruct (insert_err kr) as [err|].
  - now rewrite <- !app_assoc.
  - destruct (sql_insert _ t) as [t'|err];
      cbn [io keys logged db_closed stdin ticks trace];
      now rewrite <- !app_assoc.
Qed.

End ImportCases.

Lemma existsb_has_fingerprint (fp : string) (t : Table) :
  existsb (has_fingerprint fp) t = true <-> In fp (fingerprints t).
Proof.
  unfold fingerprints, has_fingerprint. rewrite existsb_exists, in_map_iff.
  split; intros [r [H1 H2]]; exists r.
  - apply String.eqb_eq in H2. now split.
  - split; [exact H2|]. now apply String.eqb_eq.
Qed.

(** The [INSERT] statement adds the row at the end when its fingerprint is
    new, and refuses it otherwise. *)
Lemma sql_insert_cases (r : row) (t : Table) :
  (In (fingerprint r) (fingerprints t) /\ sql_insert r t = inr sql_ErrUnique)
  \/ (~ In (fingerprint r) (fingerprints t) /\ sql_insert r t = inl (t ++ [r])).
Proof.
  unfold sql_insert.
  destruct (existsb (has_fingerprint (fingerprint r)) t) eqn:E.
  - left. split; [now apply existsb_has_fingerprint | reflexivity].
  - right. split; [|reflexivity]. intros H.
    apply existsb_has_fingerprint in H. rewrite H in E. discriminate E.
Qed.

Section ImportProperties.

Context {Key PGPContext PGPMessage : Type}.
Variable w : World Key PGPContext PGPMessage.
Variable kr : Keyring Key.

(** What an import does to the table, in all its ways. *)
Lemma importKey_table (args : list string) (p : Process) :
  (fst (importKey w kr args p) <> Returned (Ok tt)
   /\ keys (snd (importKey w kr args p)) = keys p)
  \/ (exists arg0 keyFile key bytes,
        args = [arg0]
        /\ openKey kr arg0 = inl keyFile
        /\ parsed_from kr keyFile p = inl key
        /\ GetPublicKey kr key = inl bytes
        /\ IsPrivate kr key = false
        /\ IsExpired kr key (Unix (clock w (ticks (io p)))) = false
        /\ ~ In (GetFingerprint kr key) (fingerprints (keys p))
        /\ fst (importKey w kr args p) = Returned (Ok tt)
        /\ keys (snd (importKey w kr args p))
           = keys p
             ++ [mkRow (GetFingerprint kr key) bytes
                   (clock w (2 + ticks (io p)))]).
Proof.
  destruct args as [|arg0 [|arg1 more]];
    [left; split; [discriminate | reflexivity]| |
     left; split; [discriminate | reflexivity]].
  rewrite importKey_cases. cbv zeta.
  destruct (openKey kr arg0) as [keyFile|err] eqn:Hopen;
    [|left; split; [discriminate | reflexivity]].
  destruct (parsed_from kr keyFile p) as [key|err] eqn:Hparsed;
    [|left; split; [discriminate | reflexivity]].
  destruct (GetPublicKey kr key) as [bytes|err] eqn:Hpub;
    [|left; split; [discriminate | reflexivity]].
  destruct (IsPrivate kr key) eqn:Hpriv;
    [left; split; [discriminate | reflexivity]|].
  destruct (IsExpired kr key (Unix (clock w (0 + ticks (io p))))) eqn:Hexp;
    [left; split; [discriminate | reflexivity]|].
  destruct (insert_err kr) as [err|];
    [left; split; [discriminate | reflexivity]|].
  destruct (sql_insert_cases
              (mkRow (GetFingerprint kr key) bytes (clock w (2 + ticks (io p))))
              (keys p)) as [[Hin Hins]|[Hnew Hins]]; rewrite Hins.
  - left. split; [discriminate | reflexivity].
  - right. exists arg0, keyFile, key, bytes. repeat split; assumption.
Qed.

End ImportProperties.

(** X8.  Only public keys that have not expired and are not in the table yet
    are stored, and an import that fails stores nothing.  Whatever its
    arguments and collaborators, [importKey] either ends otherwise than with
    success and leaves the table as it was, or it succeeds on a single
    argument whose key is public, is not expired at the Unix second of the
    first clock reading and has a fingerprint the table did not hold, and
    the table gains one row, at its end, with that fingerprint, the public
    key's bytes and the clock's third reading. *)
Theorem import_stores_only_valid_new_keys
  {Key PGPContext PGPMessage : Type} (w : World Key PGPContext PGPMessage)
  (kr : Keyring Key) (args : list string) (p : Process) :
  (fst (importKey w kr args p) <> Returned (Ok tt)
   /\ keys (snd (importKey w kr args p)) = keys p)
  \/ (exists arg0 keyFile key bytes,
        args = [arg0]
        /\ openKey kr arg0 = inl keyFile
        /\ parsed_from kr keyFile p = inl key
        /\ GetPublicKey kr key = inl bytes
        /\ IsPrivate kr key = false
        /\ IsExpired kr key (Unix (clock w (ticks (io p)))) = false
        /\ ~ In (GetFingerprint kr key) (fingerprints (keys p))
        /\ fst (importKey w kr args p) = Returned (Ok tt)
        /\ keys (snd (importKey w kr args p))
           = keys p
             ++ [mkRow (GetFingerprint kr key) bytes
                   (clock w (2 + ticks (io p)))]).
Proof. apply importKey_table. Qed.

(** X9.  The table never holds two rows with one fingerprint: an import,
    however it ends, keeps the fingerprints pairwise distinct. *)
Theorem import_keeps_fingerprints_unique
  {Key PGPContext PGPMessage : Type} (w : World Key PGPContext PGPMessage)
  (kr : Keyring Key) (args : list string) (p : Process) :
  NoDup (fingerprints (keys p)) ->
  NoDup (fingerprints (keys (snd (importKey w kr args p)))).
Proof.
  intros Hnodup.
  destruct (importKey_table w kr args p)
    as [[_ ->]|[arg0 [keyFile [key [bytes
          [_ [_ [_ [_ [_ [_ [Hnew [_ ->]]]]]]]]]]]]]; [exact Hnodup|].
  unfold fingerprints in *. rewrite map_app. cbn [map fingerprint].
  apply NoDup_app; [exact Hnodup | repeat constructor; intros [] |].
  intros fp Hin [<-|[]]. contradiction.
Qed.

Lemma import_keeps_fingerprints_unique_witness :
  let w := DemoRepo.world DemoRepo.ticking in
  let p := DemoRepo.start EmptyString [mkRow "a1b2c3" [] 0] in
  NoDup (fingerprints (keys (snd (importKey w DemoRepo.keyring
                                    ["alice.asc"%string] p))))
  /\ NoDup (fingerprints (keys (snd (importKey w DemoRepo.keyring
                                       ["bob.asc"%string] p)))).
Proof.
  intros w p. split.
  - apply (import_keeps_fingerprints_unique
             w DemoRepo.keyring ["alice.asc"%string] p).
    cbn. repeat constructor. intros [].
  - apply (import_keeps_fingerprints_unique
             w DemoRepo.keyring ["bob.asc"%string] p).
    cbn. repeat constructor. intros [].
Defined.

(** X10.  The tests of [importKey] come in a fixed order.  A key that is
    private is refused as private before the clock is read, even when it has
    expired as well or is in the table already; a public key that has expired
    at the Unix second of the clock's reading is refused as expired before
    anything is logged.  Neither touches the table. *)
Theorem import_rejects_private_then_expired_keys
  {Key PGPContext PGPMessage : Type} (w : World Key PGPContext PGPMessage)
  (kr : Keyring Key) (arg0 : string) (keyFile : File) (key : Key)
  (bytes : list byte) (p : Process) :
  openKey kr arg0 = inl keyFile ->
  parsed_from kr keyFile p = inl key ->
  GetPublicKey kr key = inl bytes ->
  let p1 := set_stdin (input_after kr keyFile p) p in
  (IsPrivate kr key = true ->
   importKey w kr [arg0] p = (Returned (Err ErrKeyPriv), p1))
  /\ (IsPrivate kr key = false ->
      IsExpired kr key (Unix (clock w (ticks (io p)))) = true ->
      importKey w kr [arg0] p
      = (Returned (Err ErrKeyExp), read_clock w 1 p1)).
Proof.
  intros Hopen Hparsed Hpub p1. rewrite importKey_cases, Hopen. cbv zeta.
  rewrite Hparsed, Hpub. split.
  - intros ->. reflexivity.
  - intros -> Hexp. cbn [Nat.add]. now rewrite Hexp.
Qed.

Lemma import_rejects_private_then_expired_keys_witness :
  let w := DemoRepo.world DemoRepo.ticking in
  let p := DemoRepo.start EmptyString [] in
  importKey w DemoRepo.keyring ["secret.asc"%string] p
  = (Returned (Err ErrKeyPriv), p)
  /\ importKey w DemoRepo.keyring ["old.asc"%string] p
     = (Returned (Err ErrKeyExp),
        mkProcess (mkState [] 1 [EvNow DemoRepo.year_2024]) [] [] false).
Proof.
  intros w p. split.
  - apply (proj1 (import_rejects_private_then_expired_keys
                    w DemoRepo.keyring "secret.asc"
                    (Opened (bytes_of_string "S-00ff00"))
                    (bytes_of_string "S-00ff00")
                    (bytes_of_string "P-00ff00") p
                    eq_refl eq_refl eq_refl)).
    reflexivity.
  - apply (proj2 (import_rejects_private_then_expired_keys
                    w DemoRepo.keyring "old.asc"
                    (Opened (bytes_of_string "Pxdead00"))
                    (bytes_of_string "Pxdead00")
                    (bytes_of_string "Pxdead00") p
                    eq_refl eq_refl eq_refl)).
    + reflexivity.
    + reflexivity.
Defined.

(** X11.  A key whose fingerprint the table holds already cannot be imported
    again: the [INSERT] statement fails on the primary key, and [importKey]
    returns that failure behind the prefix "key import error: ", after it has
    logged that it is importing the key, and leaves the table as it was.  The
    error [ErrAlreadyImported], which the program declares, is returned by
    no run of [importKey]. *)
Theorem import_of_a_known_fingerprint_fails
  {Key PGPContext PGPMessage : Type} (w : World Key PGPContext PGPMessage)
  (kr : Keyring Key) (arg0 : string) (keyFile : File) (key : Key)
  (bytes : list byte) (p : Process) :
  (openKey kr arg0 = inl keyFile ->
   parsed_from kr keyFile p = inl key ->
   GetPublicKey kr key = inl bytes ->
   IsPrivate kr key = false ->
   IsExpired kr key (Unix (clock w (ticks (io p)))) = false ->
   insert_err kr = None ->
   In (GetFingerprint kr key) (fingerprints (keys p)) ->
   importKey w kr [arg0] p
   = (Returned (Err (fmt_Errorf "key import error: " sql_ErrUnique)),
      add_log (clock w (1 + ticks (io p)))
        ("importing key: " ++ GetFingerprint kr key ++ newline)
        (read_clock w 3 (set_stdin (input_after kr keyFile p) p))))
  /\ (forall args p0,
        fst (importKey w kr args p0) <> Returned (Err ErrAlreadyImported)).
Proof.
  split.
  - intros Hopen Hparsed Hpub Hpriv Hexp Hins Hin.
    rewrite importKey_cases, Hopen. cbv zeta.
    rewrite Hparsed, Hpub, Hpriv. cbn [Nat.add]. rewrite Hexp, Hins.
    destruct (sql_insert_cases
                (mkRow (GetFingerprint kr key) bytes
                   (clock w (S (S (ticks (io p))))))
                (keys p)) as [[_ ->]|[Hnew _]]; [reflexivity|].
    now contradiction Hnew.
  - intros args p0. destruct args as [|a [|a' more]]; [discriminate| |discriminate].
    rewrite importKey_cases. cbv zeta.
    destruct (openKey kr a) as [f|err]; [|discriminate].
    destruct (parsed_from kr f p0) as [k|err]; [|discriminate].
    destruct (GetPublicKey kr k) as [b|err]; [|discriminate].
    destruct (IsPrivate kr k); [discriminate|].
    destruct (IsExpired kr k _); [discriminate|].
    destruct (insert_err kr) as [err|]; [discriminate|].
    destruct (sql_insert _ (keys p0)); discriminate.
Qed.

Lemma import_of_a_known_fingerprint_fails_witness :
  let w := DemoRepo.world DemoRepo.ticking in
  let p := DemoRepo.start EmptyString [mkRow "a1b2c3" [] 0] in
  importKey w DemoRepo.keyring ["alice.asc"%string] p
  = (Returned (Err (fmt_Errorf "key import error: " sql_ErrUnique)),
     mkProcess
       (mkState [] 3
          [EvNow (DemoRepo.ticking 0); EvNow (DemoRepo.ticking 1);
           EvNow (DemoRepo.ticking 2)])
       [mkRow "a1b2c3" [] 0]
       [(DemoRepo.ticking 1, ("importing key: a1b2c3" ++ newline)%string)]
       false).
Proof.
  intros w p.
  apply (proj1 (import_of_a_known_fingerprint_fails
                  w DemoRepo.keyring "alice.asc"
                  (Opened (bytes_of_string "P-a1b2c3"))
                  (bytes_of_string "P-a1b2c3")
                  (bytes_of_string "P-a1b2c3") p)).
  - reflexivity.
  - reflexivity.
  - reflexivity.
  - reflexivity.
  - reflexivity.
  - reflexivity.
  - cbn. left. reflexivity.
Defined.

(** ** [getKey] *)

Lemma traced_nil (p : Process) : traced [] p = p.
Proof.
  destruct p as [[i n tr] t l c]. unfold traced, set_io. cbn.
  now rewrite app_nil_r.
Qed.

Lemma traced_traced (a b : list event) (p : Process) :
  traced b (traced a p) = traced (a ++ b) p.
Proof. unfold traced, set_io. cbn. now rewrite app_assoc. Qed.

Section Lookup.

Context {Key : Type}.
Variable kr : Keyring Key.

(** The loop of the interactive mode over rows that all parse. *)
Lemma list_keys_parse (rows : list (string * list byte)) :
  forall (i : nat) (found ks : list Key) (p : Process),
    parse_as kr rows ks ->
    list_keys kr i found rows p
    = (Returned (Ok (found ++ ks)), traced (listing i rows) p).
Proof.
  unfold parse_as.
  induction rows as [|[fp pubKey] rest IH]; intros i found ks p Hks.
  - destruct ks; [|discriminate Hks]. cbn [list_keys listing retP].
    now rewrite app_nil_r, traced_nil.
  - destruct ks as [|key ks]; [discriminate Hks|].
    cbn [map snd] in Hks. injection Hks as Hkey Hrest.
    cbn [list_keys listing]. rewrite Hkey. unfold bindP at 1.
    unfold liftM, Print, emit. cbn [io].
    rewrite (IH (S i) (found ++ [key]) ks _ Hrest).
    rewrite <- app_assoc. cbn [app]. f_equal.
    destruct p as [[input n tr] t l c]. unfold traced, set_io. cbn.
    now rewrite <- app_assoc.
Qed.

(** The loop stops at the first row whose key does not parse. *)
Lemma list_keys_corrupt (before after : list (string * list byte))
  (fp : string) (pubKey : list byte) (err : error) :
  forall (i : nat) (found ks : list Key) (p : Process),
    parse_as kr before ks ->
    fst (NewKeyFromReader kr pubKey) = inr err ->
    list_keys kr i found (before ++ (fp, pubKey) :: after) p
    = (Returned (Err (fmt_Errorf "failed to parse key: " err)),
       traced (listing i before) p).
Proof.
  unfold parse_as.
  induction before as [|[fp' pubKey'] rest IH]; intros i found ks p Hks Herr.
  - cbn [app list_keys listing]. rewrite Herr. unfold failP.
    now rewrite traced_nil.
  - destruct ks as [|key ks]; [discriminate Hks|].
    cbn [map snd] in Hks. injection Hks as Hkey Hrest.
    cbn [app list_keys listing]. rewrite Hkey. unfold bindP at 1.
    unfold liftM, Print, emit. cbn [io].
    rewrite (IH (S i) (found ++ [key]) ks _ Hrest Herr). f_equal.
    destruct p as [[input n tr] t l c]. unfold traced, set_io. cbn.
    now rewrite <- app_assoc.
Qed.

End Lookup.

(** X12.  In the interactive mode the numbers offered are the positions of
    the keys.  When no key-id is given and the stored keys all parse,
    [getKey] prints one line per row, numbered from 0 in the order of the
    query, then the prompt, and reads a choice: a choice that numbers a line
    returns the key of that line, and any other choice, negative or beyond
    the last line, is answered with "invalid choice".  With an empty table
    every choice is invalid. *)
Theorem interactive_choice_selects_the_listed_key
  {Key : Type} (kr : Keyring Key) (ks : list Key) (choice : Z)
  (rest : list byte) (p : Process) :
  query_err kr = None ->
  parse_as kr (sql_select_all (keys p)) ks ->
  Scanf_d kr (stdin (io p)) = (inl choice, rest) ->
  let asked :=
    set_stdin rest
      (traced (listing 0 (sql_select_all (keys p))
               ++ [EvPrint "select a key: "]) p) in
  (0 <= choice < Z.of_nat (List.length ks) ->
   exists key,
     nth_error ks (Z.to_nat choice) = Some key
     /\ getKey kr EmptyString p = (Returned (Ok key), asked))
  /\ (choice < 0 \/ Z.of_nat (List.length ks) <= choice ->
      getKey kr EmptyString p
      = (Returned (Err (errors_New "invalid choice")), asked)).
Proof.
  intros Hquery Hks Hscan asked.
  assert (Hrun :
    getKey kr EmptyString p
    = if (choice <? 0) || (Z.of_nat (List.length ks) <=? choice) then
        (Returned (Err (errors_New "invalid choice")), asked)
      else
        match nth_error ks (Z.to_nat choice) with
        | Some key => (Returned (Ok key), asked)
        | None => (Returned (Panic "index out of range"), asked)
        end).
  { subst asked. destruct p as [[input n tr] t l c].
    cbn [io keys stdin] in *.
    unfold getKey. cbn [String.length Nat.ltb Nat.leb]. rewrite Hquery.
    unfold bindP at 1. unfold bindP at 1. cbn [keys].
    rewrite (list_keys_parse kr _ 0 [] ks _ Hks). cbn [app].
    unfold bindP, liftM, Scanf_choice, Print, emit, failP, retP, traced,
      set_stdin, set_io.
    cbn [io keys logged db_closed stdin ticks trace]. rewrite Hscan.
    rewrite <- !app_assoc.
    destruct ((choice <? 0) || (Z.of_nat (List.length ks) <=? choice));
      [reflexivity|].
    now destruct (nth_error ks (Z.to_nat choice)). }
  rewrite Hrun. split.
  - intros Hc.
    replace (choice <? 0) with false by (symmetry; apply Z.ltb_ge; lia).
    replace (Z.of_nat (List.length ks) <=? choice) with false
      by (symmetry; apply Z.leb_gt; lia).
    cbn [orb].
    destruct (nth_error ks (Z.to_nat choice)) as [key|] eqn:E.
    + now exists key.
    + apply nth_error_None in E. lia.
  - intros Hc.
    replace ((choice <? 0) || (Z.of_nat (List.length ks) <=? choice))
      with true; [reflexivity|].
    symmetry. apply orb_true_iff.
    destruct Hc; [left; apply Z.ltb_lt | right; apply Z.leb_le]; lia.
Qed.

Lemma interactive_choice_selects_the_listed_key_witness :
  let table :=
    [mkRow "a1b2c3" (bytes_of_string "P-a1b2c3") 10;
     mkRow "0d0e0f" (bytes_of_string "P-0d0e0f") 20] in
  let p := DemoRepo.start (Demo.lines ["1"%string]) table in
  let asked :=
    mkProcess
      (mkState [] 0
         [EvPrint ("[0]: 0d0e0f" ++ newline);
          EvPrint ("[1]: a1b2c3" ++ newline);
          EvPrint "select a key: "])
      table [] false in
  exists key,
    nth_error [bytes_of_string "P-0d0e0f"; bytes_of_string "P-a1b2c3"] 1
    = Some key
    /\ getKey DemoRepo.keyring EmptyString p = (Returned (Ok key), asked).
Proof.
  intros table p asked.
  apply (proj1 (interactive_choice_selects_the_listed_key
                  DemoRepo.keyring
                  [bytes_of_string "P-0d0e0f"; bytes_of_string "P-a1b2c3"]
                  1 [] p eq_refl eq_refl eq_refl)).
  cbn. lia.
Defined.

(** X13.  One stored key that does not parse blocks the interactive mode for
    every key.  When no key-id is given and the key of some row fails to
    parse while those listed before it parse, [getKey] returns that failure
    behind the prefix "failed to parse key: " after the lines of the rows
    before: it neither prompts nor reads a choice, whatever rows follow. *)
Theorem one_unreadable_key_blocks_the_selection
  {Key : Type} (kr : Keyring Key) (ks : list Key)
  (before after : list (string * list byte)) (fp : string)
  (pubKey : list byte) (err : error) (p : Process) :
  query_err kr = None ->
  sql_select_all (keys p) = before ++ (fp, pubKey) :: after ->
  parse_as kr before ks ->
  fst (NewKeyFromReader kr pubKey) = inr err ->
  getKey kr EmptyString p
  = (Returned (Err (fmt_Errorf "failed to parse key: " err)),
     traced (listing 0 before) p).
Proof.
  intros Hquery Hrows Hks Herr. unfold getKey.
  cbn [String.length Nat.ltb Nat.leb]. rewrite Hquery.
  unfold bindP at 1. unfold bindP at 1. rewrite Hrows.
  now rewrite (list_keys_corrupt kr before after fp pubKey err 0 [] ks p Hks Herr).
Qed.

Lemma one_unreadable_key_blocks_the_selection_witness :
  let table :=
    [mkRow "a1b2c3" (bytes_of_string "P-a1b2c3") 10;
     mkRow "ffffff" (bytes_of_string "garbage") 15;
     mkRow "0d0e0f" (bytes_of_string "P-0d0e0f") 20] in
  let p := DemoRepo.start (Demo.lines ["0"%string]) table in
  getKey DemoRepo.keyring EmptyString p
  = (Returned
       (Err (fmt_Errorf "failed to parse key: "
               (External "openpgp: invalid data"))),
     mkProcess
       (mkState (bytes_of_string (Demo.lines ["0"%string])) 0
          [EvPrint ("[0]: 0d0e0f" ++ newline)])
       table [] false).
Proof.
  intros table p.
  apply (one_unreadable_key_blocks_the_selection
           DemoRepo.keyring [bytes_of_string "P-0d0e0f"]
           [("0d0e0f"%string, bytes_of_string "P-0d0e0f")]
           [("a1b2c3"%string, bytes_of_string "P-a1b2c3")]
           "ffffff" (bytes_of_string "garbage")
           (External "openpgp: invalid data") p).
  - reflexivity.
  - reflexivity.
  - reflexivity.
  - reflexivity.
Defined.

Lemma filter_no_fingerprint (fp : string) (t : Table) :
  ~ In fp (fingerprints t) -> filter (has_fingerprint fp) t = [].
Proof.
  intros Hnot. induction t as [|r t IH]; [reflexivity|].
  cbn [filter]. destruct (has_fingerprint fp r) eqn:E.
  - exfalso. apply Hnot. left. now apply String.eqb_eq.
  - apply IH. intros H. apply Hnot. now right.
Qed.

(** X14.  A key-id that names no stored key is answered at once.  When the
    key-id is not empty and the table holds no row whose fingerprint is the
    key-id in lower case, [getKey] returns the failure of the scan behind the
    prefix "failed to scan row: " and does nothing else: it lists nothing,
    does not prompt and reads nothing from the input. *)
Theorem unknown_fingerprint_is_not_found
  {Key : Type} (kr : Keyring Key) (id : string) (p : Process) :
  id <> EmptyString ->
  query_err kr = None ->
  ~ In (ToLower kr id) (fingerprints (keys p)) ->
  getKey kr id p
  = (Returned (Err (fmt_Errorf "failed to scan row: " sql_errRowsClosed)), p).
Proof.
  intros Hid Hquery Hnot. unfold getKey.
  destruct id as [|c id]; [contradiction|].
  cbn [String.length Nat.ltb Nat.leb]. rewrite Hquery.
  unfold sql_select_pub_key. now rewrite filter_no_fingerprint.
Qed.

Lemma unknown_fingerprint_is_not_found_witness :
  let p :=
    DemoRepo.start (Demo.lines ["0"%string])
      [mkRow "a1b2c3" (bytes_of_string "P-a1b2c3") 10] in
  getKey DemoRepo.keyring "A1B2C4" p
  = (Returned (Err (fmt_Errorf "failed to scan row: " sql_errRowsClosed)), p).
Proof.
  intros p. apply (unknown_fingerprint_is_not_found DemoRepo.keyring "A1B2C4" p).
  - discriminate.
  - reflexivity.
  - cbv. intros [H|[]]. discriminate H.
Defined.

(** X15.  What is imported can be looked up.  After [importKey] has
    succeeded on a key, [getKey] with any key-id that is not empty and whose
    lower case is the key's fingerprint, so in whatever case the digits of an
    ASCII fingerprint are typed, returns what the stored public key parses
    to, without prompting. *)
Theorem imported_key_is_found_by_its_fingerprint
  {Key PGPContext PGPMessage : Type} (w : World Key PGPContext PGPMessage)
  (kr : Keyring Key) (arg0 id : string) (keyFile : File) (key : Key)
  (bytes : list byte) (p p' : Process) :
  openKey kr arg0 = inl keyFile ->
  parsed_from kr keyFile p = inl key ->
  GetPublicKey kr key = inl bytes ->
  importKey w kr [arg0] p = (Returned (Ok tt), p') ->
  query_err kr = None ->
  id <> EmptyString ->
  ToLower kr id = GetFingerprint kr key ->
  getKey kr id p'
  = (match fst (NewKeyFromReader kr bytes) with
     | inl stored => Returned (Ok stored)
     | inr err => Returned (Err err)
     end,
     p').
Proof.
  intros Hopen Hparsed Hpub Himport Hquery Hid Hlower.
  assert (Hkeys :
    ~ In (GetFingerprint kr key) (fingerprints (keys p))
    /\ keys p'
       = keys p
         ++ [mkRow (GetFingerprint kr key) bytes (clock w (2 + ticks (io p)))]).
  { destruct (importKey_table w kr [arg0] p)
      as [[Hfail _]|[a [f [k [b [Ha [Hf [Hk [Hb [_ [_ [Hnew [_ Hrow]]]]]]]]]]]]].
    - rewrite Himport in Hfail. now contradiction Hfail.
    - injection Ha as <-. rewrite Hopen in Hf. injection Hf as <-.
      rewrite Hparsed in Hk. injection Hk as <-.
      rewrite Hpub in Hb. injection Hb as <-.
      rewrite Himport in Hrow. now split. }
  destruct Hkeys as [Hnew Hrow].
  unfold getKey. destruct id as [|c id]; [contradiction|].
  cbn [String.length Nat.ltb Nat.leb]. rewrite Hquery, Hlower.
  unfold sql_select_pub_key. rewrite Hrow, filter_app.
  rewrite filter_no_fingerprint by exact Hnew.
  cbn [filter app]. unfold has_fingerprint at 1. cbn [fingerprint].
  rewrite String.eqb_refl.
  cbn [map pub_key]. now destruct (fst (NewKeyFromReader kr bytes)).
Qed.

Lemma imported_key_is_found_by_its_fingerprint_witness :
  let w := DemoRepo.world DemoRepo.ticking in
  let p := DemoRepo.start EmptyString [] in
  let p' := snd (importKey w DemoRepo.keyring ["alice.asc"%string] p) in
  getKey DemoRepo.keyring "A1b2C3" p'
  = (Returned (Ok (bytes_of_string "P-a1b2c3")), p').
Proof.
  intros w p p'.
  apply (imported_key_is_found_by_its_fingerprint
           w DemoRepo.keyring "alice.asc" "A1b2C3"
           (Opened (bytes_of_string "P-a1b2c3"))
           (bytes_of_string "P-a1b2c3") (bytes_of_string "P-a1b2c3") p p').
  - reflexivity.
  - reflexivity.
  - reflexivity.
  - reflexivity.
  - reflexivity.
  - discriminate.
  - reflexivity.
Defined.

Lemma insert_desc_Permutation (r : row) (sorted : list row) :
  Permutation (insert_desc r sorted) (r :: sorted).
Proof.
  induction sorted as [|r' rest IH]; cbn [insert_desc]; [reflexivity|].
  destruct (created_at r' <? created_at r); [reflexivity|].
  rewrite IH. apply perm_swap.
Qed.

Lemma order_by_created_at_desc_Permutation (t : Table) :
  Permutation (order_by_created_at_desc t) t.
Proof.
  induction t as [|r t IH]; cbn [order_by_created_at_desc]; [reflexivity|].
  rewrite insert_desc_Permutation. now apply perm_skip.
Qed.

(** X16.  A key that was imported is offered by the interactive selection,
    and no key is lost by an import.  After [importKey] has succeeded, the
    rows that the query of the interactive mode delivers are the new key's
    fingerprint with its public key and the rows that the query delivered
    before, each as often as before, in some order. *)
Theorem imported_key_is_listed
  {Key PGPContext PGPMessage : Type} (w : World Key PGPContext PGPMessage)
  (kr : Keyring Key) (arg0 : string) (keyFile : File) (key : Key)
  (bytes : list byte) (p p' : Process) :
  openKey kr arg0 = inl keyFile ->
  parsed_from kr keyFile p = inl key ->
  GetPublicKey kr key = inl bytes ->
  importKey w kr [arg0] p = (Returned (Ok tt), p') ->
  Permutation (sql_select_all (keys p'))
    ((GetFingerprint kr key, bytes) :: sql_select_all (keys p))
  /\ In (GetFingerprint kr key, bytes) (sql_select_all (keys p'))
  /\ List.length (listing 0 (sql_select_all (keys p')))
     = S (List.length (listing 0 (sql_select_all (keys p)))).
Proof.
  intros Hopen Hparsed Hpub Himport.
  assert (Hrow :
    keys p'
    = keys p
      ++ [mkRow (GetFingerprint kr key) bytes (clock w (2 + ticks (io p)))]).
  { destruct (importKey_table w kr [arg0] p)
      as [[Hfail _]|[a [f [k [b [Ha [Hf [Hk [Hb [_ [_ [_ [_ Hrow]]]]]]]]]]]]].
    - rewrite Himport in Hfail. now contradiction Hfail.
    - injection Ha as <-. rewrite Hopen in Hf. injection Hf as <-.
      rewrite Hparsed in Hk. injection Hk as <-.
      rewrite Hpub in Hb. injection Hb as <-.
      now rewrite Himport in Hrow. }
  assert (Hperm :
    Permutation (sql_select_all (keys p'))
      ((GetFingerprint kr key, bytes) :: sql_select_all (keys p))).
  { unfold sql_select_all. rewrite Hrow.
    change ((GetFingerprint kr key, bytes)
            :: map (fun r => (fingerprint r, pub_key r))
                 (order_by_created_at_desc (keys p)))
      with (map (fun r => (fingerprint r, pub_key r))
              (mkRow (GetFingerprint kr key) bytes
                 (clock w (2 + ticks (io p)))
               :: order_by_created_at_desc (keys p))).
    apply Permutation_map.
    rewrite !order_by_created_at_desc_Permutation.
    rewrite Permutation_app_comm. reflexivity. }
  assert (Hlen : forall rows i, List.length (listing i rows) = List.length rows).
  { induction rows as [|[fp pubKey] rows IH]; intros i; [reflexivity|].
    cbn [listing List.length]. now rewrite IH. }
  split; [exact Hperm|]. split.
  - eapply Permutation_in; [symmetry; exact Hperm | now left].
  - rewrite !Hlen. now rewrite (Permutation_length Hperm).
Qed.

Lemma imported_key_is_listed_witness :
  let w := DemoRepo.world DemoRepo.ticking in
  let p :=
    DemoRepo.start EmptyString
      [mkRow "0d0e0f" (bytes_of_string "P-0d0e0f") 20] in
  let p' := snd (importKey w DemoRepo.keyring ["alice.asc"%string] p) in
  Permutation (sql_select_all (keys p'))
    (("a1b2c3"%string, bytes_of_string "P-a1b2c3") :: sql_select_all (keys p))
  /\ In ("a1b2c3"%string, bytes_of_string "P-a1b2c3")
       (sql_select_all (keys p'))
  /\ List.length (listing 0 (sql_select_all (keys p')))
     = S (List.length (listing 0 (sql_select_all (keys p)))).
Proof.
  intros w p p'.
  exact (imported_key_is_listed
           w DemoRepo.keyring "alice.asc"
           (Opened (bytes_of_string "P-a1b2c3"))
           (bytes_of_string "P-a1b2c3") (bytes_of_string "P-a1b2c3") p p'
           eq_refl eq_refl eq_refl eq_refl).
Defined.

(** * The commands under [main] *)

Section Main.

Context {Key PGPContext PGPMessage : Type}.
Variable w : World Key PGPContext PGPMessage.
Variable kr : Keyring Key.

Lemma liftM_returns {A : Type} (m : M A) (p : Process) :
  liftM m p = (Returned (fst (m (io p))), set_io (snd (m (io p))) p).
Proof. unfold liftM. now destruct (m (io p)). Qed.

(** [main] on a known command, by the way the command ends. *)
Lemma main_cases (prog cmd : string) (args : list string)
  (fn : list string -> P unit) (p : Process) :
  commands w kr cmd = Some fn ->
  main w kr (prog :: cmd :: args) p
  = match fn args p with
    | (Returned (Err err), p') => (Exited 1, fatal_error w err p')
    | (Returned o, p') => (Returned o, db_Close p')
    | (Exited code, p') => (Exited code, p')
    end.
Proof.
  intros Hfn. unfold main, deferP. rewrite Hfn.
  now destruct (fn args p) as [[[u|err|msg|]|code] p'].
Qed.

(** A command leaves the database open, and exits with the status 1 if it
    exits. *)
Lemma command_endings (cmd : string) (fn : list string -> P unit)
  (args : list string) (p : Process) :
  commands w kr cmd = Some fn ->
  db_closed (snd (fn args p)) = db_closed p
  /\ (forall code, fst (fn args p) = Exited code -> code = 1).
Proof.
  unfold commands. intros Hfn.
  destruct (cmd =? "help")%string;
    [|destruct (cmd =? "import")%string;
      [|destruct (cmd =? "challenge")%string; [|discriminate]]];
    injection Hfn as <-.
  - unfold help. rewrite liftM_returns. split; [reflexivity | discriminate].
  - destruct args as [|arg0 [|arg1 more]].
    + split; [reflexivity|]. intros code H. now injection H as <-.
    + rewrite importKey_cases. cbv zeta.
      destruct (openKey kr arg0); [|split; [reflexivity | discriminate]].
      destruct (parsed_from kr f p); [|split; [reflexivity | discriminate]].
      destruct (GetPublicKey kr k); [|split; [reflexivity | discriminate]].
      destruct (IsPrivate kr k); [split; [reflexivity | discriminate]|].
      destruct (IsExpired kr k _); [split; [reflexivity | discriminate]|].
      destruct (insert_err kr); [split; [reflexivity | discriminate]|].
      destruct (sql_insert _ _); split; try reflexivity; discriminate.
    + split; [reflexivity|]. intros code H. now injection H as <-.
  - unfold challenge_command. rewrite liftM_returns.
    split; [reflexivity | discriminate].
Qed.

End Main.

(** ** What the command [challenge] shows *)

Section LookupShows.

Context {Key : Type}.
Variable kr : Keyring Key.

(** The stored keys all parse, or there is a first one that does not. *)
Lemma rows_parse_or_not (rows : list (string * list byte)) :
  (exists ks, parse_as kr rows ks)
  \/ (exists before fp pubKey after err ks,
        rows = before ++ (fp, pubKey) :: after
        /\ parse_as kr before ks
        /\ fst (NewKeyFromReader kr pubKey) = inr err).
Proof.
  unfold parse_as. induction rows as [|[fp pubKey] rest IH].
  - left. now exists [].
  - destruct (fst (NewKeyFromReader kr pubKey)) as [key|err] eqn:Hkey.
    + destruct IH as [[ks Hks]
                     |[before [fp' [pubKey' [after [err [ks [-> [Hks Herr]]]]]]]]].
      * left. exists (key :: ks). cbn [map snd]. now rewrite Hkey, Hks.
      * right. exists ((fp, pubKey) :: before), fp', pubKey', after, err,
          (key :: ks).
        split; [reflexivity|]. split; [|exact Herr].
        cbn [map snd]. now rewrite Hkey, Hks.
    + right. exists [], fp, pubKey, rest, err, [].
      split; [reflexivity|]. now split.
Qed.

Lemma listing_app (a b : list (string * list byte)) :
  forall i, listing i (a ++ b) = listing i a ++ listing (List.length a + i) b.
Proof.
  induction a as [|[fp pubKey] a IH]; intros i; [reflexivity|].
  cbn [app listing List.length]. rewrite IH. cbn [app].
  now rewrite Nat.add_succ_r.
Qed.

(** [getKey] returns, with a key or an error; it changes nothing but the
    console, and all it prints there is lines of the listing of the table
    and the prompt of the selection. *)
Lemma getKey_returns (fingerprint : string) (p : Process) :
  exists r p' events,
    getKey kr fingerprint p = (Returned r, p')
    /\ ((exists key, r = Ok key) \/ (exists err, r = Err err))
    /\ trace (io p') = trace (io p) ++ events
    /\ Forall
         (fun e =>
            In e (listing 0 (sql_select_all (keys p)))
            \/ e = EvPrint "select a key: ")
         events.
Proof.
  unfold getKey.
  destruct (0 <? String.length fingerprint)%nat.
  - destruct (query_err kr) as [err|].
    + eexists _, _, []. rewrite app_nil_r. unfold failP.
      split; [reflexivity|]. split; [eauto|]. now split.
    + destruct (sql_select_pub_key (ToLower kr fingerprint) (keys p))
        as [|pubKey others].
      * eexists _, _, []. rewrite app_nil_r. unfold failP.
      split; [reflexivity|]. split; [eauto|]. now split.
      * destruct (fst (NewKeyFromReader kr pubKey)) as [key|err];
          eexists _, _, []; rewrite app_nil_r;
          (split; [reflexivity|]); (split; [eauto|]); now split.
  - destruct (query_err kr) as [err|].
    + eexists _, _, []. rewrite app_nil_r. unfold failP.
      split; [reflexivity|]. split; [eauto|]. now split.
    + unfold bindP at 1. unfold bindP at 1.
      destruct (rows_parse_or_not (sql_select_all (keys p)))
        as [[ks Hks]
           |[before [fp [pubKey [after [err [ks [Hrows [Hks Herr]]]]]]]]].
      * rewrite (list_keys_parse kr _ 0 [] ks _ Hks). cbn [app].
        destruct p as [[input n tr] t l c].
        unfold bindP, liftM, Scanf_choice, Print, emit, failP, retP, traced,
          set_stdin, set_io.
        cbn [io keys logged db_closed stdin ticks trace].
        assert (Hall :
          Forall
            (fun e =>
               In e (listing 0 (sql_select_all t))
               \/ e = EvPrint "select a key: ")
            (listing 0 (sql_select_all t) ++ [EvPrint "select a key: "])).
        { apply Forall_app. split; [|now repeat constructor].
          apply Forall_forall. intros e He. now left. }
        destruct (Scanf_d kr input) as [[choice|err] rest].
        2:{ eexists _, _, _. split; [reflexivity|]. split; [eauto|].
            cbn [io trace]. split; [now rewrite <- app_assoc | exact Hall]. }
        destruct ((choice <? 0) || (Z.of_nat (List.length ks) <=? choice))
          eqn:Hchoice.
        { eexists _, _, _. split; [reflexivity|]. split; [eauto|].
          cbn [io trace]. split; [now rewrite <- app_assoc | exact Hall]. }
        apply Bool.orb_false_iff in Hchoice. destruct Hchoice as [H0 Hlen].
        apply Z.ltb_ge in H0. apply Z.leb_gt in Hlen.
        destruct (nth_error ks (Z.to_nat choice)) as [key|] eqn:E.
        2:{ apply nth_error_None in E. lia. }
        eexists _, _, _. split; [reflexivity|]. split; [eauto|].
        cbn [io trace]. split; [now rewrite <- app_assoc | exact Hall].
      * rewrite Hrows.
        rewrite (list_keys_corrupt kr before after fp pubKey err 0 [] ks p
                   Hks Herr).
        eexists _, _, (listing 0 before).
        split; [reflexivity|]. split; [eauto|].
        split; [now destruct p as [[input n tr] t l c]|].
        apply Forall_forall. intros e He. left.
        rewrite listing_app. apply in_or_app. now left.
Qed.

End LookupShows.

Lemma listing_prints (rows : list (string * list byte)) :
  forall i e, In e (listing i rows) -> exists text, e = EvPrint text.
Proof.
  induction rows as [|[fp pubKey] rows IH]; intros i e He; [contradiction|].
  destruct He as [<-|He]; [eauto | now apply (IH (S i))].
Qed.

(** The texts of the prints of a trace, printed, are events of the trace. *)
Lemma printed_Forall (P : event -> Prop) (tr : list event) :
  Forall P tr -> Forall P (map EvPrint (printed tr)).
Proof.
  induction 1 as [|e tr He Htr IH]; [constructor|].
  destruct e; cbn [printed map]; try exact IH. now constructor.
Qed.

(** X5.  All that the command [challenge] shows.  In every run of the
    command under [main], each text printed on standard output is a line of
    the listing of the stored keys or the prompt of the key selection, the
    hint with the name of the temporary file, the prompt of the loop or one
    of its two answers; the expiry instant shown is the clock's reading when
    the session opens plus the solve window; and what is written to the
    temporary file and to standard output is the armored text that the
    provider returned, followed by a line feed.  Nothing else reaches
    standard output or the file, and the log gains nothing, or the one line
    of the error that the command returned. *)
Theorem only_messages_and_armor_are_shown
  {Key PGPContext PGPMessage : Type} (w : World Key PGPContext PGPMessage)
  (kr : Keyring Key) (prog : string) (args : list string) (p : Process) :
  let p' := snd (main w kr (prog :: "challenge"%string :: args) p) in
  exists new,
    trace (io p') = trace (io p) ++ new
    /\ Forall (shown w (keys p) (clock w (ticks (io p)))) new
    /\ (logged p' = logged p
        \/ exists t err,
             logged p' = logged p ++ [(t, log_line ("error: " ++ Error err))]).
Proof.
  intros p'. subst p'.
  set (w' := with_repository w kr (keys p)).
  set (opened := clock w (ticks (io p))).
  assert (Hrun : exists new,
    trace (snd (challenge w' args (io p))) = trace (io p) ++ new
    /\ Forall (shown w (keys p) opened) new).
  { destruct (challenge_shape w' args (io p)) as [new [Hnew Hshape]].
    exists new. split; [exact Hnew|].
    assert (Hlooked :
      Forall (shown w (keys p) opened)
        (looked_up w' (key_id_of (tl args)) (stdin (io p)))).
    { unfold looked_up. apply Forall_cons; [exact I|].
      cbn [key_prints w' with_repository]. apply printed_Forall.
      destruct (getKey_returns kr (key_id_of (tl args))
                  (mkProcess (mkState (stdin (io p)) 0 []) (keys p) [] false))
        as [r [p' [events [Hrun [_ [Htrace Hevents]]]]]].
      unfold lookup. rewrite Hrun. cbn [snd]. rewrite Htrace.
      cbn [io trace app keys] in *.
      eapply Forall_impl; [|exact Hevents].
      intros e [He| ->]; [|cbn; tauto].
      destruct (listing_prints _ _ _ He) as [text ->]. now left. }
    assert (Hprovider : forall provider,
      Forall provider_event provider ->
      Forall (shown w (keys p) opened) provider).
    { intros provider Hp. eapply Forall_impl; [|exact Hp].
      intros e He. destruct e; cbn in He; try contradiction; exact I. }
    destruct Hshape
      as [->
         |[[provider [-> Hp]]
          |[[provider [err [Htemp [-> [Hp Hres]]]]]
           |[provider [name [message [armored [passes
               [Htemp [Harmor [-> [Hp [_ Hpasses]]]]]]]]]]]]].
    - constructor.
    - apply Forall_app. split; [exact Hlooked | now apply Hprovider].
    - apply Forall_app. split; [exact Hlooked|].
      apply Forall_app. split; [now apply Hprovider | repeat constructor].
    - apply Forall_app. split; [exact Hlooked|].
      apply Forall_app. split; [now apply Hprovider|].
      apply Forall_cons; [exact I|]. apply Forall_cons; [exact I|].
      apply Forall_app. split.
      { assert (Hdata : exists message0 armored0,
                  pgp_Armor w message0 = inl armored0
                  /\ (armored ++ newline)%string
                     = (armored0 ++ newline)%string)
          by now exists message, armored.
        unfold written. cbn [write_err stdout_err w' with_repository].
        apply Forall_cons; [exact Hdata|].
        destruct (write_err w); [constructor|].
        apply Forall_cons; [exact Hdata|].
        destruct (stdout_err w); [constructor|].
        apply Forall_cons; [|constructor].
        cbn. right. right. left. now exists name. }
      apply Forall_cons; [reflexivity|].
      apply Forall_app. split; [|repeat constructor].
      revert Hpasses. apply passes_Forall; cbn; tauto. }
  destruct Hrun as [new [Hnew Hshown]].
  rewrite (main_cases w kr prog "challenge" args (challenge_command w kr) p
             eq_refl).
  unfold challenge_command. rewrite liftM_returns. fold w'.
  destruct (challenge w' args (io p)) as [[u|err|msg|] s'];
    cbn [fst snd] in *.
  - exists new. split; [exact Hnew|]. split; [exact Hshown | now left].
  - exists (new ++ [EvNow (clock w (ticks s'))]).
    split; [cbn; now rewrite Hnew, <- app_assoc|]. split.
    + apply Forall_app. split; [exact Hshown | repeat constructor].
    + right. now exists (clock w (ticks s')), err.
  - exists new. split; [exact Hnew|]. split; [exact Hshown | now left].
  - exists new. split; [exact Hnew|]. split; [exact Hshown | now left].
Qed.

(** X17.  [main] closes the database only when it returns, and it never
    returns an error.  Whatever the arguments, a run of [main] that returns
    has run the deferred [db.Close()] and returns no error; a run that ends
    the process, as after a missing or unknown command or after a command's
    error, does so with the status 1 and without closing the database. *)
Theorem main_closes_the_database_only_when_it_returns
  {Key PGPContext PGPMessage : Type} (w : World Key PGPContext PGPMessage)
  (kr : Keyring Key) (os_Args : list string) (p : Process) :
  match main w kr os_Args p with
  | (Returned o, p') => db_closed p' = true /\ (forall err, o <> Err err)
  | (Exited code, p') => code = 1 /\ db_closed p' = db_closed p
  end.
Proof.
  destruct os_Args as [|prog [|cmd args]];
    [now split | now split |].
  destruct (commands w kr cmd) as [fn|] eqn:Hfn.
  - rewrite (main_cases w kr prog cmd args fn p Hfn).
    destruct (command_endings w kr cmd fn args p Hfn) as [Hdb Hcode].
    destruct (fn args p) as [[[u|err|msg|]|code] p']; cbn [fst snd] in *.
    + split; [reflexivity | discriminate].
    + split; [reflexivity | exact Hdb].
    + split; [reflexivity | discriminate].
    + split; [reflexivity | discriminate].
    + split; [now apply Hcode | exact Hdb].
  - unfold main, deferP. rewrite Hfn. now split.
Qed.

(** X18.  A word that is not a command is answered with the help.  When the
    first argument is none of [help], [import] and [challenge], [main] prints
    that the command is unknown, then the four lines of [help], and ends the
    process with the status 1; the table, the log and the input are as
    before. *)
Theorem unknown_command_shows_the_help
  {Key PGPContext PGPMessage : Type} (w : World Key PGPContext PGPMessage)
  (kr : Keyring Key) (prog cmd : string) (args : list string) (p : Process) :
  cmd <> "help"%string ->
  cmd <> "import"%string ->
  cmd <> "challenge"%string ->
  main w kr (prog :: cmd :: args) p
  = (Exited 1,
     traced
       (EvPrint ("unknown command '" ++ cmd ++ "'" ++ newline) :: help_text)
       p).
Proof.
  intros Hhelp Himport Hchallenge.
  unfold main, deferP, commands.
  apply String.eqb_neq in Hhelp, Himport, Hchallenge.
  rewrite Hhelp, Himport, Hchallenge.
  destruct p as [[i n tr] t l c].
  unfold help. unfold bindP, liftM, Print, Println, bind, emit, os_Exit,
    traced, set_io, help_text.
  cbn [io keys logged db_closed stdin ticks trace fst snd].
  now rewrite <- !app_assoc.
Qed.

Lemma unknown_command_shows_the_help_witness :
  main (DemoRepo.world DemoRepo.ticking) DemoRepo.keyring
    ["pgp-mfa"; "import-key"; "alice.asc"]%string (DemoRepo.start EmptyString [])
  = (Exited 1,
     traced
       (EvPrint ("unknown command '" ++ "import-key" ++ "'" ++ newline)
        :: help_text)
       (DemoRepo.start EmptyString [])).
Proof.
  apply (unknown_command_shows_the_help
           (DemoRepo.world DemoRepo.ticking) DemoRepo.keyring
           "pgp-mfa" "import-key" ["alice.asc"%string]
           (DemoRepo.start EmptyString []));
    discriminate.
Defined.

(** X19.  A refused length ends the process before anything is done.  Under
    [main], the command [challenge] with a first argument whose number is not
    a power of two from 1 to 512 ends the process with the status 1 after
    one logged line, ["error: "] and the message of [ErrChallengeLength] or
    of [ErrChallengePow]: nothing is printed, no key is looked up, the input
    is not read and the database is not closed. *)
Theorem refused_length_ends_the_process
  {Key PGPContext PGPMessage : Type} (w : World Key PGPContext PGPMessage)
  (kr : Keyring Key) (prog arg0 : string) (more : list string)
  (p : Process) :
  let length := fst (Atoi arg0) in
  length <= 0 \/ 512 < length \/ Z.land length (length - 1) <> 0 ->
  exists err,
    (err = ErrChallengeLength \/ err = ErrChallengePow)
    /\ main w kr (prog :: "challenge"%string :: arg0 :: more) p
       = (Exited 1, fatal_error w err p).
Proof.
  intros length Hrefused.
  rewrite (main_cases w kr prog "challenge" (arg0 :: more)
             (challenge_command w kr) p eq_refl).
  unfold challenge_command.
  rewrite liftM_returns, challenge_cases. cbv zeta. fold length.
  assert (Hsame : set_io (io p) p = p) by now destruct p.
  destruct ((length <=? 0) || (512 <? length)) eqn:Hrange.
  - exists ErrChallengeLength. cbn [fst snd]. rewrite Hsame. now split; [left|].
  - destruct (negb (Z.land length (length - 1) =? 0)) eqn:Hpow.
    + exists ErrChallengePow. cbn [fst snd]. rewrite Hsame. now split; [right|].
    + exfalso. apply Bool.orb_false_iff in Hrange. destruct Hrange as [H1 H2].
      apply Z.leb_gt in H1. apply Z.ltb_ge in H2.
      apply Bool.negb_false_iff, Z.eqb_eq in Hpow. lia.
Qed.

Lemma refused_length_ends_the_process_witness :
  exists err,
    (err = ErrChallengeLength \/ err = ErrChallengePow)
    /\ main (DemoRepo.world DemoRepo.ticking) DemoRepo.keyring
         ["pgp-mfa"; "challenge"; "48"; "a1b2c3"]%string
         (DemoRepo.start EmptyString [])
       = (Exited 1,
          fatal_error (DemoRepo.world DemoRepo.ticking) err
            (DemoRepo.start EmptyString [])).
Proof.
  apply (refused_length_ends_the_process
           (DemoRepo.world DemoRepo.ticking) DemoRepo.keyring
           "pgp-mfa" "48" ["a1b2c3"%string] (DemoRepo.start EmptyString [])).
  right. right. vm_compute. discriminate.
Defined.

(** X20.  Only a successful import changes the table.  Whatever the
    arguments, a run of [main] that leaves a table other than the one it
    found was given the command [import] with one argument, the import
    succeeded, and [main] returned without an error. *)
Theorem only_a_successful_import_changes_the_table
  {Key PGPContext PGPMessage : Type} (w : World Key PGPContext PGPMessage)
  (kr : Keyring Key) (os_Args : list string) (p : Process) :
  keys (snd (main w kr os_Args p)) <> keys p ->
  exists prog arg0,
    os_Args = [prog; "import"%string; arg0]
    /\ fst (importKey w kr [arg0] p) = Returned (Ok tt)
    /\ main w kr os_Args p
       = (Returned (Ok tt), db_Close (snd (importKey w kr [arg0] p))).
Proof.
  intros Hchanged.
  destruct os_Args as [|prog [|cmd args]];
    [now contradiction Hchanged | now contradiction Hchanged |].
  destruct (commands w kr cmd) as [fn|] eqn:Hfn.
  - rewrite (main_cases w kr prog cmd args fn p Hfn) in Hchanged |- *.
    assert (Hkeys :
      keys (snd (fn args p)) <> keys p).
    { intros Hsame. apply Hchanged. rewrite <- Hsame.
      now destruct (fn args p) as [[[u|err|msg|]|code] p']. }
    clear Hchanged. revert Hfn Hkeys. unfold commands.
    destruct (cmd =? "help")%string eqn:Ehelp;
      [|destruct (cmd =? "import")%string eqn:Eimport;
        [|destruct (cmd =? "challenge")%string; [|discriminate]]];
      intros Hfn; injection Hfn as <-; intros Hkeys.
    + exfalso. apply Hkeys. unfold help. now rewrite liftM_returns.
    + apply String.eqb_eq in Eimport. subst cmd.
      destruct (importKey_table w kr args p)
        as [[_ Hsame]|[arg0 [f [k [b [Hargs [_ [_ [_ [_ [_ [_ [Hok _]]]]]]]]]]]]].
      * now contradiction Hkeys.
      * subst args. exists prog, arg0. split; [reflexivity|].
        split; [exact Hok|].
        destruct (importKey w kr [arg0] p) as [e p']. cbn [fst snd] in *.
        now rewrite Hok.
    + exfalso. apply Hkeys. unfold challenge_command.
      now rewrite liftM_returns.
  - exfalso. apply Hchanged. unfold main, deferP. rewrite Hfn.
    now destruct p as [[i n tr] t l c].
Qed.

Lemma only_a_successful_import_changes_the_table_witness :
  let w := DemoRepo.world DemoRepo.ticking in
  let p := DemoRepo.start EmptyString [] in
  exists prog arg0,
    ["pgp-mfa"; "import"; "alice.asc"]%string = [prog; "import"%string; arg0]
    /\ fst (importKey w DemoRepo.keyring [arg0] p) = Returned (Ok tt)
    /\ main w DemoRepo.keyring ["pgp-mfa"; "import"; "alice.asc"]%string p
       = (Returned (Ok tt),
          db_Close (snd (importKey w DemoRepo.keyring [arg0] p))).
Proof.
  intros w p.
  apply (only_a_successful_import_changes_the_table
           w DemoRepo.keyring ["pgp-mfa"; "import"; "alice.asc"]%string p).
  vm_compute. discriminate.
Defined.

(** X21.  Without its database the program runs no command.  When the
    database cannot be opened or the table cannot be created, [init] logs one
    line and ends the process with the status 1, so that no command runs,
    not even [help], which needs no database: nothing is printed whatever
    the arguments are. *)
Theorem failed_database_stops_every_command
  {Key PGPContext PGPMessage : Type} (w : World Key PGPContext PGPMessage)
  (kr : Keyring Key) (p : Process) :
  open_err kr <> None \/ create_table_err kr <> None ->
  exists line,
    forall os_Args,
      program w kr os_Args p
      = (Exited 1, add_log (clock w (ticks (io p))) line (read_clock w 1 p)).
Proof.
  intros Hfailed.
  assert (Hfatal : forall text,
    log_Fatal w (A:=unit) text p
    = (Exited 1,
       add_log (clock w (ticks (io p))) (log_line text) (read_clock w 1 p))).
  { intros text. now destruct p as [[i n tr] t l c]. }
  unfold program, init.
  destruct (open_err kr) as [err|].
  - eexists. intros os_Args. unfold bindP at 1. now rewrite Hfatal.
  - destruct (create_table_err kr) as [err|].
    + eexists. intros os_Args. unfold bindP at 1. now rewrite Hfatal.
    + now destruct Hfailed as [H|H]; contradiction H.
Qed.

Lemma failed_database_stops_every_command_witness :
  exists line,
    forall os_Args,
      program (DemoRepo.world DemoRepo.ticking) DemoRepo.keyring_without_table
        os_Args (DemoRepo.start EmptyString [])
      = (Exited 1,
         add_log DemoRepo.year_2024 line
           (read_clock (DemoRepo.world DemoRepo.ticking) 1
              (DemoRepo.start EmptyString []))).
Proof.
  apply (failed_database_stops_every_command
           (DemoRepo.world DemoRepo.ticking) DemoRepo.keyring_without_table
           (DemoRepo.start EmptyString [])).
  right. discriminate.
Defined.

(** * The benchmarks of the encryption *)

Lemma store_new_array (h : Benchmarks.Heap) (old data : list byte) :
  Benchmarks.store (List.length h) data (h ++ [old]) = h ++ [data].
Proof.
  induction h as [|x h IH]; [reflexivity|].
  cbn [List.length app Benchmarks.store]. now rewrite IH.
Qed.

(** [copy] into a slice that [make] gave its length fills the slice: it is
    the length zero of the destinations that makes the copies of [init] copy
    nothing. *)
Lemma copy_into_made_slice (n : nat) (src : list byte) (h : Benchmarks.Heap) :
  (n <= List.length src)%nat ->
  let dst := fst (Benchmarks.make n h) in
  let h1 := snd (Benchmarks.make n h) in
  Benchmarks.copy dst src h1
  = (n, h ++ [firstn n src])
  /\ Benchmarks.contents (snd (Benchmarks.copy dst src h1)) dst = firstn n src.
Proof.
  intros Hn dst h1.
  assert (Hcopy : Benchmarks.copy dst src h1 = (n, h ++ [firstn n src])).
  { unfold Benchmarks.copy, dst, h1, Benchmarks.make, Benchmarks.backing.
    cbn [fst snd Benchmarks.array Benchmarks.len].
    rewrite Nat.min_l by exact Hn. rewrite store_new_array.
    rewrite app_nth2, Nat.sub_diag by lia. cbn [nth].
    rewrite skipn_all2 by (rewrite repeat_length; lia).
    now rewrite app_nil_r. }
  split; [exact Hcopy|]. rewrite Hcopy.
  unfold Benchmarks.contents, Benchmarks.backing, dst, Benchmarks.make.
  cbn [fst snd Benchmarks.array Benchmarks.len].
  rewrite app_nth2, Nat.sub_diag by lia. cbn [nth].
  rewrite firstn_firstn. now rewrite Nat.min_id.
Qed.

(** After [init], [chalMap] gives a slice without elements for every
    length. *)
Lemma lookup_after_init (length : Z) :
  Benchmarks.lookup (Benchmarks.prepare_challenges Benchmarks.package_heap)
    length
  = [].
Proof.
  unfold Benchmarks.lookup, Benchmarks.chalMap.
  repeat match goal with
         | |- context [if ?b then _ else _] => destruct b
         end; reflexivity.
Qed.

Section BenchmarkEvents.

Context {Key PGPContext PGPMessage : Type}.
Variable w : World Key PGPContext PGPMessage.
Variable key : Key.

Lemma iteration_events (plaintext : list byte) (s : State) :
  exists failed events,
    Benchmarks.iteration w key plaintext s
    = (Ok failed, mkState (stdin s) (ticks s) (trace s ++ events))
    /\ Forall
         (fun e => forall data, e = EvPGPEncrypt data -> data = plaintext)
         events
    /\ (forall ctx, pgp_New w key = inl ctx ->
        In (EvPGPEncrypt plaintext) events).
Proof.
  unfold Benchmarks.iteration. rewrite encryptChallenge_cases. cbv zeta.
  destruct (pgp_New w key) as [ctx|err].
  - destruct (pgp_Encrypt w ctx plaintext) as [encrypted|err];
      [destruct (pgp_Armor w encrypted) as [armored|err]|];
      eexists; eexists; (split; [reflexivity|]);
      (split; [|intros; right; left; reflexivity]);
      repeat (first [apply Forall_nil | apply Forall_cons]);
      intros data H; try discriminate H; now injection H.
  - eexists; eexists. split; [reflexivity|].
    split; [|intros ctx H; discriminate H].
    repeat (first [apply Forall_nil | apply Forall_cons]).
    intros data H. discriminate H.
Qed.

Lemma iterate_events (plaintext : list byte) (n : nat) :
  forall (failed : bool) (s : State),
  exists failed' events,
    Benchmarks.iterate n (Benchmarks.iteration w key plaintext) failed s
    = (Ok failed', mkState (stdin s) (ticks s) (trace s ++ events))
    /\ Forall
         (fun e => forall data, e = EvPGPEncrypt data -> data = plaintext)
         events
    /\ (forall ctx, n <> O -> pgp_New w key = inl ctx ->
        In (EvPGPEncrypt plaintext) events).
Proof.
  induction n as [|n IH]; intros failed s.
  - exists failed, []. cbn [Benchmarks.iterate]. unfold ret.
    rewrite app_nil_r. split; [now destruct s|].
    split; [apply Forall_nil | intros ctx H; now contradiction H].
  - destruct (iteration_events plaintext s) as [f [ev1 [H1 [Hall1 Hin1]]]].
    cbn [Benchmarks.iterate]. unfold bind. rewrite H1.
    destruct (IH (failed || f)
                (mkState (stdin s) (ticks s) (trace s ++ ev1)))
      as [f' [ev2 [H2 [Hall2 _]]]].
    rewrite H2. cbn [stdin ticks trace].
    exists f', (ev1 ++ ev2). split; [now rewrite <- app_assoc|].
    split; [now apply Forall_app|].
    intros ctx _ Hctx. apply in_or_app. left. now apply (Hin1 ctx).
Qed.

End BenchmarkEvents.

(** X22.  The benchmarks of the encryption encrypt the empty message.  The
    plaintexts of [chalMap] are slices of length zero, into which the copies
    of [init] copy nothing; so a benchmark of at least one iteration with a
    key that gives a context asks for the encryption of the empty message,
    and asks for no other encryption, whatever length, 16 to 512, it is run
    for.  The benchmark ends without a panic. *)
Theorem benchmarks_encrypt_the_empty_message
  {Key PGPContext PGPMessage : Type} (w : World Key PGPContext PGPMessage)
  (N length : Z) (key : Key) (ctx : PGPContext) (s : State) :
  0 < N ->
  pgp_New w key = inl ctx ->
  exists failed events,
    Benchmarks.benchmarkChallengeEncryption w N length key s
    = (Ok failed, mkState (stdin s) (ticks s) (trace s ++ events))
    /\ In (EvPGPEncrypt []) events
    /\ Forall Benchmarks.encrypts_nothing events.
Proof.
  intros HN Hctx. unfold Benchmarks.benchmarkChallengeEncryption.
  rewrite lookup_after_init.
  destruct (iterate_events w key [] (Z.to_nat N) false s)
    as [failed [events [Hrun [Hall Hin]]]].
  exists failed, events. split; [exact Hrun|]. split.
  - apply (Hin ctx); [lia | exact Hctx].
  - eapply Forall_impl; [|exact Hall].
    intros e He. destruct e; try exact I. now apply He.
Qed.

Lemma benchmarks_encrypt_the_empty_message_witness :
  exists failed events,
    Benchmarks.benchmarkChallengeEncryption (DemoRepo.world DemoRepo.ticking)
      2 512 (bytes_of_string "P-a1b2c3") (Demo.start EmptyString)
    = (Ok failed,
       mkState (stdin (Demo.start EmptyString))
         (ticks (Demo.start EmptyString))
         (trace (Demo.start EmptyString) ++ events))
    /\ In (EvPGPEncrypt []) events
    /\ Forall Benchmarks.encrypts_nothing events.
Proof.
  apply (benchmarks_encrypt_the_empty_message
           (DemoRepo.world DemoRepo.ticking) 2 512
           (bytes_of_string "P-a1b2c3") tt (Demo.start EmptyString)).
  - lia.
  - reflexivity.
Defined.
